(** * FEC chunk sessions of bitcoinsatellite: [src/fec.h] and [src/fec.cpp]

    A shallow embedding of the chunk tracker declared in [fec.h] and of the
    decode and encode sessions defined in [fec.cpp], followed by the
    properties the specification states about them.

    [fec.h] declares a later interface than [fec.cpp] defines: an [overwrite]
    flag and per-slot identifiers for [BuildChunk], a bounded codec mode, a
    hybrid tracker.  The sessions modelled here are the ones [fec.cpp]
    defines; the tracker, whose code is inline in [fec.h], is modelled from
    there.

    Conventions.
    - [size_t] values are [N]; every arithmetic operation the source performs
      on them is written with its wrap-around modulo [2^64].
    - [assert] and accesses outside a buffer make an operation return [None].
    - A [std::vector] is a list; [v[i]] is stdpp's list lookup.
    - The coding primitive ([wh256_*]) and [open_hash_set] are not defined in
      the two files; they are interfaces here, see [wh256] and
      [open_hash_set.ops]. *)

From Stdlib Require Import NArith ZArith Lia.
From stdpp Require Import base option list gmap fin_sets.

Local Open Scope N_scope.

#[local] Set Warnings "-clear-no-such-hyp".

(** ** Machine arithmetic and buffers *)

(** [#define FEC_CHUNK_SIZE 1152] (fec.h:14). *)
Definition FEC_CHUNK_SIZE : N := 1152.

(** [#define CM256_MAX_CHUNKS 27] (fec.h:15). *)
Definition CM256_MAX_CHUNKS : N := 27.

(** The modulus of [size_t]. *)
Definition SIZE_MOD : N := 2 ^ 64.

Definition size_add (a b : N) : N := (a + b) mod SIZE_MOD.
Definition size_sub (a b : N) : N := (a + SIZE_MOD - b mod SIZE_MOD) mod SIZE_MOD.
Definition size_mul (a b : N) : N := (a * b) mod SIZE_MOD.

(** [#define DIV_CEIL(a, b) (((a) + (b) - 1) / (b))] (fec.cpp:11), on [size_t]. *)
Definition DIV_CEIL (a b : N) : N := size_sub (size_add a b) 1 / b.

(** [v.size()]. *)
Definition vsize {A} (v : list A) : N := N.of_nat (length v).

(** [v[i]] for a [size_t] index; [None] outside the vector. *)
Definition vget {A} (v : list A) (i : N) : option A := v !! N.to_nat i.

(** [v[i] = x]. *)
Definition vset {A} (v : list A) (i : N) (x : A) : list A := <[N.to_nat i := x]> v.

(** A chunk payload: [FECChunkType] is [FEC_CHUNK_SIZE] bytes of storage. *)
Definition FECChunkType : Type := list Byte.byte.

(** [memcpy(&buf[off], src, n)]: [None] when it would read past [src] or write
    past [buf]. *)
Definition memcpy_at (buf : list Byte.byte) (off : N) (src : list Byte.byte) (n : N)
  : option (list Byte.byte) :=
  if (n <=? vsize src) && (off + n <=? vsize buf) then
    Some (take (N.to_nat off) buf ++ take (N.to_nat n) src
            ++ drop (N.to_nat (off + n)) buf)
  else None.

(** [memset(&buf[off], c, n)]: [None] when it would write past [buf]. *)
Definition memset_at (buf : list Byte.byte) (off : N) (c : Byte.byte) (n : N)
  : option (list Byte.byte) :=
  if off + n <=? vsize buf then
    Some (take (N.to_nat off) buf ++ replicate (N.to_nat n) c
            ++ drop (N.to_nat (off + n)) buf)
  else None.

(** The bytes of output slot [i] of a flat chunk buffer. *)
Definition slot_bytes (buf : list Byte.byte) (i : N) : list Byte.byte :=
  take (N.to_nat FEC_CHUNK_SIZE) (drop (N.to_nat (i * FEC_CHUNK_SIZE)) buf).

(** The buffer after [bytes] have been stored from offset [off] on. *)
Definition write_at (buf : list Byte.byte) (off : nat) (bytes : list Byte.byte)
  : list Byte.byte :=
  take off buf ++ bytes ++ drop (off + length bytes) buf.

(** A payload followed by zero bytes up to [FEC_CHUNK_SIZE]. *)
Definition zero_padded (bytes : list Byte.byte) : list Byte.byte :=
  bytes ++ replicate (N.to_nat FEC_CHUNK_SIZE - length bytes) Byte.x00.

(** A [std::vector] holds at most [PTRDIFF_MAX] bytes ([max_size()]). *)
Definition PTRDIFF_MAX : N := 2 ^ 63 - 1.
Definition vector_ok {A} (v : list A) : Prop := vsize v ≤ PTRDIFF_MAX.

(** ** The coding primitive

    [fec.cpp] calls [wh256_decoder_init], [wh256_decoder_read],
    [wh256_decoder_reconstruct_block], [wh256_encoder_init] and
    [wh256_encoder_write]; their definitions are outside the two files.  The
    handle is a C pointer, so it has a null value.  A call that mutates the
    codec behind the handle returns the handle's new value.

    - [wh256_decoder_read st id chunk] returns the [int] result: [0] means the
      object can now be reconstructed.
    - [wh256_decoder_reconstruct_block st id tmp] receives the current content
      of the destination buffer and returns its new content.
    - [wh256_encoder_write st id] returns the bytes it wrote at the destination
      ([chunk_bytes] is their number) and the [int] result, [0] on success. *)
Class wh256 := {
  wh256_state : Type;
  wh256_NULL : wh256_state;
  wh256_is_null : wh256_state → bool;
  wh256_decoder_init : wh256_state → N → N → wh256_state;
  wh256_decoder_read : wh256_state → N → FECChunkType → wh256_state * Z;
  wh256_decoder_reconstruct_block :
    wh256_state → N → FECChunkType → wh256_state * FECChunkType * Z;
  wh256_encoder_init : wh256_state → list Byte.byte → N → N → wh256_state;
  wh256_encoder_write : wh256_state → N → wh256_state * list Byte.byte * Z;
}.

(** Modelled from the spec: the coding primitive is not among the source
    files, and this is what the spec (4.2, 6 and glossary) says of its bounded
    threshold coder, the one for objects of at most [CM256_MAX_CHUNKS] data
    chunks: reconstruction becomes possible exactly when as many distinct
    chunks as the object has data chunks have been added, and never before.
    [seen] and [blocks] read off a handle the chunk ids added so far and the
    number of data chunks of the object. *)
Definition threshold_coder {codec : wh256}
    (seen : wh256_state → gset N) (blocks : wh256_state → N) : Prop :=
  (∀ data_size,
     let st := wh256_decoder_init wh256_NULL data_size FEC_CHUNK_SIZE in
     wh256_is_null st = false →
     seen st = ∅ ∧ blocks st = (data_size + (FEC_CHUNK_SIZE - 1)) / FEC_CHUNK_SIZE) ∧
  (∀ st chunk_id chunk st' r,
     blocks st ≤ CM256_MAX_CHUNKS → chunk_id ∉ seen st →
     wh256_decoder_read st chunk_id chunk = (st', r) →
     seen st' = {[chunk_id]} ∪ seen st ∧ blocks st' = blocks st ∧
     (r = 0%Z ↔ blocks st ≤ N.of_nat (size (seen st')))).

(** The null handle tests as null: [if (state)] is false for [NULL]. *)
Definition null_is_null {codec : wh256} : Prop := wh256_is_null wh256_NULL = true.

(** ** [class FECDecoder] (fec.cpp:13-76) *)
Module FECDecoder.
Section WithCodec.
Context {codec : wh256}.

Record t := mk {
  tmp_chunk : FECChunkType;
  chunk_count : N;
  chunks_recvd : N;
  chunks_sent : N;
  decodeComplete : bool;
  chunk_recvd_flags : list bool;
  state : wh256_state;
}.

(** [FECDecoder::FECDecoder(data_size, chunks_provided, prng_seed)]
    (fec.cpp:13-21).  [tmp0] is the indeterminate initial content of the
    scratch chunk; [state] starts null and is set only for two chunks or
    more, where [assert(state)] must hold. *)
Definition FECDecoder (tmp0 : FECChunkType) (data_size chunks_provided : N) (prng_seed : Z)
  : option t :=
  let count := DIV_CEIL data_size FEC_CHUNK_SIZE in
  let flags := replicate (N.to_nat chunks_provided) false in
  if count <? 2 then
    Some (mk tmp0 count 0 chunks_provided false flags wh256_NULL)
  else
    let st := wh256_decoder_init wh256_NULL data_size FEC_CHUNK_SIZE in
    if wh256_is_null st then None
    else Some (mk tmp0 count 0 chunks_provided false flags st).

(** [FECDecoder::ProvideChunk] (fec.cpp:40-58).  The [memcpy] of line 52
    copies [FEC_CHUNK_SIZE] bytes of the chunk into [tmp_chunk]. *)
Definition ProvideChunk (d : t) (chunk : FECChunkType) (chunk_id : N) : option (bool * t) :=
  if negb (chunk_id <? chunks_sent d) then None
  else if decodeComplete d then Some (true, d)
  else
    match vget (chunk_recvd_flags d) chunk_id with
    | None => None
    | Some true => Some (true, d)
    | Some false =>
      let flags := vset (chunk_recvd_flags d) chunk_id true in
      let recvd := size_add (chunks_recvd d) 1 in
      if chunk_count d <? 2 then
        Some (true, mk (take (N.to_nat FEC_CHUNK_SIZE) chunk) (chunk_count d) recvd
                       (chunks_sent d) true flags (state d))
      else
        let '(st, r) := wh256_decoder_read (state d) chunk_id chunk in
        Some (true, mk (tmp_chunk d) (chunk_count d) recvd (chunks_sent d)
                       (if (r =? 0)%Z then true else decodeComplete d) flags st)
    end.

(** [FECDecoder::HasChunk] (fec.cpp:60-64); [||] does not read the flag
    when the session is complete. *)
Definition HasChunk (d : t) (chunk_id : N) : option bool :=
  if negb (chunk_id <? chunks_sent d) then None
  else if decodeComplete d then Some true
  else vget (chunk_recvd_flags d) chunk_id.

(** [FECDecoder::DecodeReady] (fec.cpp:66-68). *)
Definition DecodeReady (d : t) : bool := decodeComplete d.

(** [FECDecoder::GetDataPtr] (fec.cpp:70-76): the content of [tmp_chunk]
    the returned pointer refers to, and the session after the call. *)
Definition GetDataPtr (d : t) (chunk_id : N) : option (FECChunkType * t) :=
  if negb (DecodeReady d) then None
  else if negb (chunk_id <? chunk_count d) then None
  else if 2 <=? chunk_count d then
    let '(st, tmp, r) := wh256_decoder_reconstruct_block (state d) chunk_id (tmp_chunk d) in
    if (r =? 0)%Z then
      Some (tmp, mk tmp (chunk_count d) (chunks_recvd d) (chunks_sent d)
                    (decodeComplete d) (chunk_recvd_flags d) st)
    else None
  else Some (tmp_chunk d, d).

(** [GetChunkCount] and [GetChunksRcvd] (fec.h:147-148). *)
Definition GetChunkCount (d : t) : N := chunk_count d.
Definition GetChunksRcvd (d : t) : N := chunks_recvd d.

(** The calls a caller can make on a session, and a session driven by a
    sequence of them. *)
Inductive call :=
| CallProvideChunk (chunk : FECChunkType) (chunk_id : N)
| CallHasChunk (chunk_id : N)
| CallDecodeReady
| CallGetDataPtr (chunk_id : N).

Definition exec (d : t) (c : call) : option t :=
  match c with
  | CallProvideChunk chunk chunk_id => snd <$> ProvideChunk d chunk chunk_id
  | CallHasChunk chunk_id => (λ _, d) <$> HasChunk d chunk_id
  | CallDecodeReady => Some d
  | CallGetDataPtr chunk_id => snd <$> GetDataPtr d chunk_id
  end.

Fixpoint run (d : t) (cs : list call) : option t :=
  match cs with
  | [] => Some d
  | c :: cs' => match exec d c with Some d' => run d' cs' | None => None end
  end.

(** Feeding a sequence of chunks: [ProvideChunk] on each in turn. *)
Fixpoint ProvideChunks (d : t) (cs : list (FECChunkType * N)) : option t :=
  match cs with
  | [] => Some d
  | (chunk, chunk_id) :: cs' =>
    match ProvideChunk d chunk chunk_id with
    | Some (_, d') => ProvideChunks d' cs'
    | None => None
    end
  end.

(** The four ways through [ProvideChunk], as an inversion principle. *)
Inductive ProvideChunk_path (d : t) (chunk : FECChunkType) (chunk_id : N)
  : option (bool * t) → Prop :=
| path_complete :
    decodeComplete d = true →
    ProvideChunk_path d chunk chunk_id (Some (true, d))
| path_seen :
    decodeComplete d = false →
    vget (chunk_recvd_flags d) chunk_id = Some true →
    ProvideChunk_path d chunk chunk_id (Some (true, d))
| path_single :
    decodeComplete d = false →
    vget (chunk_recvd_flags d) chunk_id = Some false →
    chunk_count d < 2 →
    ProvideChunk_path d chunk chunk_id
      (Some (true, mk (take (N.to_nat FEC_CHUNK_SIZE) chunk) (chunk_count d)
                      (size_add (chunks_recvd d) 1) (chunks_sent d) true
                      (vset (chunk_recvd_flags d) chunk_id true) (state d)))
| path_codec st r :
    decodeComplete d = false →
    vget (chunk_recvd_flags d) chunk_id = Some false →
    2 ≤ chunk_count d →
    wh256_decoder_read (state d) chunk_id chunk = (st, r) →
    ProvideChunk_path d chunk chunk_id
      (Some (true, mk (tmp_chunk d) (chunk_count d) (size_add (chunks_recvd d) 1)
                      (chunks_sent d) (bool_decide (r = 0%Z))
                      (vset (chunk_recvd_flags d) chunk_id true) st)).

(** The flag vector has one entry per chunk id: the constructor builds it so
    and every call keeps it so. *)
Definition wf (d : t) : Prop := vsize (chunk_recvd_flags d) = chunks_sent d.

(** The invariant of bounded mode, for a session of [k] data chunks after the
    ids in [S] have been provided: until completion the flags and the codec
    both hold exactly [S], which is too small; after completion [S] is large
    enough. *)
Definition bounded_inv (seen : wh256_state → gset N) (blocks : wh256_state → N)
    (k : N) (d : t) (S : gset N) : Prop :=
  wf d ∧ chunk_count d = k ∧
  (decodeComplete d = false →
     (∀ i, vget (chunk_recvd_flags d) i = Some true ↔ i ∈ S) ∧
     seen (state d) = S ∧ blocks (state d) = k ∧ N.of_nat (size S) < k) ∧
  (decodeComplete d = true → k ≤ N.of_nat (size S)).

(** [FECDecoder::operator=(FECDecoder&& decoder)] (fec.cpp:23-33), for two
    distinct objects: the target and the source after the assignment.
    [moved_from] is what the move leaves in the source's flag vector, which
    the language leaves unspecified.  The [memcpy] copies the whole scratch
    chunk; the source keeps every other field and loses its handle. *)
Definition operator_assign (this decoder : t) (moved_from : list bool) : t * t :=
  (mk (tmp_chunk decoder) (chunk_count decoder) (chunks_recvd decoder)
      (chunks_sent decoder) (decodeComplete decoder) (chunk_recvd_flags decoder)
      (state decoder),
   mk (tmp_chunk decoder) (chunk_count decoder) (chunks_recvd decoder)
      (chunks_sent decoder) (decodeComplete decoder) moved_from wh256_NULL).

(** [FECDecoder::~FECDecoder] (fec.cpp:35-38): the handle it passes to
    [wh256_free], if it calls it. *)
Definition destructor (d : t) : option wh256_state :=
  if wh256_is_null (state d) then None else Some (state d).

(** The chunk id [ProvideChunk] passes to [wh256_decoder_read]
    (fec.cpp:54), if the call reaches that line. *)
Definition ProvideChunk_read (d : t) (chunk : FECChunkType) (chunk_id : N) : option N :=
  if negb (chunk_id <? chunks_sent d) then None
  else if decodeComplete d then None
  else
    match vget (chunk_recvd_flags d) chunk_id with
    | Some false => if chunk_count d <? 2 then None else Some chunk_id
    | _ => None
    end.

(** The chunk ids passed to [wh256_decoder_read] while a sequence of chunks is
    fed, in order. *)
Fixpoint decoder_reads (d : t) (cs : list (FECChunkType * N)) : list N :=
  match cs with
  | [] => []
  | (chunk, chunk_id) :: cs' =>
    match ProvideChunk d chunk chunk_id with
    | Some (_, d') =>
      match ProvideChunk_read d chunk chunk_id with
      | Some i => i :: decoder_reads d' cs'
      | None => decoder_reads d' cs'
      end
    | None => []
    end
  end.

(** The number of flags that are set. *)
Definition flags_set (flags : list bool) : nat :=
  length (filter (λ b, b = true) flags).

(** The invariant of the received counter, for a session after the ids in [S]
    have been provided: the counter is the number of set flags; until
    completion the set flags are exactly [S]; after it the counter is frozen
    at a value of at least one. *)
Definition counter_inv (d : t) (S : gset N) : Prop :=
  wf d ∧ chunks_sent d < SIZE_MOD ∧
  chunks_recvd d = N.of_nat (flags_set (chunk_recvd_flags d)) ∧
  (decodeComplete d = false →
     (∀ i, vget (chunk_recvd_flags d) i = Some true ↔ i ∈ S) ∧
     chunks_recvd d = N.of_nat (size S)) ∧
  (decodeComplete d = true → 1 ≤ chunks_recvd d ≤ N.of_nat (size S)).

End WithCodec.
Arguments t {codec}.
End FECDecoder.

(** ** [open_hash_set] (included by fec.h:20, not defined in the two files)

    The tracker uses two operations of
    [open_hash_set<uint32_t, ChunkIdIsNull, ChunkIdHasher>]:
    [find_fast(e)] and [insert(e).second].  [empty] is the set a tracker is
    constructed with. *)
Module open_hash_set.
Class ops := {
  t : Type;
  empty : t;
  find_fast : t → N → bool;
  insert : t → N → t * bool;
}.
End open_hash_set.

(** ** [class BlockChunkRecvdTracker] (fec.h:26-64) *)
Module BlockChunkRecvdTracker.
Section WithSet.
Context {ohs : open_hash_set.ops}.

(** [ChunkIdHasher] and [ChunkIdIsNull] (fec.h:30-35). *)
Definition ChunkIdHasher (elem : N) : N := elem.
Definition ChunkIdIsNull (elem : N) : bool := elem =? 0.

Record t := mk {
  data_chunk_recvd_flags : list bool;
  fec_chunks_recvd : open_hash_set.t;
}.

(** Modelled from the spec: [BlockChunkRecvdTracker(size_t data_chunks)] is
    declared at fec.h:40 and defined outside the two files.  The spec (4.1)
    gives the tracker a dense boolean array of length [data_chunk_count] and a
    sparse set for the identifiers above it; nothing is recorded at first. *)
Definition BlockChunkRecvdTracker (data_chunks : N) : t :=
  mk (replicate (N.to_nat data_chunks) false) open_hash_set.empty.

(** [CheckPresentAndMarkRecvd] (fec.h:45-58): the returned flag and the
    tracker after the call. *)
Definition CheckPresentAndMarkRecvd (tr : t) (chunk_id : N) : bool * t :=
  if chunk_id <? vsize (data_chunk_recvd_flags tr) then
    match vget (data_chunk_recvd_flags tr) chunk_id with
    | Some true => (true, tr)
    | _ => (false, mk (vset (data_chunk_recvd_flags tr) chunk_id true)
                      (fec_chunks_recvd tr))
    end
  else if open_hash_set.find_fast (fec_chunks_recvd tr) chunk_id then (true, tr)
  else
    let '(set', inserted) := open_hash_set.insert (fec_chunks_recvd tr) chunk_id in
    (negb inserted, mk (data_chunk_recvd_flags tr) set').

(** [CheckPresent] (fec.h:60-63). *)
Definition CheckPresent (tr : t) (chunk_id : N) : bool :=
  if chunk_id <? vsize (data_chunk_recvd_flags tr) then
    match vget (data_chunk_recvd_flags tr) chunk_id with
    | Some b => b
    | None => false
    end
  else open_hash_set.find_fast (fec_chunks_recvd tr) chunk_id.

(** Marking a sequence of ids, one call each. *)
Definition mark_all (tr : t) (ids : list N) : t :=
  foldl (λ tr' chunk_id, snd (CheckPresentAndMarkRecvd tr' chunk_id)) tr ids.

(** The ids the claim about the tracker ranges over: the dense range below
    the flag vector's size, and the sparse range above it without the null
    element. *)
Definition valid_id (tr : t) (chunk_id : N) : Prop :=
  chunk_id < vsize (data_chunk_recvd_flags tr) ∨ ChunkIdIsNull chunk_id = false.

(** Modelled from the spec: [open_hash_set.h] is not among the source
    files.  The spec (4.1, 3) calls the structure a sparse set of chunk
    identifiers whose null element, [0], marks an empty slot and is no
    element of it.  For an element that is not null: [insert(e).second]
    tells whether [e] was absent, [e] is found afterwards, and no other
    element appears or disappears; the set a tracker starts with has no
    element. *)
Definition set_contract : Prop :=
  (∀ e : N, ChunkIdIsNull e = false →
     open_hash_set.find_fast open_hash_set.empty e = false) ∧
  ∀ (s : open_hash_set.t) (e : N), ChunkIdIsNull e = false →
    snd (open_hash_set.insert s e) = negb (open_hash_set.find_fast s e) ∧
    open_hash_set.find_fast (fst (open_hash_set.insert s e)) e = true ∧
    ∀ e', ChunkIdIsNull e' = false → e' ≠ e →
      open_hash_set.find_fast (fst (open_hash_set.insert s e)) e'
      = open_hash_set.find_fast s e'.

(** The answers of a sequence of [CheckPresentAndMarkRecvd] calls, one per
    id. *)
Fixpoint mark_answers (tr : t) (ids : list N) : list bool :=
  match ids with
  | [] => []
  | chunk_id :: ids' =>
    (CheckPresentAndMarkRecvd tr chunk_id).1
    :: mark_answers (CheckPresentAndMarkRecvd tr chunk_id).2 ids'
  end.

End WithSet.
Arguments t {ohs}.
End BlockChunkRecvdTracker.

(** ** [class FECEncoder] (fec.cpp:79-119) *)
Module FECEncoder.
Section WithCodec.
Context {codec : wh256}.

(** [data] and [fec_chunks] are pointers to vectors of the caller; the
    record holds what they point to, so [fec_chunks] is the caller's output
    buffer as the session has left it. *)
Record t := mk {
  data : list Byte.byte;
  fec_chunks : list Byte.byte;
  state : wh256_state;
}.

(** [FECEncoder::FECEncoder(dataIn, prng_seed, fec_chunksIn)]
    (fec.cpp:79-90). *)
Definition FECEncoder (dataIn : list Byte.byte) (prng_seed : Z) (fec_chunksIn : list Byte.byte)
  : option t :=
  if negb (vsize fec_chunksIn mod FEC_CHUNK_SIZE =? 0) then None
  else if vsize fec_chunksIn =? 0 then None
  else if vsize dataIn =? 0 then None
  else if DIV_CEIL (vsize dataIn) FEC_CHUNK_SIZE <? 2 then
    Some (mk dataIn fec_chunksIn wh256_NULL)
  else
    let st := wh256_encoder_init wh256_NULL dataIn (vsize dataIn) FEC_CHUNK_SIZE in
    if wh256_is_null st then None else Some (mk dataIn fec_chunksIn st).

(** [size_t chunk_id = fec_chunk_id + DIV_CEIL(data->size(), FEC_CHUNK_SIZE)]
    (fec.cpp:106). *)
Definition chunk_id_of (e : t) (fec_chunk_id : N) : N :=
  size_add fec_chunk_id (DIV_CEIL (vsize (data e)) FEC_CHUNK_SIZE).

(** The part of [BuildChunk] after the call of the primitive
    (fec.cpp:108-114): [written] is what [wh256_encoder_write] returned, its
    bytes land at the slot's offset before the result is tested, and a short
    payload is zero-padded. *)
Definition store_chunk (e : t) (off : N) (written : wh256_state * list Byte.byte * Z)
  : option (bool * t) :=
  let '(st, block, r) := written in
  let chunk_bytes := vsize block in
  buf1 ← memcpy_at (fec_chunks e) off block chunk_bytes;
  if negb (r =? 0)%Z then Some (false, mk (data e) buf1 st)
  else if chunk_bytes =? FEC_CHUNK_SIZE then Some (true, mk (data e) buf1 st)
  else
    buf2 ← memset_at buf1 (size_add off chunk_bytes) Byte.x00
             (size_sub FEC_CHUNK_SIZE chunk_bytes);
    Some (true, mk (data e) buf2 st).

(** [FECEncoder::BuildChunk(fec_chunk_id)] (fec.cpp:97-115).  Line 101 takes
    the address of the first byte of [data], which needs an object of at
    least one byte. *)
Definition BuildChunk (e : t) (fec_chunk_id : N) : option (bool * t) :=
  if negb (fec_chunk_id <? vsize (fec_chunks e) / FEC_CHUNK_SIZE) then None
  else
    let off := size_mul fec_chunk_id FEC_CHUNK_SIZE in
    if DIV_CEIL (vsize (data e)) FEC_CHUNK_SIZE <? 2 then
      match data e with
      | [] => None
      | _ :: _ =>
        buf1 ← memcpy_at (fec_chunks e) off (data e) (vsize (data e));
        buf2 ← memset_at buf1 (size_add off (vsize (data e))) Byte.x00
                 (size_sub FEC_CHUNK_SIZE (vsize (data e)));
        Some (true, mk (data e) buf2 (state e))
      end
    else
      store_chunk e off (wh256_encoder_write (state e) (chunk_id_of e fec_chunk_id)).

(** The identifier [BuildChunk] hands to the primitive for a slot: none
    below two chunks, where the slot receives the object itself. *)
Definition assigned_id (e : t) (fec_chunk_id : N) : option N :=
  if negb (fec_chunk_id <? vsize (fec_chunks e) / FEC_CHUNK_SIZE) then None
  else if DIV_CEIL (vsize (data e)) FEC_CHUNK_SIZE <? 2 then None
  else Some (chunk_id_of e fec_chunk_id).

(** [FECEncoder::PrefillChunks] (fec.cpp:117-119). *)
Definition PrefillChunks (e : t) : option (bool * t) :=
  BuildChunk e (size_sub (vsize (fec_chunks e) / FEC_CHUNK_SIZE) 1).

(** The loop of [BuildFECChunks] (fec.cpp:123-126), from index [i].  [fuel]
    bounds the number of iterations; the number of slots suffices
    ([BuildFECChunks_loop_spec]). *)
Fixpoint BuildFECChunks_loop (fuel : nat) (enc : t) (i : N) : option (bool * t) :=
  if i <? vsize (fec_chunks enc) / FEC_CHUNK_SIZE then
    match fuel with
    | O => None
    | S fuel' =>
      match BuildChunk enc i with
      | None => None
      | Some (false, enc') => Some (false, enc')
      | Some (true, enc') => BuildFECChunks_loop fuel' enc' (size_add i 1)
      end
    end
  else Some (true, enc).

(** The session after slots [0 .. k-1] have been built with success, each
    on the state its predecessor left. *)
Fixpoint built_upto (enc : t) (k : nat) : option t :=
  match k with
  | O => Some enc
  | S k' =>
    match built_upto enc k' with
    | None => None
    | Some e =>
      match BuildChunk e (N.of_nat k') with
      | Some (true, e') => Some e'
      | _ => None
      end
    end
  end.

(** The object and the output buffer are vectors: their sizes are within
    [max_size()]. *)
Definition wf (e : t) : Prop := vector_ok (data e) ∧ vector_ok (fec_chunks e).

(** The number of output slots, [fec_chunks->size() / FEC_CHUNK_SIZE]. *)
Definition slots (e : t) : N := vsize (fec_chunks e) / FEC_CHUNK_SIZE.

(** Modelled from the spec: the coding primitive is not among the source
    files.  The spec (4.3) has the synthesized payload at most [CHUNK_SIZE]
    long, the remainder being zero-padded when it is shorter: a write of the
    primitive stays within the slot it is given. *)
Definition encoder_in_bounds : Prop :=
  ∀ (st : wh256_state) (chunk_id : N),
    vsize (wh256_encoder_write st chunk_id).1.2 ≤ FEC_CHUNK_SIZE.

(** [FECEncoder::~FECEncoder] (fec.cpp:92-95): the handle it passes to
    [wh256_free], if it calls it. *)
Definition destructor (e : t) : option wh256_state :=
  if wh256_is_null (state e) then None else Some (state e).

(** The writes of the primitive for slots [0 .. k-1] of an object of [count]
    data chunks, each on the handle the one before left: the handle after
    them and the blocks written, or [None] when one of them fails. *)
Fixpoint writes_upto (st : wh256_state) (count : N) (k : nat)
  : option (wh256_state * list (list Byte.byte)) :=
  match k with
  | O => Some (st, [])
  | S k' =>
    match writes_upto st count k' with
    | None => None
    | Some (st1, blocks) =>
      let '(st2, block, r) := wh256_encoder_write st1 (N.of_nat k' + count) in
      if (r =? 0)%Z then Some (st2, blocks ++ [block]) else None
    end
  end.

(** The session after the calls [BuildChunk(i)] for the slots of [built], in
    this order, each of which returned [true]; a slot may occur more than
    once. *)
Fixpoint build_slots (e : t) (built : list N) : option t :=
  match built with
  | [] => Some e
  | i :: rest =>
    match BuildChunk e i with
    | Some (true, e') => build_slots e' rest
    | _ => None
    end
  end.

(** On the handle [st'] every write returns the block and the result it
    returns on [st]. *)
Definition same_writes (st st' : wh256_state) : Prop :=
  ∀ chunk_id : N,
    (wh256_encoder_write st' chunk_id).1.2 = (wh256_encoder_write st chunk_id).1.2 ∧
    (wh256_encoder_write st' chunk_id).2 = (wh256_encoder_write st chunk_id).2.

(** Modelled from the spec: the coding primitive is not among the source
    files.  The spec (4.3) has the payload synthesized by the primitive "for
    that identifier": what a write returns for an identifier does not depend
    on the writes made on the handle before. *)
Definition write_repeatable : Prop :=
  ∀ (st : wh256_state) (chunk_id : N),
    same_writes st (wh256_encoder_write st chunk_id).1.1.

End WithCodec.
Arguments t {codec}.
End FECEncoder.

(** [BuildFECChunks(data, prng_seed, fec_chunks)] (fec.cpp:121-127): the
    returned flag and the caller's buffer afterwards. *)
Definition BuildFECChunks {codec : wh256} (data : list Byte.byte) (prng_seed : Z)
    (fec_chunks : list Byte.byte) : option (bool * list Byte.byte) :=
  match FECEncoder.FECEncoder data prng_seed fec_chunks with
  | None => None
  | Some enc =>
    match FECEncoder.BuildFECChunks_loop
            (N.to_nat (vsize fec_chunks / FEC_CHUNK_SIZE)) enc 0 with
    | None => None
    | Some (b, enc') => Some (b, FECEncoder.fec_chunks enc')
    end
  end.

(** ** Executable instances of the two interfaces

    They let the model run on concrete inputs. *)

(** Modelled from the spec: [open_hash_set.h] is not among the source files.
    The spec (4.1, 3) describes the structure as a sparse set of identifiers in
    which the value [0] marks an empty slot and therefore is never a stored
    element.  This instance is that set: [find_fast] is membership,
    [insert(e).second] tells whether [e] was newly added, and the null element
    is never stored. *)
Module RefSet.
Definition find_fast (s : gset N) (e : N) : bool := bool_decide (e ∈ s).
Definition insert (s : gset N) (e : N) : gset N * bool :=
  if e =? 0 then (s, false) else ({[e]} ∪ s, bool_decide (e ∉ s)).
Definition ohs : open_hash_set.ops :=
  {| open_hash_set.t := gset N;
     open_hash_set.empty := ∅;
     open_hash_set.find_fast := find_fast;
     open_hash_set.insert := insert |}.
End RefSet.

(** Modelled from the spec: the coding primitive is not among the source
    files.  The spec (6) gives its operations: [decode_init(size)],
    [decode_add(handle, payload, id)] answering ok or insufficient,
    [decode_reconstruct(handle, index)], [encode(data)] and
    [encode_write(handle, id)]; and for the bounded coder (4.2) that
    reconstruction becomes possible exactly when as many distinct chunks as
    the object has data chunks are present.  This instance works on blocks of
    [FEC_CHUNK_SIZE] bytes, the only size the sessions ask for.  Its decoder
    keeps the blocks it is given and answers ok from that count on; its
    encoder repeats the data blocks, block [id mod blocks] for identifier
    [id], and fails on a null handle.  The arithmetic of a real erasure code
    is outside the model. *)
Module RefCodec.
Record st := mk {
  null : bool;
  blocks : N;
  source : list Byte.byte;
  got : list (N * FECChunkType);
}.

Definition ceil_div (a b : N) : N := (a + b - 1) / b.

Definition NULL : st := mk true 0 [] [].

Definition decoder_init (_ : st) (size bytes : N) : st :=
  mk ((size =? 0) || negb (bytes =? FEC_CHUNK_SIZE)) (ceil_div size bytes) [] [].

Definition seen (s : st) : list N := remove_dups (got s).*1.

Definition decoder_read (s : st) (id : N) (chunk : FECChunkType) : st * Z :=
  let s' := mk (null s) (blocks s) (source s) ((id, chunk) :: got s) in
  (s', if blocks s <=? N.of_nat (length (seen s')) then 0%Z else 1%Z).

Definition decoder_reconstruct_block (s : st) (id : N) (tmp : FECChunkType)
  : st * FECChunkType * Z :=
  match list_find (λ p, p.1 = id) (got s) with
  | Some (_, (_, chunk)) => (s, chunk, 0%Z)
  | None => (s, tmp, 1%Z)
  end.

Definition encoder_init (_ : st) (data : list Byte.byte) (size bytes : N) : st :=
  mk ((size =? 0) || negb (bytes =? FEC_CHUNK_SIZE)) (ceil_div size bytes) data [].

Definition encoder_write (s : st) (id : N) : st * list Byte.byte * Z :=
  if null s then (s, [], 1%Z)
  else
    (s, take (N.to_nat FEC_CHUNK_SIZE)
          (drop (N.to_nat ((id mod blocks s) * FEC_CHUNK_SIZE)) (source s)), 0%Z).

(** The chunk ids a decoder handle has absorbed, as a set. *)
Definition seen_set (s : st) : gset N := list_to_set (got s).*1.

Definition codec : wh256 :=
  {| wh256_state := st;
     wh256_NULL := NULL;
     wh256_is_null := null;
     wh256_decoder_init := decoder_init;
     wh256_decoder_read := decoder_read;
     wh256_decoder_reconstruct_block := decoder_reconstruct_block;
     wh256_encoder_init := encoder_init;
     wh256_encoder_write := encoder_write |}.
End RefCodec.

(** ** Sample inputs

    Concrete sessions over the executable instances, for running the model. *)
Module Samples.
Definition chunkA : FECChunkType := replicate (N.to_nat FEC_CHUNK_SIZE) Byte.x41.
Definition chunkB : FECChunkType := replicate (N.to_nat FEC_CHUNK_SIZE) Byte.x42.

(** [FECDecoder(100, 3, 0)]: a one-chunk object, three chunk ids. *)
Definition d_single : @FECDecoder.t RefCodec.codec :=
  @FECDecoder.mk RefCodec.codec [] 1 0 3 false [false; false; false] RefCodec.NULL.

(** [FECDecoder(0, 1, 0)]: an object of no bytes. *)
Definition d_empty : @FECDecoder.t RefCodec.codec :=
  @FECDecoder.mk RefCodec.codec [] 0 0 1 false [false] RefCodec.NULL.

(** [FECDecoder(2304, 5, 0)]: a two-chunk object, five chunk ids. *)
Definition d_pair : @FECDecoder.t RefCodec.codec :=
  @FECDecoder.mk RefCodec.codec [] 2 0 5 false [false; false; false; false; false]
    (RefCodec.mk false 2 [] []).

(** [d_pair] after chunks 4 and 1 have arrived: complete. *)
Definition d_pair_done : @FECDecoder.t RefCodec.codec :=
  @FECDecoder.mk RefCodec.codec [] 2 2 5 true [false; true; false; false; true]
    (RefCodec.mk false 2 [] [(1, chunkB); (4, chunkA)]).

(** A tracker for three data chunks, nothing recorded. *)
Definition tracker3 : @BlockChunkRecvdTracker.t RefSet.ohs :=
  BlockChunkRecvdTracker.BlockChunkRecvdTracker (ohs := RefSet.ohs) 3.

(** One-byte objects and an output buffer of one slot. *)
Definition dataA : list Byte.byte := [Byte.x01].
Definition dataB : list Byte.byte := [Byte.x02].
Definition out1 : list Byte.byte := replicate 1152 Byte.x00.

(** A session for [dataA] over two output slots. *)
Definition e_single : @FECEncoder.t RefCodec.codec :=
  @FECEncoder.mk RefCodec.codec dataA (replicate 2304 Byte.x00) RefCodec.NULL.

(** An object of 1153 bytes, two chunks, and a session for it over three
    output slots. *)
Definition data2 : list Byte.byte := replicate 1153 Byte.x07.
Definition out3 : list Byte.byte := replicate 3456 Byte.x00.
Definition e_pair : @FECEncoder.t RefCodec.codec :=
  @FECEncoder.mk RefCodec.codec data2 out3 (RefCodec.mk false 2 data2 []).

(** A two-chunk session whose handle is null: every write of the primitive
    fails. *)
Definition e_null : @FECEncoder.t RefCodec.codec :=
  @FECEncoder.mk RefCodec.codec data2 out3 RefCodec.NULL.
End Samples.

(** * Properties *)

(** ** Machine arithmetic *)

Lemma SIZE_MOD_eq : SIZE_MOD = 18446744073709551616.
Proof. reflexivity. Qed.

Lemma size_add_small a b : a + b < SIZE_MOD → size_add a b = a + b.
Proof. intros H. unfold size_add. by apply N.mod_small. Qed.

Lemma size_mul_small a b : a * b < SIZE_MOD → size_mul a b = a * b.
Proof. intros H. unfold size_mul. by apply N.mod_small. Qed.

Lemma size_sub_small a b : b ≤ a → a < SIZE_MOD → size_sub a b = a - b.
Proof.
  intros Hle Hlt. unfold size_sub.
  rewrite (N.mod_small b) by lia.
  replace (a + SIZE_MOD - b) with ((a - b) + 1 * SIZE_MOD) by lia.
  rewrite N.Div0.mod_add. apply N.mod_small. lia.
Qed.

Lemma vsize_length {A} (v : list A) : N.to_nat (vsize v) = length v.
Proof. unfold vsize. lia. Qed.

(** Vector reads after a write. *)
Lemma vget_vset_eq {A} (v : list A) (i : N) (x y : A) :
  vget v i = Some y → vget (vset v i x) i = Some x.
Proof.
  unfold vget, vset. intros H.
  apply list_lookup_insert_eq. by eapply lookup_lt_Some.
Qed.

Lemma vget_vset_ne {A} (v : list A) (i j : N) (x : A) :
  i ≠ j → vget (vset v i x) j = vget v j.
Proof.
  unfold vget, vset. intros H. apply list_lookup_insert_ne. lia.
Qed.

Lemma vsize_vset {A} (v : list A) (i : N) (x : A) : vsize (vset v i x) = vsize v.
Proof. unfold vsize, vset. by rewrite length_insert. Qed.

Lemma vget_is_Some {A} (v : list A) (i : N) : i < vsize v → is_Some (vget v i).
Proof. unfold vget, vsize. intros H. apply lookup_lt_is_Some. lia. Qed.

(** Below the wrap-around [DIV_CEIL] is the ceiling of the quotient. *)
Lemma DIV_CEIL_small a : a + FEC_CHUNK_SIZE ≤ SIZE_MOD →
  DIV_CEIL a FEC_CHUNK_SIZE = (a + 1151) / 1152.
Proof.
  unfold DIV_CEIL, FEC_CHUNK_SIZE. intros H.
  destruct (decide (a + 1152 = SIZE_MOD)) as [Heq|Hne].
  - unfold size_add. rewrite Heq, N.Div0.mod_same. 
    replace a with (SIZE_MOD - 1152) by lia. reflexivity.
  - rewrite size_add_small by lia. rewrite size_sub_small by lia.
    f_equal. lia.
Qed.

(** ** The decode session *)
Section DecoderFacts.
Context {codec : wh256}.
Import FECDecoder.

Implicit Types (d : FECDecoder.t) (chunk : FECChunkType) (chunk_id : N).

Lemma ProvideChunk_cases d chunk chunk_id res :
  ProvideChunk d chunk chunk_id = Some res →
  chunk_id < chunks_sent d ∧ ProvideChunk_path d chunk chunk_id (Some res).
Proof.
  unfold ProvideChunk. intros H.
  destruct (N.ltb_spec chunk_id (chunks_sent d)) as [Hlt|Hge]; simpl in H; [|done].
  split; [done|].
  destruct (decodeComplete d) eqn:Hc.
  { injection H as <-. by constructor. }
  destruct (vget (chunk_recvd_flags d) chunk_id) as [[|]|] eqn:Hf; [| |done].
  { injection H as <-. by apply path_seen. }
  destruct (N.ltb_spec (chunk_count d) 2) as [Hn|Hn].
  { injection H as <-. by apply path_single. }
  destruct (wh256_decoder_read (state d) chunk_id chunk) as [st r] eqn:Hr.
  injection H as <-.
  replace (if (r =? 0)%Z then true else false) with (bool_decide (r = 0%Z)).
  - by eapply path_codec.
  - destruct (Z.eqb_spec r 0);
      [by rewrite bool_decide_eq_true_2 | by rewrite bool_decide_eq_false_2].
Qed.

(** On a well-formed session a call with an id within range returns. *)
Lemma ProvideChunk_returns d chunk chunk_id :
  wf d → chunk_id < chunks_sent d →
  ∃ d', ProvideChunk d chunk chunk_id = Some (true, d').
Proof.
  intros Hwf Hlt. unfold ProvideChunk.
  destruct (N.ltb_spec chunk_id (chunks_sent d)); [|lia]. simpl.
  destruct (decodeComplete d); [by eexists|].
  destruct (vget_is_Some (chunk_recvd_flags d) chunk_id) as [[|] ->].
  { by rewrite Hwf. }
  { by eexists. }
  destruct (_ <? 2); [by eexists|].
  destruct (wh256_decoder_read _ _ _). by eexists.
Qed.

Lemma ProvideChunk_wf d chunk chunk_id r d' :
  ProvideChunk d chunk chunk_id = Some (r, d') → wf d → wf d'.
Proof.
  intros H Hwf. apply ProvideChunk_cases in H as [_ H].
  inversion H; subst; try done; unfold wf in *; simpl; by rewrite vsize_vset.
Qed.

Lemma exec_wf d c d' : exec d c = Some d' → wf d → wf d'.
Proof.
  destruct c as [chunk chunk_id|chunk_id| |chunk_id]; simpl.
  - destruct (ProvideChunk d chunk chunk_id) as [[r d1]|] eqn:H; [|done].
    simpl. intros [= <-]. by eapply ProvideChunk_wf.
  - destruct (HasChunk d chunk_id); [|done]. simpl. by intros [= <-].
  - by intros [= <-].
  - unfold GetDataPtr.
    destruct (negb (DecodeReady d)); [done|].
    destruct (negb (chunk_id <? chunk_count d)); [done|].
    destruct (2 <=? chunk_count d).
    + destruct (wh256_decoder_reconstruct_block _ _ _) as [[st tmp] r].
      destruct (r =? 0)%Z; [|done]. simpl. by intros [= <-].
    + simpl. by intros [= <-].
Qed.

Lemma run_wf cs : ∀ d d', run d cs = Some d' → wf d → wf d'.
Proof.
  induction cs as [|c cs IH]; intros d d'; simpl.
  - by intros [= <-].
  - destruct (exec d c) as [d1|] eqn:Hc; [|done]. intros Hrun Hwf.
    eapply IH; [done|]. by eapply exec_wf.
Qed.

Lemma FECDecoder_wf tmp0 data_size chunks_provided prng_seed d :
  FECDecoder tmp0 data_size chunks_provided prng_seed = Some d → wf d.
Proof.
  unfold FECDecoder, wf. intros H.
  assert (Hlen : vsize (replicate (N.to_nat chunks_provided) false) = chunks_provided).
  { unfold vsize. rewrite length_replicate. lia. }
  destruct (_ <? 2); [by injection H as <-|].
  destruct (wh256_is_null _); [done|]. by injection H as <-.
Qed.

Lemma ProvideChunk_complete d chunk chunk_id :
  decodeComplete d = true → chunk_id < chunks_sent d →
  ProvideChunk d chunk chunk_id = Some (true, d).
Proof.
  intros Hc Hlt. unfold ProvideChunk.
  destruct (N.ltb_spec chunk_id (chunks_sent d)); [|lia]. simpl. by rewrite Hc.
Qed.

Lemma ProvideChunk_recorded d chunk chunk_id :
  vget (chunk_recvd_flags d) chunk_id = Some true → chunk_id < chunks_sent d →
  ProvideChunk d chunk chunk_id = Some (true, d).
Proof.
  intros Hf Hlt. unfold ProvideChunk.
  destruct (N.ltb_spec chunk_id (chunks_sent d)); [|lia]. simpl.
  rewrite Hf. by destruct (decodeComplete d).
Qed.

(** After a call that returned, the id is recorded or the session complete. *)
Lemma ProvideChunk_marks d chunk chunk_id r d' :
  ProvideChunk d chunk chunk_id = Some (r, d') →
  chunks_sent d' = chunks_sent d ∧
  (decodeComplete d' = true ∨ vget (chunk_recvd_flags d') chunk_id = Some true).
Proof.
  intros H. apply ProvideChunk_cases in H as [_ H].
  inversion H; subst; simpl; split; auto; right; by eapply vget_vset_eq.
Qed.

(** With two chunks or more the session has no threshold of its own: a call
    on an open session completes it exactly when the id is new and the
    primitive answers [0]. *)
Lemma ProvideChunk_ready_iff d chunk chunk_id r d' :
  ProvideChunk d chunk chunk_id = Some (r, d') →
  decodeComplete d = false → 2 ≤ chunk_count d →
  (decodeComplete d' = true ↔
     vget (chunk_recvd_flags d) chunk_id = Some false ∧
     (wh256_decoder_read (state d) chunk_id chunk).2 = 0%Z).
Proof.
  intros H Hopen Hk. destruct (ProvideChunk_cases _ _ _ _ H) as [_ Hp].
  inversion Hp as [Hc Heq|Hc Hf Heq|Hc Hf Hn Heq|st r0 Hc Hf Hn Hr Heq]; subst.
  - congruence.
  - split; [congruence|]. intros [Hf' _]. congruence.
  - lia.
  - simpl. rewrite Hr. simpl. rewrite bool_decide_eq_true. by intuition.
Qed.

(** Fields no call changes, and those that only move one way. *)
Lemma exec_preserves d c d' :
  exec d c = Some d' →
  chunks_sent d' = chunks_sent d ∧ chunk_count d' = chunk_count d ∧
  (decodeComplete d = true → decodeComplete d' = true ∧
     chunks_recvd d' = chunks_recvd d ∧ chunk_recvd_flags d' = chunk_recvd_flags d) ∧
  (∀ i, vget (chunk_recvd_flags d) i = Some true →
        vget (chunk_recvd_flags d') i = Some true).
Proof.
  destruct c as [chunk chunk_id|chunk_id| |chunk_id]; simpl.
  - destruct (ProvideChunk d chunk chunk_id) as [[r d1]|] eqn:H; [|done].
    simpl. intros [= ->]. apply ProvideChunk_cases in H as [_ H].
    inversion H; subst; simpl; repeat split; auto; try congruence.
    all: intros i Hi; destruct (decide (chunk_id = i)) as [->|Hne];
      [by eapply vget_vset_eq | by rewrite vget_vset_ne].
  - destruct (HasChunk d chunk_id); [|done]. simpl. by intros [= ->].
  - by intros [= ->].
  - unfold GetDataPtr.
    destruct (negb (DecodeReady d)); [done|].
    destruct (negb (chunk_id <? chunk_count d)); [done|].
    destruct (2 <=? chunk_count d).
    + destruct (wh256_decoder_reconstruct_block _ _ _) as [[st tmp] r].
      destruct (r =? 0)%Z; [|done]. simpl. by intros [= <-].
    + simpl. by intros [= ->].
Qed.

Lemma run_preserves d cs d' :
  run d cs = Some d' →
  chunks_sent d' = chunks_sent d ∧ chunk_count d' = chunk_count d ∧
  (decodeComplete d = true → decodeComplete d' = true ∧
     chunks_recvd d' = chunks_recvd d ∧ chunk_recvd_flags d' = chunk_recvd_flags d) ∧
  (∀ i, vget (chunk_recvd_flags d) i = Some true →
        vget (chunk_recvd_flags d') i = Some true).
Proof.
  revert d. induction cs as [|c cs IH]; intros d; simpl.
  - by intros [= ->].
  - destruct (exec d c) as [d1|] eqn:Hc; [|done]. intros Hrun.
    apply exec_preserves in Hc as (Hs & Hn & Hdone & Hflags).
    apply IH in Hrun as (Hs' & Hn' & Hdone' & Hflags').
    split; [congruence|]. split; [congruence|]. split; [|auto].
    intros Hd. destruct (Hdone Hd) as (Hd1 & ? & ?).
    destruct (Hdone' Hd1) as (? & ? & ?). repeat split; congruence.
Qed.

End DecoderFacts.

(** ** Claims about the decode session *)
Section DecoderClaims.
Context {codec : wh256}.
Import FECDecoder.

Implicit Types (d : FECDecoder.t) (chunk : FECChunkType) (chunk_id : N).

(** C9. For every chunk id within range, [ProvideChunk] returns [true]:
    whether the id is new or was seen, whether the session is complete, and
    whatever the primitive answers, the call returns and its result is
    [true]. *)
Theorem ProvideChunk_always_true d chunk chunk_id :
  wf d → chunk_id < chunks_sent d →
  ∃ d', ProvideChunk d chunk chunk_id = Some (true, d').
Proof. apply ProvideChunk_returns. Qed.

(** C10. Once [DecodeReady] holds it holds after every further call, the
    received counter and the recorded flags no longer change, and
    [ProvideChunk] with any id within range, seen or not, returns [true] and
    leaves the whole session as it was. *)
Theorem completion_is_frozen d :
  DecodeReady d = true →
  (∀ chunk chunk_id, chunk_id < chunks_sent d →
     ProvideChunk d chunk chunk_id = Some (true, d)) ∧
  (∀ cs d', run d cs = Some d' →
     DecodeReady d' = true ∧ GetChunksRcvd d' = GetChunksRcvd d ∧
     chunk_recvd_flags d' = chunk_recvd_flags d).
Proof.
  unfold DecodeReady, GetChunksRcvd. intros Hd. split.
  - intros chunk chunk_id Hlt. by apply ProvideChunk_complete.
  - intros cs d' Hrun. apply run_preserves in Hrun as (_ & _ & H & _). by apply H.
Qed.

(** C1. When [ProvideChunk] has returned for an id, a second call with the
    same id returns [true] and leaves the session unchanged: the same
    [GetChunksRcvd], the same [DecodeReady], and the same result of
    [GetDataPtr] for every index. *)
Theorem ProvideChunk_idempotent d chunk chunk_id r d1 :
  ProvideChunk d chunk chunk_id = Some (r, d1) →
  ∀ chunk', ∃ d2,
    ProvideChunk d1 chunk' chunk_id = Some (true, d2) ∧ d2 = d1 ∧
    GetChunksRcvd d2 = GetChunksRcvd d1 ∧ DecodeReady d2 = DecodeReady d1 ∧
    ∀ i, GetDataPtr d2 i = GetDataPtr d1 i.
Proof.
  intros H chunk'. exists d1.
  assert (Hlt : chunk_id < chunks_sent d) by by apply ProvideChunk_cases in H as [? _].
  apply ProvideChunk_marks in H as [Hs [Hc|Hf]]; repeat split; auto.
  - apply ProvideChunk_complete; [done|]. by rewrite Hs.
  - apply ProvideChunk_recorded; [done|]. by rewrite Hs.
Qed.

(** C6. For an id within range, [HasChunk] is [true] exactly when the
    session is complete or the flag of the id is set; it is [true] right
    after [ProvideChunk] returned for the id, stays [true] through every
    further call, and is [true] for every id once [DecodeReady] holds. *)
Theorem HasChunk_semantics d chunk_id :
  chunk_id < chunks_sent d →
  (HasChunk d chunk_id = Some true ↔
     DecodeReady d = true ∨ vget (chunk_recvd_flags d) chunk_id = Some true) ∧
  (∀ chunk r d', ProvideChunk d chunk chunk_id = Some (r, d') →
     r = true ∧ HasChunk d' chunk_id = Some true) ∧
  (HasChunk d chunk_id = Some true →
     ∀ cs d', run d cs = Some d' → HasChunk d' chunk_id = Some true) ∧
  (DecodeReady d = true → HasChunk d chunk_id = Some true).
Proof.
  intros Hlt.
  assert (Hiff : ∀ d0, chunk_id < chunks_sent d0 →
    (HasChunk d0 chunk_id = Some true ↔
       decodeComplete d0 = true ∨ vget (chunk_recvd_flags d0) chunk_id = Some true)).
  { intros d0 Hlt0. unfold HasChunk.
    destruct (N.ltb_spec chunk_id (chunks_sent d0)) as [_|?]; [|lia]. simpl.
    destruct (decodeComplete d0); intuition congruence. }
  unfold DecodeReady. repeat split.
  - by apply Hiff.
  - by apply Hiff.
  - destruct (ProvideChunk_cases _ _ _ _ H) as [_ Hp]. inversion Hp; congruence.
  - apply ProvideChunk_marks in H as [Hs Hm]. apply Hiff; [by rewrite Hs|done].
  - intros Hhas cs d' Hrun.
    apply run_preserves in Hrun as (Hs & _ & Hdone & Hflags).
    apply Hiff; [by rewrite Hs|]. apply Hiff in Hhas as [Hc|Hf]; [|by auto|done].
    left. by apply Hdone.
  - intros Hc. apply Hiff; auto.
Qed.

End DecoderClaims.

Lemma ProvideChunk_always_true_witness :
  FECDecoder.wf Samples.d_pair ∧ 3 < FECDecoder.chunks_sent Samples.d_pair ∧
  ∃ d', FECDecoder.ProvideChunk Samples.d_pair Samples.chunkA 3 = Some (true, d').
Proof.
  split; [reflexivity|]. split; [reflexivity|].
  apply (ProvideChunk_always_true Samples.d_pair Samples.chunkA 3); reflexivity.
Defined.

Lemma completion_is_frozen_witness :
  FECDecoder.DecodeReady Samples.d_pair_done = true ∧
  FECDecoder.ProvideChunk Samples.d_pair_done Samples.chunkA 0
    = Some (true, Samples.d_pair_done).
Proof.
  split; [reflexivity|].
  apply (completion_is_frozen Samples.d_pair_done); reflexivity.
Defined.

Lemma ProvideChunk_idempotent_witness :
  ∃ d1, FECDecoder.ProvideChunk Samples.d_pair Samples.chunkA 4 = Some (true, d1) ∧
        FECDecoder.ProvideChunk d1 Samples.chunkB 4 = Some (true, d1).
Proof.
  eexists. split; [reflexivity|].
  destruct (ProvideChunk_idempotent Samples.d_pair Samples.chunkA 4 _ _ eq_refl
              Samples.chunkB) as (d2 & H2 & Heq & _).
  rewrite H2. by rewrite Heq.
Defined.

Lemma HasChunk_semantics_witness :
  1 < FECDecoder.chunks_sent Samples.d_pair ∧
  ∃ d', FECDecoder.ProvideChunk Samples.d_pair Samples.chunkB 1 = Some (true, d') ∧
        FECDecoder.HasChunk d' 1 = Some true.
Proof.
  split; [reflexivity|]. eexists. split; [reflexivity|].
  destruct (HasChunk_semantics Samples.d_pair 1 eq_refl) as (_ & H & _).
  exact (proj2 (H Samples.chunkB _ _ eq_refl)).
Defined.

(** ** Single-chunk objects *)
Section SingleChunk.
Context {codec : wh256}.
Import FECDecoder.

(** C3, as the code has it. On a session just constructed for an object of
    fewer than two chunks, one [ProvideChunk] with any id within range
    returns [true], makes [DecodeReady] true and leaves the first
    [FEC_CHUNK_SIZE] bytes of the chunk in the scratch buffer.  For a
    one-chunk object [GetDataPtr(0)] then returns exactly those bytes; for
    an object of no chunks index [0] fails the range assertion of
    [GetDataPtr]. *)
Theorem single_chunk_completes tmp0 data_size chunks_provided prng_seed d0 chunk chunk_id :
  FECDecoder tmp0 data_size chunks_provided prng_seed = Some d0 →
  chunk_count d0 < 2 → chunk_id < chunks_sent d0 →
  ∃ d1, ProvideChunk d0 chunk chunk_id = Some (true, d1) ∧
        DecodeReady d1 = true ∧
        tmp_chunk d1 = take (N.to_nat FEC_CHUNK_SIZE) chunk ∧
        (chunk_count d0 = 1 →
           GetDataPtr d1 0 = Some (take (N.to_nat FEC_CHUNK_SIZE) chunk, d1)) ∧
        (chunk_count d0 = 0 → GetDataPtr d1 0 = None).
Proof.
  intros Hctor Hcount Hlt.
  assert (Hfresh : decodeComplete d0 = false ∧
                   chunk_recvd_flags d0 = replicate (N.to_nat (chunks_sent d0)) false).
  { unfold FECDecoder in Hctor. destruct (_ <? 2); [by injection Hctor as <-|].
    destruct (wh256_is_null _); [done|]. by injection Hctor as <-. }
  destruct Hfresh as [Hc Hflags].
  assert (Hget : vget (chunk_recvd_flags d0) chunk_id = Some false).
  { rewrite Hflags. unfold vget. apply lookup_replicate_2. lia. }
  unfold ProvideChunk. destruct (N.ltb_spec chunk_id (chunks_sent d0)); [|lia].
  simpl. rewrite Hc, Hget. destruct (N.ltb_spec (chunk_count d0) 2); [|lia].
  eexists. split; [done|]. unfold GetDataPtr, DecodeReady. simpl.
  repeat split.
  - intros ->. reflexivity.
  - intros ->. reflexivity.
Qed.

End SingleChunk.

Lemma single_chunk_completes_witness :
  ∃ d1, FECDecoder.ProvideChunk Samples.d_single Samples.chunkA 2 = Some (true, d1) ∧
        FECDecoder.GetDataPtr d1 0 = Some (Samples.chunkA, d1).
Proof.
  destruct (single_chunk_completes (codec := RefCodec.codec) [] 100 3 0
              Samples.d_single Samples.chunkA 2 eq_refl eq_refl eq_refl)
    as (d1 & H1 & _ & _ & H3 & _).
  exists d1. split; [exact H1|]. exact (H3 eq_refl).
Defined.

(** C3 does not hold as stated. [FECDecoder(0, 1, 0)] is a session for an
    object with fewer than two chunks: none.  One [ProvideChunk] with the
    valid id [0] completes it, and [GetDataPtr(0)] then fails
    [assert(chunk_id < chunk_count)] instead of returning the chunk. *)
Lemma single_chunk_empty_object_counterexample :
  FECDecoder.FECDecoder (codec := RefCodec.codec) [] 0 1 0 = Some Samples.d_empty ∧
  FECDecoder.chunk_count Samples.d_empty < 2 ∧
  0 < FECDecoder.chunks_sent Samples.d_empty ∧
  ∃ d1, FECDecoder.ProvideChunk Samples.d_empty Samples.chunkA 0 = Some (true, d1) ∧
        FECDecoder.DecodeReady d1 = true ∧
        FECDecoder.GetDataPtr d1 0 = None ∧
        ¬ ∃ r, FECDecoder.GetDataPtr d1 0 = Some (Samples.chunkA, r).
Proof.
  split; [reflexivity|]. split; [reflexivity|]. split; [reflexivity|].
  eexists. split; [reflexivity|]. split; [reflexivity|]. split; [reflexivity|].
  intros [r Hr]. discriminate Hr.
Qed.

(** ** Bounded mode *)
Section BoundedMode.
Context {codec : wh256}.
Import FECDecoder.

Variable seen : wh256_state → gset N.
Variable blocks : wh256_state → N.
Hypothesis coder : threshold_coder seen blocks.

Lemma size_add_elem (S : gset N) (i : N) : (size S ≤ size ({[i]} ∪ S))%nat.
Proof. apply subseteq_size. set_solver. Qed.

Lemma bounded_inv_step k d S chunk chunk_id :
  2 ≤ k ≤ CM256_MAX_CHUNKS →
  bounded_inv seen blocks k d S → chunk_id < chunks_sent d →
  ∃ d', ProvideChunk d chunk chunk_id = Some (true, d') ∧
        chunks_sent d' = chunks_sent d ∧ bounded_inv seen blocks k d' ({[chunk_id]} ∪ S).
Proof.
  intros Hk (Hwf & Hcount & Hopen & Hdone) Hlt.
  destruct (ProvideChunk_returns d chunk chunk_id Hwf Hlt) as [d' Hp].
  exists d'. split; [done|].
  pose proof (ProvideChunk_wf _ _ _ _ _ Hp Hwf) as Hwf'.
  destruct (ProvideChunk_cases _ _ _ _ Hp) as [_ Hpath].
  inversion Hpath as [Hc Heq|Hc Hf Heq|Hc Hf Hn Heq|st r Hc Hf Hn Hr Heq].
  - subst d'. split; [done|]. split; [done|]. split; [done|].
    split; [congruence|]. intros _. specialize (Hdone Hc).
    pose proof (size_add_elem S chunk_id). lia.
  - subst d'. destruct (Hopen Hc) as (Hflags & Hseen & Hblocks & Hsize).
    assert (Hin : chunk_id ∈ S) by by apply Hflags.
    replace ({[chunk_id]} ∪ S) with S by set_solver.
    split; [done|]. split; [done|]. split; [done|]. split; [done|]. congruence.
  - lia.
  - subst d'. destruct (Hopen Hc) as (Hflags & Hseen & Hblocks & Hsize).
    assert (Hnotin : chunk_id ∉ S).
    { intros Hin. apply Hflags in Hin. congruence. }
    destruct coder as [_ Hread].
    destruct (Hread (state d) chunk_id chunk st r) as (Hseen' & Hblocks' & Hr0);
      [lia|by rewrite Hseen|done|].
    rewrite Hseen in Hseen'. rewrite Hblocks in Hr0, Hblocks'.
    split; [done|]. split; [done|]. split; [done|]. simpl. split.
    + intros Hopen'. apply bool_decide_eq_false in Hopen'.
      split; [|split; [done|split; [done|]]].
      * intros i. destruct (decide (chunk_id = i)) as [->|Hne].
        -- rewrite (vget_vset_eq _ _ _ _ Hf). set_solver.
        -- rewrite vget_vset_ne by done. rewrite Hflags. set_solver.
      * rewrite Hseen' in Hr0.
        destruct (N.lt_ge_cases (N.of_nat (size ({[chunk_id]} ∪ S))) k) as [?|Hge];
          [done|]. by apply Hr0 in Hge.
    + intros Hdone'. apply bool_decide_eq_true in Hdone'.
      apply Hr0 in Hdone'. by rewrite Hseen' in Hdone'.
Qed.

Lemma bounded_inv_run k cs : ∀ d S,
  2 ≤ k ≤ CM256_MAX_CHUNKS →
  bounded_inv seen blocks k d S → Forall (λ c, c.2 < chunks_sent d) cs →
  ∃ d', ProvideChunks d cs = Some d' ∧ bounded_inv seen blocks k d' (list_to_set cs.*2 ∪ S).
Proof.
  induction cs as [|[chunk chunk_id] cs IH]; intros d S Hk Hinv Hall; simpl.
  - exists d. split; [done|]. by rewrite (left_id_L ∅ (∪)).
  - apply Forall_cons in Hall as [Hlt Hall]. simpl in Hlt.
    destruct (bounded_inv_step k d S chunk chunk_id Hk Hinv Hlt) as (d1 & Hp & Hs & Hinv1).
    rewrite Hp. rewrite <- Hs in Hall.
    destruct (IH d1 _ Hk Hinv1 Hall) as (d' & Hrun & Hinv').
    exists d'. split; [done|].
    eapply (eq_rect _ (bounded_inv seen blocks k d') Hinv'). set_solver.
Qed.

(** [DIV_CEIL] of a size whose sum with the chunk size wraps around is [0]. *)
Lemma DIV_CEIL_wrap a :
  a < SIZE_MOD → SIZE_MOD < a + FEC_CHUNK_SIZE → DIV_CEIL a FEC_CHUNK_SIZE = 0.
Proof.
  unfold DIV_CEIL, FEC_CHUNK_SIZE, size_add. intros Ha Hw.
  pose proof SIZE_MOD_eq as Hmod.
  replace (a + 1152) with ((a + 1152 - SIZE_MOD) + 1 * SIZE_MOD) by lia.
  rewrite N.Div0.mod_add, N.mod_small by lia.
  rewrite size_sub_small by lia. apply N.div_small. lia.
Qed.

Lemma bounded_inv_init tmp0 data_size chunks_provided prng_seed d0 :
  data_size < SIZE_MOD →
  FECDecoder tmp0 data_size chunks_provided prng_seed = Some d0 →
  2 ≤ chunk_count d0 →
  bounded_inv seen blocks (chunk_count d0) d0 ∅.
Proof.
  intros Hsz Hctor Hk. pose proof (FECDecoder_wf _ _ _ _ _ Hctor) as Hwf.
  unfold FECDecoder in Hctor.
  destruct (N.ltb_spec (DIV_CEIL data_size FEC_CHUNK_SIZE) 2) as [Hlt|Hge].
  { injection Hctor as <-. simpl in Hk. lia. }
  destruct (wh256_is_null _) eqn:Hnull; [done|]. injection Hctor as <-.
  split; [done|]. split; [done|]. simpl. split; [|done]. intros _.
  destruct coder as [Hinit _]. destruct (Hinit data_size Hnull) as [Hseen Hblocks].
  split; [|split; [done|split]].
  - intros i. unfold vget. split; [|set_solver].
    intros Hi. apply lookup_replicate in Hi as [? _]. done.
  - rewrite Hblocks. symmetry.
    destruct (N.le_gt_cases (data_size + FEC_CHUNK_SIZE) SIZE_MOD) as [Hs|Hs].
    + by apply DIV_CEIL_small.
    + rewrite DIV_CEIL_wrap in Hge by done. lia.
  - change (N.of_nat 0 < DIV_CEIL data_size FEC_CHUNK_SIZE). lia.
Qed.

(** C2. For an object of [2] to [CM256_MAX_CHUNKS] data chunks, whose
    primitive is the bounded threshold coder, and for any sequence of chunks
    with ids within range, in any order and with any repetitions, every
    [ProvideChunk] returns and afterwards [DecodeReady] is true exactly when
    the sequence holds at least [chunk_count] distinct ids.  Applied to each
    prefix of a delivery: readiness appears exactly upon the
    [chunk_count]-th distinct id and never before. *)
Theorem bounded_mode_exact tmp0 data_size chunks_provided prng_seed d0 cs :
  data_size < SIZE_MOD →
  FECDecoder tmp0 data_size chunks_provided prng_seed = Some d0 →
  2 ≤ chunk_count d0 ≤ CM256_MAX_CHUNKS →
  Forall (λ c, c.2 < chunks_sent d0) cs →
  ∃ d, ProvideChunks d0 cs = Some d ∧
       (DecodeReady d = true ↔
          chunk_count d0 ≤ N.of_nat (size (list_to_set cs.*2 : gset N))).
Proof.
  intros Hsz Hctor Hk Hall.
  pose proof (bounded_inv_init _ _ _ _ _ Hsz Hctor (proj1 Hk)) as Hinv.
  destruct (bounded_inv_run _ cs _ _ Hk Hinv Hall) as (d & Hrun & Hinv').
  exists d. split; [done|].
  replace (list_to_set cs.*2 ∪ ∅) with (list_to_set cs.*2 : gset N) in Hinv'
    by set_solver.
  destruct Hinv' as (_ & _ & Hopen & Hdone). unfold DecodeReady.
  destruct (decodeComplete d).
  - split; [auto|done].
  - destruct (Hopen eq_refl) as (_ & _ & _ & Hlt). split; [done|lia].
Qed.

End BoundedMode.

(** The executable codec is a threshold coder. *)
Lemma size_list_to_set_remove_dups (l : list N) :
  size (list_to_set l : gset N) = length (remove_dups l).
Proof.
  rewrite <- (size_list_to_set (C := gset N) (remove_dups l)) by apply NoDup_remove_dups.
  f_equal. apply set_eq. intros x.
  rewrite !elem_of_list_to_set. by rewrite elem_of_remove_dups.
Qed.

Lemma RefCodec_threshold :
  threshold_coder (codec := RefCodec.codec) RefCodec.seen_set RefCodec.blocks.
Proof.
  split.
  - intros data_size st _. split; [reflexivity|].
    simpl. unfold RefCodec.ceil_div, FEC_CHUNK_SIZE. f_equal. lia.
  - intros st chunk_id chunk st' r _ _ Hr.
    change (RefCodec.decoder_read st chunk_id chunk = (st', r)) in Hr.
    unfold RefCodec.decoder_read in Hr. injection Hr as <- <-.
    split; [reflexivity|]. split; [reflexivity|].
    unfold RefCodec.seen_set, RefCodec.seen. cbn [RefCodec.got RefCodec.blocks].
    rewrite size_list_to_set_remove_dups.
    set (n := N.of_nat (length (remove_dups _))).
    destruct (N.leb_spec (RefCodec.blocks st) n); split; try done; lia.
Qed.

Lemma bounded_mode_exact_witness :
  let cs := [(Samples.chunkA, 4); (Samples.chunkA, 4); (Samples.chunkB, 1)] in
  ∃ d, FECDecoder.ProvideChunks Samples.d_pair cs = Some d ∧
       (FECDecoder.DecodeReady d = true ↔
          FECDecoder.chunk_count Samples.d_pair
            ≤ N.of_nat (size (list_to_set cs.*2 : gset N))).
Proof.
  intros cs.
  apply (bounded_mode_exact (codec := RefCodec.codec)
           RefCodec.seen_set RefCodec.blocks RefCodec_threshold
           [] 2304 5 0 Samples.d_pair cs).
  - reflexivity.
  - reflexivity.
  - split; by compute.
  - repeat constructor.
Defined.

(** ** The chunk tracker *)
Section TrackerFacts.
Context {ohs : open_hash_set.ops}.
Import BlockChunkRecvdTracker.

Hypothesis set_ok : set_contract.

Implicit Types (tr : BlockChunkRecvdTracker.t) (chunk_id : N).

Lemma mark_size tr chunk_id :
  vsize (data_chunk_recvd_flags (CheckPresentAndMarkRecvd tr chunk_id).2)
  = vsize (data_chunk_recvd_flags tr).
Proof.
  unfold CheckPresentAndMarkRecvd.
  destruct (chunk_id <? _).
  - destruct (vget _ _) as [[|]|]; simpl; auto using vsize_vset.
  - destruct (open_hash_set.find_fast _ _); [done|].
    by destruct (open_hash_set.insert _ _).
Qed.

Lemma valid_id_mark tr i chunk_id :
  valid_id tr chunk_id → valid_id (CheckPresentAndMarkRecvd tr i).2 chunk_id.
Proof. unfold valid_id. by rewrite mark_size. Qed.

Lemma sparse_not_null tr chunk_id :
  valid_id tr chunk_id → vsize (data_chunk_recvd_flags tr) ≤ chunk_id →
  ChunkIdIsNull chunk_id = false.
Proof. intros [Hlt|Hnn] Hge; [lia|done]. Qed.

(** The call returns whether the id was recorded. *)
Lemma mark_returns tr chunk_id :
  valid_id tr chunk_id →
  (CheckPresentAndMarkRecvd tr chunk_id).1 = CheckPresent tr chunk_id.
Proof.
  intros Hv. unfold CheckPresentAndMarkRecvd, CheckPresent.
  destruct (N.ltb_spec chunk_id (vsize (data_chunk_recvd_flags tr))) as [Hlt|Hge].
  - destruct (vget_is_Some _ _ Hlt) as [[|] ->]; done.
  - destruct (proj2 set_ok (fec_chunks_recvd tr) chunk_id) as (Hsnd & _ & _);
      [by eapply sparse_not_null|].
    destruct (open_hash_set.find_fast _ _) eqn:Hf; [done|].
    destruct (open_hash_set.insert _ _) as [s' b]. simpl in *. by subst b.
Qed.

(** After the call the id is recorded. *)
Lemma mark_present tr chunk_id :
  valid_id tr chunk_id →
  CheckPresent (CheckPresentAndMarkRecvd tr chunk_id).2 chunk_id = true.
Proof.
  intros Hv. unfold CheckPresentAndMarkRecvd, CheckPresent.
  destruct (N.ltb_spec chunk_id (vsize (data_chunk_recvd_flags tr))) as [Hlt|Hge].
  - destruct (vget_is_Some _ _ Hlt) as [[|] Hg]; rewrite Hg; simpl.
    + destruct (N.ltb_spec chunk_id (vsize (data_chunk_recvd_flags tr))); [|lia].
      by rewrite Hg.
    + rewrite vsize_vset.
      destruct (N.ltb_spec chunk_id (vsize (data_chunk_recvd_flags tr))); [|lia].
      by rewrite (vget_vset_eq _ _ _ _ Hg).
  - destruct (proj2 set_ok (fec_chunks_recvd tr) chunk_id) as (_ & Hfound & _);
      [by eapply sparse_not_null|].
    destruct (open_hash_set.find_fast (fec_chunks_recvd tr) chunk_id) eqn:Hf; simpl.
    + destruct (N.ltb_spec chunk_id (vsize (data_chunk_recvd_flags tr))); [lia|done].
    + destruct (open_hash_set.insert _ _) as [s' b]. simpl in *.
      destruct (N.ltb_spec chunk_id (vsize (data_chunk_recvd_flags tr))); [lia|done].
Qed.

(** The call changes nothing about any other id. *)
Lemma mark_other tr i chunk_id :
  valid_id tr i → valid_id tr chunk_id → i ≠ chunk_id →
  CheckPresent (CheckPresentAndMarkRecvd tr i).2 chunk_id = CheckPresent tr chunk_id.
Proof.
  intros Hi Hv Hne. unfold CheckPresent at 1. rewrite mark_size.
  unfold CheckPresent, CheckPresentAndMarkRecvd.
  destruct (N.ltb_spec i (vsize (data_chunk_recvd_flags tr))) as [Hlt|Hge].
  - destruct (vget (data_chunk_recvd_flags tr) i) as [[|]|]; simpl;
      by rewrite ?vget_vset_ne.
  - destruct (open_hash_set.find_fast (fec_chunks_recvd tr) i); [done|].
    destruct (proj2 set_ok (fec_chunks_recvd tr) i) as (_ & _ & Hothers);
      [by eapply sparse_not_null|].
    destruct (open_hash_set.insert _ _) as [s' b]. simpl in *.
    destruct (N.ltb_spec chunk_id (vsize (data_chunk_recvd_flags tr))); [done|].
    apply Hothers; [by eapply sparse_not_null|done].
Qed.

Lemma mark_keeps tr i chunk_id :
  valid_id tr i → valid_id tr chunk_id → CheckPresent tr chunk_id = true →
  CheckPresent (CheckPresentAndMarkRecvd tr i).2 chunk_id = true.
Proof.
  intros Hi Hv Hp. destruct (decide (i = chunk_id)) as [->|Hne].
  - by apply mark_present.
  - by rewrite mark_other.
Qed.

Lemma mark_all_keeps ids : ∀ tr chunk_id,
  Forall (valid_id tr) ids → valid_id tr chunk_id →
  CheckPresent tr chunk_id = true →
  valid_id (mark_all tr ids) chunk_id ∧ CheckPresent (mark_all tr ids) chunk_id = true.
Proof.
  induction ids as [|i ids IH]; intros tr chunk_id Hall Hv Hp; [done|].
  apply Forall_cons in Hall as [Hi Hall]. simpl. apply IH.
  - eapply Forall_impl; [exact Hall|]. intros j. apply valid_id_mark.
  - by apply valid_id_mark.
  - by apply mark_keeps.
Qed.

Lemma mark_all_others ids : ∀ tr chunk_id,
  Forall (λ i, valid_id tr i ∧ i ≠ chunk_id) ids → valid_id tr chunk_id →
  valid_id (mark_all tr ids) chunk_id ∧
  CheckPresent (mark_all tr ids) chunk_id = CheckPresent tr chunk_id.
Proof.
  induction ids as [|i ids IH]; intros tr chunk_id Hall Hv; [done|].
  apply Forall_cons in Hall as [[Hi Hne] Hall]. simpl.
  rewrite <- (mark_other tr i chunk_id) by done. apply IH.
  - eapply Forall_impl; [exact Hall|]. intros j [Hj ?].
    split; [by apply valid_id_mark|done].
  - by apply valid_id_mark.
Qed.

(** A tracker as constructed has recorded nothing. *)
Lemma fresh_tracker data_chunks chunk_id :
  valid_id (BlockChunkRecvdTracker data_chunks) chunk_id →
  CheckPresent (BlockChunkRecvdTracker data_chunks) chunk_id = false.
Proof.
  intros Hv. unfold CheckPresent, BlockChunkRecvdTracker. simpl.
  destruct (N.ltb_spec chunk_id (vsize (replicate (N.to_nat data_chunks) false)))
    as [Hlt|Hge].
  - destruct (vget _ _) as [b|] eqn:Hg; [|done].
    unfold vget in Hg. by apply lookup_replicate in Hg as [-> _].
  - apply (proj1 set_ok). by eapply (sparse_not_null _ _ Hv).
Qed.

(** C5. For a chunk id of the dense range, or of the sparse range and not
    the null element: [CheckPresentAndMarkRecvd] returns what [CheckPresent]
    reads, which is [false] on a tracker as constructed; the first call for
    the id, whichever other ids were marked before, returns [false]; every
    call after it, whichever ids were marked in between, returns [true]. *)
Theorem tracker_mark_and_check tr chunk_id :
  valid_id tr chunk_id →
  (CheckPresentAndMarkRecvd tr chunk_id).1 = CheckPresent tr chunk_id ∧
  (∀ data_chunks, tr = BlockChunkRecvdTracker data_chunks →
     CheckPresent tr chunk_id = false) ∧
  (CheckPresent tr chunk_id = false →
     ∀ ids, Forall (λ i, valid_id tr i ∧ i ≠ chunk_id) ids →
       (CheckPresentAndMarkRecvd (mark_all tr ids) chunk_id).1 = false) ∧
  (∀ ids, Forall (valid_id tr) ids →
     (CheckPresentAndMarkRecvd
        (mark_all (CheckPresentAndMarkRecvd tr chunk_id).2 ids) chunk_id).1 = true).
Proof.
  intros Hv. split; [by apply mark_returns|]. split; [|split].
  - intros data_chunks ->. by apply fresh_tracker.
  - intros Hfresh ids Hall.
    destruct (mark_all_others ids tr chunk_id Hall Hv) as [Hv' Heq].
    rewrite mark_returns by done. congruence.
  - intros ids Hall.
    destruct (mark_all_keeps ids (CheckPresentAndMarkRecvd tr chunk_id).2 chunk_id)
      as [Hv' Hp].
    + eapply Forall_impl; [exact Hall|]. intros j. apply valid_id_mark.
    + by apply valid_id_mark.
    + by apply mark_present.
    + by rewrite mark_returns.
Qed.

End TrackerFacts.

(** The executable set meets the contract. *)
Lemma RefSet_contract : BlockChunkRecvdTracker.set_contract (ohs := RefSet.ohs).
Proof.
  split; [done|].
  intros s e Hnn. simpl. unfold RefSet.insert, RefSet.find_fast.
  unfold BlockChunkRecvdTracker.ChunkIdIsNull in Hnn. rewrite Hnn. simpl.
  split; [|split].
  - by repeat case_bool_decide.
  - apply bool_decide_eq_true_2. set_solver.
  - intros e' _ Hne. apply bool_decide_ext. set_solver.
Qed.

Lemma tracker_mark_and_check_witness :
  BlockChunkRecvdTracker.valid_id Samples.tracker3 7 ∧
  (BlockChunkRecvdTracker.CheckPresentAndMarkRecvd Samples.tracker3 7).1 = false ∧
  (BlockChunkRecvdTracker.CheckPresentAndMarkRecvd
     (BlockChunkRecvdTracker.mark_all
        (BlockChunkRecvdTracker.CheckPresentAndMarkRecvd Samples.tracker3 7).2
        [1; 9]) 7).1 = true.
Proof.
  assert (Hv : BlockChunkRecvdTracker.valid_id Samples.tracker3 7) by (by right).
  destruct (tracker_mark_and_check (ohs := RefSet.ohs) RefSet_contract
              Samples.tracker3 7 Hv) as (_ & _ & Hfirst & Hlater).
  split; [exact Hv|]. split.
  - exact (Hfirst eq_refl [] (Forall_nil_2 _)).
  - apply (Hlater [1; 9]).
    constructor; [by left|]. constructor; [by right|]. constructor.
Defined.

(** ** Buffers *)
Section BufferFacts.
Implicit Types (buf src bytes : list Byte.byte) (off : nat).

Lemma write_at_length buf off bytes :
  (off + length bytes ≤ length buf)%nat →
  length (write_at buf off bytes) = length buf.
Proof.
  intros H. unfold write_at.
  rewrite !length_app, length_take, length_drop. lia.
Qed.

Lemma vsize_write_at buf off bytes :
  (off + length bytes ≤ length buf)%nat → vsize (write_at buf off bytes) = vsize buf.
Proof. intros H. unfold vsize. by rewrite write_at_length. Qed.

(** Bytes outside the written range keep their value. *)
Lemma write_at_lookup_outside buf off bytes j :
  (off + length bytes ≤ length buf)%nat →
  (j < off ∨ off + length bytes ≤ j)%nat →
  write_at buf off bytes !! j = buf !! j.
Proof.
  intros Hin Hj. unfold write_at. destruct Hj as [Hlt|Hge].
  - rewrite lookup_app_l by (rewrite length_take; lia).
    by rewrite lookup_take_lt.
  - rewrite lookup_app_r by (rewrite length_take; lia).
    rewrite length_take, lookup_app_r by lia.
    rewrite lookup_drop. f_equal. lia.
Qed.

(** The written range holds the bytes written. *)
Lemma write_at_lookup_inside buf off bytes j :
  (off + length bytes ≤ length buf)%nat → (j < length bytes)%nat →
  write_at buf off bytes !! (off + j)%nat = bytes !! j.
Proof.
  intros Hin Hj. unfold write_at.
  rewrite lookup_app_r by (rewrite length_take; lia).
  rewrite length_take, lookup_app_l by lia. f_equal. lia.
Qed.

(** What a write leaves depends on the buffer only outside its range. *)
Lemma write_at_overwrite buf off bytes0 bytes :
  length bytes0 = length bytes → (off + length bytes ≤ length buf)%nat →
  write_at (write_at buf off bytes0) off bytes = write_at buf off bytes.
Proof.
  intros Hlen Hin. apply list_eq. intros j.
  assert (Hin0 : (off + length bytes0 ≤ length buf)%nat) by lia.
  assert (Hin1 : (off + length bytes ≤ length (write_at buf off bytes0))%nat)
    by (rewrite write_at_length; lia).
  destruct (decide (j < off ∨ off + length bytes ≤ j)%nat) as [Hout|Hins].
  - rewrite !write_at_lookup_outside by (done || lia). done.
  - replace j with (off + (j - off))%nat by lia.
    rewrite !write_at_lookup_inside by (done || lia). done.
Qed.

(** Two adjacent writes are one write of the concatenation. *)
Lemma write_at_app buf off bytes1 bytes2 :
  (off + length bytes1 + length bytes2 ≤ length buf)%nat →
  write_at (write_at buf off bytes1) (off + length bytes1) bytes2
  = write_at buf off (bytes1 ++ bytes2).
Proof.
  intros Hin. apply list_eq. intros j.
  assert (Hlen1 : length (write_at buf off bytes1) = length buf)
    by (apply write_at_length; lia).
  destruct (decide (j < off)%nat) as [Hlt|Hge].
  - rewrite !write_at_lookup_outside
      by (rewrite ?Hlen1, ?length_app; auto; lia). done.
  - destruct (decide (j < off + length bytes1)%nat) as [H1|H1].
    + rewrite write_at_lookup_outside by (rewrite ?Hlen1; auto; lia).
      replace j with (off + (j - off))%nat by lia.
      rewrite !write_at_lookup_inside by (rewrite ?length_app; lia).
      by rewrite lookup_app_l by lia.
    + destruct (decide (j < off + length bytes1 + length bytes2)%nat) as [H2|H2].
      * replace j with (off + length bytes1 + (j - off - length bytes1))%nat at 1 by lia.
        rewrite write_at_lookup_inside by (rewrite ?Hlen1; lia).
        replace j with (off + (j - off))%nat by lia.
        rewrite write_at_lookup_inside by (rewrite ?length_app; lia).
        rewrite lookup_app_r by lia. f_equal. lia.
      * rewrite !write_at_lookup_outside
          by (rewrite ?Hlen1, ?length_app; auto; lia). done.
Qed.

Lemma write_at_idem buf off bytes :
  (off + length bytes ≤ length buf)%nat →
  write_at (write_at buf off bytes) off bytes = write_at buf off bytes.
Proof. intros H. by apply write_at_overwrite. Qed.

Lemma memcpy_at_all buf (off : N) src :
  off + vsize src ≤ vsize buf →
  memcpy_at buf off src (vsize src) = Some (write_at buf (N.to_nat off) src).
Proof.
  intros Hin. unfold memcpy_at.
  destruct (N.leb_spec (vsize src) (vsize src)); [|lia].
  destruct (N.leb_spec (off + vsize src) (vsize buf)); [|lia]. simpl.
  unfold write_at. rewrite vsize_length, (take_ge src) by lia.
  do 4 f_equal. unfold vsize. lia.
Qed.

Lemma memcpy_at_Some buf (off : N) src n buf' :
  memcpy_at buf off src n = Some buf' → n ≤ vsize src ∧ off + n ≤ vsize buf.
Proof.
  unfold memcpy_at.
  destruct (N.leb_spec n (vsize src)); [|done].
  by destruct (N.leb_spec (off + n) (vsize buf)).
Qed.

Lemma memset_at_all buf (off : N) c n :
  off + n ≤ vsize buf →
  memset_at buf off c n
  = Some (write_at buf (N.to_nat off) (replicate (N.to_nat n) c)).
Proof.
  intros Hin. unfold memset_at.
  destruct (N.leb_spec (off + n) (vsize buf)); [|lia].
  unfold write_at. rewrite length_replicate. do 4 f_equal. lia.
Qed.

Lemma memset_at_Some buf (off : N) c n buf' :
  memset_at buf off c n = Some buf' → off + n ≤ vsize buf.
Proof. unfold memset_at. by destruct (N.leb_spec (off + n) (vsize buf)). Qed.

Lemma length_zero_padded bytes :
  (length bytes ≤ N.to_nat FEC_CHUNK_SIZE)%nat →
  length (zero_padded bytes) = N.to_nat FEC_CHUNK_SIZE.
Proof. intros H. unfold zero_padded. rewrite length_app, length_replicate. lia. Qed.

(** The slot a chunk-sized write went to holds the chunk; every other slot
    is as before. *)
Lemma slot_bytes_write_at_same buf (i : N) bytes :
  length bytes = N.to_nat FEC_CHUNK_SIZE →
  (i + 1) * FEC_CHUNK_SIZE ≤ vsize buf →
  slot_bytes (write_at buf (N.to_nat (i * FEC_CHUNK_SIZE)) bytes) i = bytes.
Proof.
  intros Hlen Hin. unfold slot_bytes, write_at.
  rewrite drop_app_length' by (rewrite length_take; unfold vsize in Hin; lia).
  rewrite take_app_length' by done. done.
Qed.

Lemma slot_bytes_write_at_other buf (i j : N) bytes :
  length bytes = N.to_nat FEC_CHUNK_SIZE →
  (i + 1) * FEC_CHUNK_SIZE ≤ vsize buf → j ≠ i →
  slot_bytes (write_at buf (N.to_nat (i * FEC_CHUNK_SIZE)) bytes) j = slot_bytes buf j.
Proof.
  intros Hlen Hin Hne. unfold slot_bytes. apply list_eq. intros k.
  unfold vsize in Hin.
  destruct (decide (k < N.to_nat FEC_CHUNK_SIZE)%nat) as [Hk|Hk].
  - rewrite !lookup_take_lt, !lookup_drop by done.
    apply write_at_lookup_outside; [lia|].
    unfold FEC_CHUNK_SIZE in *. nia.
  - by rewrite !lookup_take_ge by lia.
Qed.

End BufferFacts.

(** ** The encode session *)
Section EncoderFacts.
Context {codec : wh256}.
Import FECEncoder.

Implicit Types (e : FECEncoder.t) (i j : N).

Lemma PTRDIFF_MAX_eq : PTRDIFF_MAX = 9223372036854775807.
Proof. reflexivity. Qed.

(** A slot index within range addresses [FEC_CHUNK_SIZE] bytes of the
    buffer, and its offset does not wrap. *)
Lemma slot_in_range e i :
  wf e → i < slots e →
  (i + 1) * FEC_CHUNK_SIZE ≤ vsize (fec_chunks e) ∧
  size_mul i FEC_CHUNK_SIZE = i * FEC_CHUNK_SIZE.
Proof.
  intros [_ Hbuf] Hi. unfold slots, vector_ok in *.
  pose proof (N.Div0.mul_div_le (vsize (fec_chunks e)) FEC_CHUNK_SIZE) as Hdiv.
  pose proof PTRDIFF_MAX_eq. pose proof SIZE_MOD_eq.
  assert (Hle : (i + 1) * FEC_CHUNK_SIZE ≤ vsize (fec_chunks e)).
  { unfold FEC_CHUNK_SIZE in *. nia. }
  split; [done|]. apply size_mul_small. unfold FEC_CHUNK_SIZE in *. lia.
Qed.

(** An object of fewer than two chunks fits one chunk. *)
Lemma single_chunk_size e :
  wf e → DIV_CEIL (vsize (data e)) FEC_CHUNK_SIZE < 2 →
  vsize (data e) ≤ FEC_CHUNK_SIZE.
Proof.
  intros [Hdata _] Hlt. unfold vector_ok in Hdata.
  pose proof PTRDIFF_MAX_eq. pose proof SIZE_MOD_eq.
  rewrite DIV_CEIL_small in Hlt by (unfold FEC_CHUNK_SIZE; lia).
  pose proof (N.mul_succ_div_gt (vsize (data e) + 1151) 1152 ltac:(lia)) as Hgt.
  unfold FEC_CHUNK_SIZE. nia.
Qed.

(** The identifier of a slot within range does not wrap. *)
Lemma chunk_id_of_small e i :
  wf e → i < slots e →
  chunk_id_of e i = i + DIV_CEIL (vsize (data e)) FEC_CHUNK_SIZE.
Proof.
  intros Hwf Hi. destruct (slot_in_range e i Hwf Hi) as [Hle _].
  destruct Hwf as [Hdata Hbuf]. unfold vector_ok in *.
  pose proof PTRDIFF_MAX_eq. pose proof SIZE_MOD_eq.
  unfold chunk_id_of. apply size_add_small.
  rewrite DIV_CEIL_small by (unfold FEC_CHUNK_SIZE; lia).
  pose proof (N.Div0.mul_div_le (vsize (data e) + 1151) 1152) as Hdiv.
  unfold FEC_CHUNK_SIZE in *. nia.
Qed.

(** Below two chunks the slot receives the zero-padded object. *)
Lemma BuildChunk_single e i :
  wf e → i < slots e → DIV_CEIL (vsize (data e)) FEC_CHUNK_SIZE < 2 →
  data e ≠ [] →
  BuildChunk e i
  = Some (true, mk (data e)
                   (write_at (fec_chunks e) (N.to_nat (i * FEC_CHUNK_SIZE))
                      (zero_padded (data e)))
                   (state e)).
Proof.
  intros Hwf Hi Hlt Hne.
  destruct (slot_in_range e i Hwf Hi) as [Hle Hoff].
  pose proof (single_chunk_size e Hwf Hlt) as Hsz.
  pose proof SIZE_MOD_eq. pose proof PTRDIFF_MAX_eq.
  assert (Hbuf : vsize (fec_chunks e) ≤ PTRDIFF_MAX) by apply Hwf.
  unfold BuildChunk. fold (slots e).
  destruct (N.ltb_spec i (slots e)); [|lia]. simpl.
  destruct (N.ltb_spec (DIV_CEIL (vsize (data e)) FEC_CHUNK_SIZE) 2); [|lia].
  destruct (data e) as [|b l] eqn:Hdata; [done|]. rewrite <- Hdata in *.
  rewrite Hoff.
  rewrite memcpy_at_all by (unfold FEC_CHUNK_SIZE in *; lia). simpl.
  rewrite size_add_small by (unfold FEC_CHUNK_SIZE in *; lia).
  rewrite size_sub_small by (unfold FEC_CHUNK_SIZE in *; lia).
  assert (Hlen : (N.to_nat (i * FEC_CHUNK_SIZE) + length (data e)
                  + length (replicate (N.to_nat (FEC_CHUNK_SIZE - vsize (data e))) Byte.x00)
                  ≤ length (fec_chunks e))%nat).
  { rewrite length_replicate. unfold vsize, FEC_CHUNK_SIZE in *. lia. }
  rewrite memset_at_all.
  - simpl. do 3 f_equal.
    replace (N.to_nat (i * FEC_CHUNK_SIZE + vsize (data e)))
      with (N.to_nat (i * FEC_CHUNK_SIZE) + length (data e))%nat
      by (unfold vsize; lia).
    rewrite write_at_app by done. unfold zero_padded. do 3 f_equal.
    unfold vsize. lia.
  - rewrite vsize_write_at by lia. unfold FEC_CHUNK_SIZE in *. lia.
Qed.

(** With two chunks or more the slot receives what the primitive wrote for
    the slot's identifier, zero-padded; a failed write leaves its bytes and
    makes the call return [false]. *)
Lemma store_chunk_in_bounds e i st block r :
  wf e → i < slots e → vsize block ≤ FEC_CHUNK_SIZE →
  store_chunk e (i * FEC_CHUNK_SIZE) (st, block, r)
  = Some (if decide (r = 0%Z)
          then (true, mk (data e)
                         (write_at (fec_chunks e) (N.to_nat (i * FEC_CHUNK_SIZE))
                            (zero_padded block)) st)
          else (false, mk (data e)
                          (write_at (fec_chunks e) (N.to_nat (i * FEC_CHUNK_SIZE))
                             block) st)).
Proof.
  intros Hwf Hi Hblock.
  destruct (slot_in_range e i Hwf Hi) as [Hle Hoff].
  pose proof SIZE_MOD_eq. pose proof PTRDIFF_MAX_eq.
  assert (Hbuf : vsize (fec_chunks e) ≤ PTRDIFF_MAX) by apply Hwf.
  unfold store_chunk.
  rewrite memcpy_at_all by (unfold FEC_CHUNK_SIZE in *; lia). simpl.
  destruct (Z.eqb_spec r 0) as [->|Hr];
    [rewrite decide_True by done|rewrite decide_False by done]; simpl.
  - destruct (N.eqb_spec (vsize block) FEC_CHUNK_SIZE) as [Hfull|Hshort].
    + do 3 f_equal. unfold zero_padded.
      replace (N.to_nat FEC_CHUNK_SIZE - length block)%nat with 0%nat
        by (unfold vsize in Hfull; lia).
      simpl. by rewrite app_nil_r.
    + rewrite size_add_small by (unfold FEC_CHUNK_SIZE in *; lia).
      rewrite size_sub_small by (unfold FEC_CHUNK_SIZE in *; lia).
      assert (Hlen : (N.to_nat (i * FEC_CHUNK_SIZE) + length block
                      + length (replicate (N.to_nat (FEC_CHUNK_SIZE - vsize block)) Byte.x00)
                      ≤ length (fec_chunks e))%nat).
      { rewrite length_replicate. unfold vsize, FEC_CHUNK_SIZE in *. lia. }
      rewrite memset_at_all.
      * simpl. do 3 f_equal.
        replace (N.to_nat (i * FEC_CHUNK_SIZE + vsize block))
          with (N.to_nat (i * FEC_CHUNK_SIZE) + length block)%nat
          by (unfold vsize; lia).
        rewrite write_at_app by done. unfold zero_padded. do 3 f_equal.
        unfold vsize. lia.
      * rewrite vsize_write_at by lia. unfold FEC_CHUNK_SIZE in *. lia.
  - done.
Qed.

(** A write of the primitive that runs past the slot cannot end in
    success. *)
Lemma store_chunk_overrun e i st block r e' :
  wf e → i < slots e →
  store_chunk e (i * FEC_CHUNK_SIZE) (st, block, r) = Some (true, e') →
  vsize block ≤ FEC_CHUNK_SIZE.
Proof.
  intros Hwf Hi. destruct (slot_in_range e i Hwf Hi) as [Hle Hoff].
  pose proof SIZE_MOD_eq as Hmod. pose proof PTRDIFF_MAX_eq.
  assert (Hbuf : vsize (fec_chunks e) ≤ PTRDIFF_MAX) by apply Hwf.
  unfold store_chunk.
  destruct (memcpy_at _ _ _ _) as [buf1|] eqn:Hcpy; [|done]. simpl.
  pose proof (memcpy_at_Some _ _ _ _ _ Hcpy) as [_ Hin].
  destruct (negb _); [done|].
  destruct (N.eqb_spec (vsize block) FEC_CHUNK_SIZE) as [Hfull|Hshort]; [lia|].
  destruct (memset_at _ _ _ _) as [buf2|] eqn:Hset; [|done]. intros _.
  apply memset_at_Some in Hset.
  assert (Hsz1 : vsize buf1 = vsize (fec_chunks e)).
  { unfold memcpy_at in Hcpy. destruct (_ && _); [|done].
    injection Hcpy as <-. unfold vsize in *.
    rewrite !length_app, length_take, length_take, length_drop. lia. }
  destruct (N.le_gt_cases (vsize block) FEC_CHUNK_SIZE) as [|Hover]; [done|].
  exfalso. rewrite Hsz1 in Hset.
  rewrite size_add_small in Hset by lia.
  unfold size_sub in Hset. rewrite (N.mod_small (vsize block)) in Hset by lia.
  rewrite N.mod_small in Hset by (unfold FEC_CHUNK_SIZE in *; lia).
  unfold FEC_CHUNK_SIZE in *. lia.
Qed.

End EncoderFacts.

Section EncoderClaims.
Context {codec : wh256}.
Import FECEncoder.

Implicit Types (e : FECEncoder.t) (i j : N).

Lemma wf_same_sizes e e0 :
  wf e → data e0 = data e → vsize (fec_chunks e0) = vsize (fec_chunks e) → wf e0.
Proof. unfold wf, vector_ok. intros [??] -> ->. done. Qed.

(** A successful [BuildChunk] stores one chunk of bytes in the slot, and
    these bytes do not depend on what the buffer held. *)
Lemma BuildChunk_success e i e' :
  wf e → BuildChunk e i = Some (true, e') →
  i < slots e ∧
  ∃ bytes st',
    length bytes = N.to_nat FEC_CHUNK_SIZE ∧
    (DIV_CEIL (vsize (data e)) FEC_CHUNK_SIZE < 2 →
       bytes = zero_padded (data e) ∧ st' = state e ∧ data e ≠ []) ∧
    ∀ buf0, vsize buf0 = vsize (fec_chunks e) →
      BuildChunk (mk (data e) buf0 (state e)) i
      = Some (true, mk (data e)
                       (write_at buf0 (N.to_nat (i * FEC_CHUNK_SIZE)) bytes) st').
Proof.
  intros Hwf Hb.
  assert (Hi : i < slots e).
  { unfold BuildChunk in Hb. fold (slots e) in Hb.
    by destruct (N.ltb_spec i (slots e)). }
  split; [done|].
  destruct (N.lt_ge_cases (DIV_CEIL (vsize (data e)) FEC_CHUNK_SIZE) 2) as [Hlt|Hge].
  - assert (Hne : data e ≠ []).
    { intros Hnil. unfold BuildChunk in Hb. fold (slots e) in Hb.
      destruct (N.ltb_spec i (slots e)); [|lia]. simpl in Hb.
      destruct (N.ltb_spec (DIV_CEIL (vsize (data e)) FEC_CHUNK_SIZE) 2); [|lia].
      by rewrite Hnil in Hb. }
    exists (zero_padded (data e)), (state e). split; [|split; [done|]].
    + apply length_zero_padded. pose proof (single_chunk_size e Hwf Hlt).
      unfold vsize in *. lia.
    + intros buf0 Hsz. apply (BuildChunk_single (mk (data e) buf0 (state e))); try done.
      * by eapply wf_same_sizes.
      * unfold slots in *. simpl. by rewrite Hsz.
  - destruct (wh256_encoder_write (state e) (chunk_id_of e i)) as [[st block] r] eqn:Hw.
    destruct (slot_in_range e i Hwf Hi) as [_ Hoff].
    assert (Hst : store_chunk e (i * FEC_CHUNK_SIZE) (st, block, r) = Some (true, e')).
    { unfold BuildChunk in Hb. fold (slots e) in Hb.
      destruct (N.ltb_spec i (slots e)); [|lia]. simpl in Hb.
      destruct (N.ltb_spec (DIV_CEIL (vsize (data e)) FEC_CHUNK_SIZE) 2); [lia|].
      by rewrite Hw, Hoff in Hb. }
    pose proof (store_chunk_overrun _ _ _ _ _ _ Hwf Hi Hst) as Hblock.
    rewrite store_chunk_in_bounds in Hst by done.
    destruct (decide (r = 0%Z)) as [->|Hr]; [|done].
    exists (zero_padded block), st. split; [|split; [lia|]].
    + apply length_zero_padded. unfold vsize in *. lia.
    + intros buf0 Hsz. set (e0 := mk (data e) buf0 (state e)).
      assert (Hwf0 : wf e0) by by eapply wf_same_sizes.
      assert (Hi0 : i < slots e0) by (unfold slots in *; simpl; by rewrite Hsz).
      destruct (slot_in_range e0 i Hwf0 Hi0) as [_ Hoff0].
      unfold BuildChunk. fold (slots e0).
      destruct (N.ltb_spec i (slots e0)); [|lia]. simpl.
      destruct (N.ltb_spec (DIV_CEIL (vsize (data e)) FEC_CHUNK_SIZE) 2); [lia|].
      change (chunk_id_of e0 i) with (chunk_id_of e i). rewrite Hw, Hoff.
      rewrite (store_chunk_in_bounds e0) by done. by rewrite decide_True.
Qed.

Lemma BuildChunk_success_state e i e' :
  wf e → BuildChunk e i = Some (true, e') →
  ∃ bytes, length bytes = N.to_nat FEC_CHUNK_SIZE ∧
    data e' = data e ∧
    fec_chunks e' = write_at (fec_chunks e) (N.to_nat (i * FEC_CHUNK_SIZE)) bytes.
Proof.
  intros Hwf Hb.
  destruct (BuildChunk_success e i e' Hwf Hb) as (Hi & bytes & st' & Hlen & _ & Hany).
  specialize (Hany (fec_chunks e) eq_refl).
  replace (mk (data e) (fec_chunks e) (state e)) with e in Hany by by destruct e.
  rewrite Hb in Hany. injection Hany as ->. by exists bytes.
Qed.

(** A call of [BuildChunk] that succeeds does not read the slot: it gives
    the same result on a buffer whose slot held any other chunk-sized
    content.  It changes neither the object, nor the size of the buffer, nor
    any other slot.  Below two chunks the slot then holds the zero-padded
    object, and building it again succeeds and changes nothing. *)
Theorem BuildChunk_rewrites_slot e i e' :
  wf e → BuildChunk e i = Some (true, e') →
  data e' = data e ∧ vsize (fec_chunks e') = vsize (fec_chunks e) ∧
  (∀ j, j ≠ i → slot_bytes (fec_chunks e') j = slot_bytes (fec_chunks e) j) ∧
  (∀ old, length old = N.to_nat FEC_CHUNK_SIZE →
     BuildChunk (mk (data e)
                    (write_at (fec_chunks e) (N.to_nat (i * FEC_CHUNK_SIZE)) old)
                    (state e)) i
     = Some (true, e')) ∧
  (DIV_CEIL (vsize (data e)) FEC_CHUNK_SIZE < 2 →
     slot_bytes (fec_chunks e') i = zero_padded (data e) ∧
     BuildChunk e' i = Some (true, e')).
Proof.
  intros Hwf Hb.
  destruct (BuildChunk_success e i e' Hwf Hb) as (Hi & bytes & st' & Hlen & Hsingle & Hany).
  destruct (slot_in_range e i Hwf Hi) as [Hle _].
  assert (Hin : (N.to_nat (i * FEC_CHUNK_SIZE) + length bytes
                 ≤ length (fec_chunks e))%nat).
  { unfold vsize in Hle. lia. }
  assert (He' : e' = mk (data e)
                    (write_at (fec_chunks e) (N.to_nat (i * FEC_CHUNK_SIZE)) bytes) st').
  { specialize (Hany (fec_chunks e) eq_refl).
    replace (mk (data e) (fec_chunks e) (state e)) with e in Hany by by destruct e.
    rewrite Hb in Hany. by injection Hany. }
  subst e'. simpl. split; [done|]. split; [by apply vsize_write_at|].
  split; [|split].
  - intros j Hj. by apply slot_bytes_write_at_other.
  - intros old Hold. rewrite Hany.
    + rewrite write_at_overwrite by (done || lia). done.
    + apply vsize_write_at. lia.
  - intros Hlt. destruct (Hsingle Hlt) as (-> & -> & Hne).
    split; [by apply slot_bytes_write_at_same|].
    rewrite BuildChunk_single; simpl; try done.
    + by rewrite write_at_idem.
    + eapply wf_same_sizes; [exact Hwf|done|]. simpl. by apply vsize_write_at.
    + unfold slots in *. simpl. by rewrite vsize_write_at.
Qed.

End EncoderClaims.

Lemma BuildChunk_rewrites_slot_witness :
  ∃ e1, FECEncoder.BuildChunk Samples.e_single 1 = Some (true, e1) ∧
        slot_bytes (FECEncoder.fec_chunks e1) 0
        = slot_bytes (FECEncoder.fec_chunks Samples.e_single) 0 ∧
        slot_bytes (FECEncoder.fec_chunks e1) 1 = zero_padded Samples.dataA ∧
        FECEncoder.BuildChunk e1 1 = Some (true, e1).
Proof.
  assert (Hwf : FECEncoder.wf Samples.e_single) by (split; by vm_compute).
  eexists. split; [vm_compute; reflexivity|].
  lazymatch goal with
  | |- context [FECEncoder.BuildChunk ?e1 1 = Some (true, ?e1)] =>
    destruct (BuildChunk_rewrites_slot Samples.e_single 1 e1 Hwf)
      as (_ & _ & Hframe & _ & Hsingle); [vm_compute; reflexivity|]
  end.
  split; [apply Hframe; done|]. apply Hsingle. by vm_compute.
Defined.

Section RepairIds.
Context {codec : wh256}.
Import FECEncoder.

Implicit Types (e : FECEncoder.t) (i j : N).

Lemma assigned_id_eq e i :
  wf e → i < slots e → 2 ≤ DIV_CEIL (vsize (data e)) FEC_CHUNK_SIZE →
  assigned_id e i = Some (i + DIV_CEIL (vsize (data e)) FEC_CHUNK_SIZE).
Proof.
  intros Hwf Hi Hk. unfold assigned_id. fold (slots e).
  destruct (N.ltb_spec i (slots e)); [|lia]. simpl.
  destruct (N.ltb_spec (DIV_CEIL (vsize (data e)) FEC_CHUNK_SIZE) 2); [lia|].
  by rewrite chunk_id_of_small.
Qed.

(** The constructor does not read [prng_seed]. *)
Lemma FECEncoder_seed data prng_seed prng_seed' buf :
  FECEncoder data prng_seed buf = FECEncoder data prng_seed' buf.
Proof. reflexivity. Qed.

(** For an object of two chunks or more, of any size, the identifier
    [BuildChunk] passes to the primitive for a slot is the slot index plus
    the number of data chunks: a repair-chunk identifier, never [0],
    different for different slots, and the same whatever [prng_seed] the
    session was constructed with.  For an object of fewer than two chunks no
    identifier is formed. *)
Theorem assigned_id_sequential e i :
  wf e → i < slots e →
  let count := DIV_CEIL (vsize (data e)) FEC_CHUNK_SIZE in
  (count < 2 → assigned_id e i = None) ∧
  (2 ≤ count →
     assigned_id e i = Some (i + count) ∧
     count ≤ i + count ∧ i + count ≠ 0 ∧
     (∀ j, j < slots e → assigned_id e j = assigned_id e i → j = i) ∧
     BuildChunk e i
     = store_chunk e (i * FEC_CHUNK_SIZE) (wh256_encoder_write (state e) (i + count)) ∧
     ∀ prng_seed prng_seed' buf,
       FECEncoder (data e) prng_seed buf = FECEncoder (data e) prng_seed' buf).
Proof.
  intros Hwf Hi count. split.
  - intros Hlt. unfold assigned_id. fold (slots e).
    destruct (N.ltb_spec i (slots e)); [|lia]. simpl.
    by destruct (N.ltb_spec (DIV_CEIL (vsize (data e)) FEC_CHUNK_SIZE) 2); [|lia].
  - intros Hk. split; [by apply assigned_id_eq|].
    split; [lia|]. split; [lia|]. split; [|split; [|done]].
    + intros j Hj. rewrite !assigned_id_eq by done. intros [= ?]. lia.
    + destruct (slot_in_range e i Hwf Hi) as [_ Hoff].
      unfold BuildChunk. fold (slots e).
      destruct (N.ltb_spec i (slots e)); [|lia]. simpl.
      destruct (N.ltb_spec (DIV_CEIL (vsize (data e)) FEC_CHUNK_SIZE) 2); [lia|].
      by rewrite Hoff, chunk_id_of_small.
Qed.

End RepairIds.

Lemma assigned_id_sequential_witness :
  FECEncoder.assigned_id Samples.e_pair 2 = Some 4 ∧
  (∀ j, j < FECEncoder.slots Samples.e_pair →
     FECEncoder.assigned_id Samples.e_pair j = FECEncoder.assigned_id Samples.e_pair 2 →
     j = 2).
Proof.
  assert (Hwf : FECEncoder.wf Samples.e_pair) by (split; by vm_compute).
  assert (Hi : 2 < FECEncoder.slots Samples.e_pair) by by vm_compute.
  destruct (assigned_id_sequential Samples.e_pair 2 Hwf Hi) as [_ H].
  destruct H as (Hid & _ & _ & Hinj & _); [by vm_compute|].
  split; [exact Hid|exact Hinj].
Defined.

(** C4, on the code. [data2] has two data chunks, a size of the bounded
    range, for which the claim, and the comment on [BuildChunk] in [fec.h],
    have the identifier chosen at random.  [fec.cpp] does not do so:
    whatever seed the session is constructed with, the identifiers of its
    slots are [2], [3] and [4], the slot index plus the number of data
    chunks, and no seed and no slot give any other. *)
Lemma assigned_id_bounded_sequential :
  2 ≤ DIV_CEIL (vsize Samples.data2) FEC_CHUNK_SIZE ≤ CM256_MAX_CHUNKS ∧
  FECEncoder.FECEncoder Samples.data2 1 Samples.out3 = Some Samples.e_pair ∧
  FECEncoder.FECEncoder Samples.data2 2 Samples.out3 = Some Samples.e_pair ∧
  FECEncoder.assigned_id Samples.e_pair 0 = Some 2 ∧
  FECEncoder.assigned_id Samples.e_pair 1 = Some 3 ∧
  FECEncoder.assigned_id Samples.e_pair 2 = Some 4 ∧
  FECEncoder.BuildChunk Samples.e_pair 0
  = FECEncoder.store_chunk Samples.e_pair 0
      (wh256_encoder_write (FECEncoder.state Samples.e_pair) 2) ∧
  ¬ ∃ prng_seed e i,
      FECEncoder.FECEncoder (codec := RefCodec.codec) Samples.data2 prng_seed Samples.out3
      = Some e ∧
      i < FECEncoder.slots e ∧ FECEncoder.assigned_id e i ≠ Some (i + 2).
Proof.
  split; [split; by vm_compute|].
  split; [by vm_compute|]. split; [by vm_compute|].
  split; [by vm_compute|]. split; [by vm_compute|]. split; [by vm_compute|].
  split; [by vm_compute|].
  intros (prng_seed & e & i & Hctor & Hi & Hid).
  rewrite (FECEncoder_seed _ prng_seed 1) in Hctor.
  assert (He : e = Samples.e_pair).
  { assert (Hc : FECEncoder.FECEncoder Samples.data2 1 Samples.out3 = Some Samples.e_pair)
      by by vm_compute.
    congruence. }
  subst e. apply Hid.
  rewrite assigned_id_eq; [done|split; by vm_compute|done|by vm_compute].
Qed.

(** ** The batch helper *)
Section BatchHelper.
Context {codec : wh256}.
Import FECEncoder.

Implicit Types (e : FECEncoder.t) (i j : N).

Hypothesis in_bounds : encoder_in_bounds.

(** On a session whose object is not empty [BuildChunk] returns for every
    slot within range, and leaves a session of the same shape. *)
Lemma BuildChunk_returns e i :
  wf e → i < slots e → data e ≠ [] →
  ∃ b e', BuildChunk e i = Some (b, e') ∧
          data e' = data e ∧ vsize (fec_chunks e') = vsize (fec_chunks e).
Proof.
  intros Hwf Hi Hne.
  destruct (slot_in_range e i Hwf Hi) as [Hle Hoff].
  assert (Hin : ∀ bytes : list Byte.byte, vsize bytes ≤ FEC_CHUNK_SIZE →
            (N.to_nat (i * FEC_CHUNK_SIZE) + length bytes ≤ length (fec_chunks e))%nat).
  { intros bytes Hb. unfold vsize, FEC_CHUNK_SIZE in *. lia. }
  destruct (N.lt_ge_cases (DIV_CEIL (vsize (data e)) FEC_CHUNK_SIZE) 2) as [Hlt|Hge].
  - rewrite BuildChunk_single by done. do 2 eexists. split; [done|]. simpl.
    split; [done|]. apply vsize_write_at, Hin.
    pose proof (single_chunk_size e Hwf Hlt) as Hsz.
    unfold vsize. rewrite length_zero_padded; unfold vsize in Hsz; lia.
  - unfold BuildChunk. fold (slots e).
    destruct (N.ltb_spec i (slots e)); [|lia]. simpl.
    destruct (N.ltb_spec (DIV_CEIL (vsize (data e)) FEC_CHUNK_SIZE) 2); [lia|].
    pose proof (in_bounds (state e) (chunk_id_of e i)) as Hblock.
    destruct (wh256_encoder_write (state e) (chunk_id_of e i)) as [[st block] r].
    simpl in Hblock. rewrite Hoff, store_chunk_in_bounds by done.
    destruct (decide (r = 0%Z)); do 2 eexists; (split; [done|]); simpl;
      (split; [done|]); apply vsize_write_at, Hin; [|done].
    unfold vsize. rewrite length_zero_padded; unfold vsize in Hblock; lia.
Qed.

(** The shape of a session is kept along the slots built so far. *)
Lemma built_upto_shape e0 k e :
  wf e0 → built_upto e0 k = Some e →
  wf e ∧ data e = data e0 ∧ slots e = slots e0.
Proof.
  intros Hwf0. revert e. induction k as [|k IH]; intros e; simpl.
  - by intros [= <-].
  - destruct (built_upto e0 k) as [e1|]; [|done].
    destruct (IH e1 eq_refl) as (Hwf1 & Hd1 & Hs1).
    destruct (BuildChunk e1 (N.of_nat k)) as [[[|] e2]|] eqn:Hb; [|done|done].
    intros [= <-].
    destruct (BuildChunk_success_state e1 _ e2 Hwf1 Hb) as (bytes & Hlen & Hd & Hbuf).
    destruct (BuildChunk_success e1 _ e2 Hwf1 Hb) as [Hi _].
    destruct (slot_in_range e1 _ Hwf1 Hi) as [Hle _].
    assert (Hsz : vsize (fec_chunks e2) = vsize (fec_chunks e1)).
    { rewrite Hbuf. apply vsize_write_at. unfold vsize in Hle. lia. }
    split; [by eapply wf_same_sizes|]. split; [congruence|].
    unfold slots in *. by rewrite Hsz.
Qed.

(** Every slot before [k] was built with success on the way to
    [built_upto e0 k]. *)
Lemma built_upto_prefix e0 k e :
  built_upto e0 k = Some e →
  ∀ k', (k' < k)%nat →
    ∃ e1 e2, built_upto e0 k' = Some e1 ∧ BuildChunk e1 (N.of_nat k') = Some (true, e2).
Proof.
  revert e. induction k as [|k IH]; intros e Hk k' Hlt; [lia|].
  simpl in Hk. destruct (built_upto e0 k) as [e1|] eqn:H1; [|done].
  destruct (BuildChunk e1 (N.of_nat k)) as [[[|] e2]|] eqn:Hb; [|done|done].
  destruct (decide (k' = k)) as [->|Hne].
  - by exists e1, e2.
  - apply (IH e1 eq_refl). lia.
Qed.

(** What the loop returns from index [i] on, when the slots before [i] have
    been built. *)
Lemma BuildFECChunks_loop_spec e0 fuel : ∀ e i,
  wf e0 → data e0 ≠ [] →
  built_upto e0 (N.to_nat i) = Some e → i ≤ slots e0 →
  (N.to_nat (slots e0 - i) ≤ fuel)%nat →
  (∃ e', BuildFECChunks_loop fuel e i = Some (true, e') ∧
         built_upto e0 (N.to_nat (slots e0)) = Some e') ∨
  (∃ j ej e', i ≤ j < slots e0 ∧ built_upto e0 (N.to_nat j) = Some ej ∧
              BuildChunk ej j = Some (false, e') ∧
              BuildFECChunks_loop fuel e i = Some (false, e')).
Proof.
  induction fuel as [|fuel IH]; intros e i Hwf0 Hne Hbuilt Hi Hfuel.
  - assert (i = slots e0) as -> by lia. left. exists e.
    destruct (built_upto_shape e0 _ e Hwf0 Hbuilt) as (_ & _ & Hs).
    simpl. fold (slots e). rewrite Hs.
    destruct (N.ltb_spec (slots e0) (slots e0)); [lia|]. done.
  - destruct (built_upto_shape e0 _ e Hwf0 Hbuilt) as (Hwf & Hd & Hs).
    simpl. fold (slots e). rewrite Hs.
    destruct (N.ltb_spec i (slots e0)) as [Hlt|Hge].
    + destruct (BuildChunk_returns e i Hwf) as (b & e1 & Hb & Hd1 & Hsz1);
        [lia|congruence|].
      rewrite Hb. destruct b.
      * assert (Hnext : size_add i 1 = i + 1).
        { apply size_add_small.
          destruct (slot_in_range e i Hwf ltac:(lia)) as [Hle _].
          destruct Hwf as [_ Hbuf]. unfold vector_ok in Hbuf.
          pose proof PTRDIFF_MAX_eq. pose proof SIZE_MOD_eq.
          unfold FEC_CHUNK_SIZE in *. lia. }
        rewrite Hnext.
        assert (Hbuilt1 : built_upto e0 (N.to_nat (i + 1)) = Some e1).
        { replace (N.to_nat (i + 1)) with (S (N.to_nat i)) by lia.
          simpl. rewrite Hbuilt, N2Nat.id, Hb. done. }
        destruct (IH e1 (i + 1) Hwf0 Hne Hbuilt1 ltac:(lia) ltac:(lia))
          as [(e' & Hloop & Hall)|(j & ej & e' & Hj & Hbj & Hfail & Hloop)].
        -- left. by exists e'.
        -- right. exists j, ej, e'. repeat split; try done; lia.
      * right. exists i, e, e1. repeat split; try done; lia.
    + assert (i = slots e0) as -> by lia. left. by exists e.
Qed.

(** C8. [BuildFECChunks] on an object and an output buffer its constructor
    accepts runs through the slots in order and returns.  It returns [true]
    exactly when [BuildChunk] succeeded for every slot index, each on the
    state the slots before it left.  It returns [false] when some slot's
    [BuildChunk] fails after all slots before it succeeded, and the buffer
    is then as that failed call left it: no later slot is attempted. *)
Theorem BuildFECChunks_all_or_fail data prng_seed fec_chunks e0 :
  vector_ok data → vector_ok fec_chunks →
  FECEncoder data prng_seed fec_chunks = Some e0 →
  ∃ b out,
    BuildFECChunks data prng_seed fec_chunks = Some (b, out) ∧
    (b = true ↔
       ∀ i, i < slots e0 →
         ∃ e e', built_upto e0 (N.to_nat i) = Some e ∧
                 BuildChunk e i = Some (true, e')) ∧
    (b = true →
       ∃ e', built_upto e0 (N.to_nat (slots e0)) = Some e' ∧
             out = FECEncoder.fec_chunks e') ∧
    (b = false →
       ∃ i e e', i < slots e0 ∧ built_upto e0 (N.to_nat i) = Some e ∧
                 BuildChunk e i = Some (false, e') ∧
                 out = FECEncoder.fec_chunks e').
Proof.
  intros Hdata Hbuf Hctor.
  assert (Hshape : FECEncoder.data e0 = data ∧ FECEncoder.fec_chunks e0 = fec_chunks
                   ∧ data ≠ []).
  { unfold FECEncoder in Hctor.
    destruct (negb _); [done|]. destruct (vsize fec_chunks =? 0); [done|].
    destruct (N.eqb_spec (vsize data) 0) as [|Hnz]; [done|].
    assert (data ≠ []) by (intros ->; by apply Hnz).
    destruct (_ <? 2); [by injection Hctor as <-|].
    destruct (wh256_is_null _); [done|]. by injection Hctor as <-. }
  destruct Hshape as (Hd0 & Hb0 & Hne).
  assert (Hwf0 : wf e0) by (unfold wf; by rewrite Hd0, Hb0).
  assert (Hn : vsize fec_chunks / FEC_CHUNK_SIZE = slots e0)
    by (unfold slots; by rewrite Hb0).
  unfold BuildFECChunks. rewrite Hctor, Hn.
  destruct (BuildFECChunks_loop_spec e0 (N.to_nat (slots e0)) e0 0 Hwf0)
    as [(e' & Hloop & Hall)|(j & ej & e' & Hj & Hbj & Hfail & Hloop)];
    [by rewrite Hd0|done|lia|lia| |].
  - rewrite Hloop. exists true, (FECEncoder.fec_chunks e').
    split; [done|]. split; [|split; [by exists e'|done]].
    split; [|done]. intros _ i Hi.
    destruct (built_upto_prefix e0 _ e' Hall (N.to_nat i) ltac:(lia))
      as (e1 & e2 & H1 & H2).
    rewrite N2Nat.id in H2. by exists e1, e2.
  - rewrite Hloop. exists false, (FECEncoder.fec_chunks e').
    split; [done|]. split; [|split; [done|]].
    + split; [done|]. intros Hall.
      destruct (Hall j ltac:(lia)) as (e1 & e2 & H1 & H2). congruence.
    + intros _. exists j, ej, e'. repeat split; try done; lia.
Qed.

End BatchHelper.

(** The executable codec stays within the slot. *)
Lemma RefCodec_in_bounds : FECEncoder.encoder_in_bounds (codec := RefCodec.codec).
Proof.
  intros st chunk_id. simpl. unfold RefCodec.encoder_write.
  destruct (RefCodec.null st); simpl; [done|].
  unfold vsize. rewrite length_take. lia.
Qed.

Lemma BuildFECChunks_all_or_fail_witness :
  ∃ b out,
    BuildFECChunks (codec := RefCodec.codec) Samples.data2 0 Samples.out3
    = Some (b, out) ∧
    (b = true ↔
       ∀ i, i < FECEncoder.slots Samples.e_pair →
         ∃ e e', FECEncoder.built_upto Samples.e_pair (N.to_nat i) = Some e ∧
                 FECEncoder.BuildChunk e i = Some (true, e')) ∧
    (b = true →
       ∃ e', FECEncoder.built_upto Samples.e_pair
               (N.to_nat (FECEncoder.slots Samples.e_pair)) = Some e' ∧
             out = FECEncoder.fec_chunks e') ∧
    (b = false →
       ∃ i e e', i < FECEncoder.slots Samples.e_pair ∧
                 FECEncoder.built_upto Samples.e_pair (N.to_nat i) = Some e ∧
                 FECEncoder.BuildChunk e i = Some (false, e') ∧
                 out = FECEncoder.fec_chunks e').
Proof.
  apply (BuildFECChunks_all_or_fail (codec := RefCodec.codec) RefCodec_in_bounds
           Samples.data2 0 Samples.out3 Samples.e_pair); by vm_compute.
Defined.

(** ** The model on concrete inputs *)

Example DIV_CEIL_values :
  DIV_CEIL 0 FEC_CHUNK_SIZE = 0 ∧ DIV_CEIL 1 FEC_CHUNK_SIZE = 1 ∧
  DIV_CEIL 1152 FEC_CHUNK_SIZE = 1 ∧ DIV_CEIL 1153 FEC_CHUNK_SIZE = 2 ∧
  DIV_CEIL 31104 FEC_CHUNK_SIZE = 27 ∧ DIV_CEIL (SIZE_MOD - 1) FEC_CHUNK_SIZE = 0.
Proof. by vm_compute. Qed.

Example FECDecoder_samples :
  FECDecoder.FECDecoder (codec := RefCodec.codec) [] 100 3 0 = Some Samples.d_single ∧
  FECDecoder.FECDecoder (codec := RefCodec.codec) [] 2304 5 0 = Some Samples.d_pair.
Proof. by vm_compute. Qed.

(** Two distinct chunks complete the two-chunk session; a repeated chunk does
    not count; an id out of range fails the assertion. *)
Example ProvideChunks_pair :
  FECDecoder.ProvideChunks Samples.d_pair [(Samples.chunkA, 4); (Samples.chunkB, 1)]
  = Some Samples.d_pair_done ∧
  (FECDecoder.DecodeReady <$>
     FECDecoder.ProvideChunks Samples.d_pair [(Samples.chunkA, 4); (Samples.chunkA, 4)])
  = Some false ∧
  (FECDecoder.GetChunksRcvd <$>
     FECDecoder.ProvideChunks Samples.d_pair [(Samples.chunkA, 4); (Samples.chunkA, 4)])
  = Some 1 ∧
  FECDecoder.ProvideChunk Samples.d_pair Samples.chunkA 5 = None ∧
  FECDecoder.GetDataPtr Samples.d_pair 0 = None ∧
  (fst <$> FECDecoder.GetDataPtr Samples.d_pair_done 1) = Some Samples.chunkB.
Proof. by vm_compute. Qed.

Example tracker_samples :
  let tr1 := (BlockChunkRecvdTracker.CheckPresentAndMarkRecvd Samples.tracker3 1).2 in
  let tr2 := (BlockChunkRecvdTracker.CheckPresentAndMarkRecvd tr1 200).2 in
  (BlockChunkRecvdTracker.CheckPresentAndMarkRecvd Samples.tracker3 1).1 = false ∧
  (BlockChunkRecvdTracker.CheckPresentAndMarkRecvd tr1 1).1 = true ∧
  (BlockChunkRecvdTracker.CheckPresentAndMarkRecvd tr1 200).1 = false ∧
  (BlockChunkRecvdTracker.CheckPresentAndMarkRecvd tr2 200).1 = true ∧
  BlockChunkRecvdTracker.CheckPresent tr2 2 = false ∧
  BlockChunkRecvdTracker.CheckPresent tr2 201 = false.
Proof. by vm_compute. Qed.

(** The one-byte object: the slot receives the object and zeros, the last
    slot is the one [PrefillChunks] builds, and the chunk sent to a session
    for a one-chunk object comes back from [GetDataPtr(0)]. *)
Example single_chunk_round_trip :
  ∃ e1 d1,
    FECEncoder.BuildChunk Samples.e_single 0 = Some (true, e1) ∧
    slot_bytes (FECEncoder.fec_chunks e1) 0 = zero_padded Samples.dataA ∧
    FECEncoder.PrefillChunks Samples.e_single
    = FECEncoder.BuildChunk Samples.e_single 1 ∧
    FECDecoder.ProvideChunk Samples.d_single
      (slot_bytes (FECEncoder.fec_chunks e1) 0) 2 = Some (true, d1) ∧
    (fst <$> FECDecoder.GetDataPtr d1 0) = Some (zero_padded Samples.dataA).
Proof. do 2 eexists. repeat split; by vm_compute. Qed.

(** The batch helper: all three slots of the two-chunk object are built; with
    a null handle the first slot fails and the loop stops there. *)
Example BuildFECChunks_samples :
  (fst <$> BuildFECChunks (codec := RefCodec.codec) Samples.data2 0 Samples.out3)
  = Some true ∧
  BuildFECChunks (codec := RefCodec.codec) Samples.data2 0 [] = None ∧
  BuildFECChunks (codec := RefCodec.codec) [] 0 Samples.out3 = None ∧
  FECEncoder.BuildFECChunks_loop 3 Samples.e_null 0 = Some (false, Samples.e_null).
Proof. by vm_compute. Qed.


(** * Further properties of the code *)

(** ** Chunk counts *)

(** X1. Below the wrap-around, [DIV_CEIL(a, FEC_CHUNK_SIZE)] chunks are the
    fewest that hold [a] bytes; a size whose sum with the chunk size wraps
    around gives [0] chunks. *)
Theorem DIV_CEIL_ceiling a :
  a < SIZE_MOD →
  let k := DIV_CEIL a FEC_CHUNK_SIZE in
  (a + FEC_CHUNK_SIZE ≤ SIZE_MOD →
     a ≤ k * FEC_CHUNK_SIZE ∧ k * FEC_CHUNK_SIZE < a + FEC_CHUNK_SIZE ∧
     (k = 0 ↔ a = 0) ∧ (k < 2 ↔ a ≤ FEC_CHUNK_SIZE)) ∧
  (SIZE_MOD < a + FEC_CHUNK_SIZE → k = 0).
Proof.
  intros Ha k. split.
  - intros Hs. subst k. rewrite DIV_CEIL_small by done.
    pose proof (N.Div0.mul_div_le (a + 1151) 1152) as Hle.
    pose proof (N.mul_succ_div_gt (a + 1151) 1152 ltac:(lia)) as Hgt.
    unfold FEC_CHUNK_SIZE. repeat split; nia.
  - intros Hw. by apply DIV_CEIL_wrap.
Qed.

Lemma DIV_CEIL_ceiling_witness :
  2500 ≤ DIV_CEIL 2500 FEC_CHUNK_SIZE * FEC_CHUNK_SIZE ∧
  DIV_CEIL 2500 FEC_CHUNK_SIZE * FEC_CHUNK_SIZE < 2500 + FEC_CHUNK_SIZE.
Proof.
  destruct (DIV_CEIL_ceiling 2500 ltac:(by vm_compute)) as [H _].
  destruct (H ltac:(by vm_compute)) as (H1 & H2 & _). by split.
Defined.

(** ** More on the decode session *)
Section DecoderMore.
Context {codec : wh256}.
Import FECDecoder.

Implicit Types (d : FECDecoder.t) (chunk : FECChunkType) (chunk_id : N).

(** What the constructor leaves. *)
Lemma FECDecoder_fresh tmp0 data_size chunks_provided prng_seed d0 :
  FECDecoder tmp0 data_size chunks_provided prng_seed = Some d0 →
  chunk_count d0 = DIV_CEIL data_size FEC_CHUNK_SIZE ∧
  chunks_recvd d0 = 0 ∧ chunks_sent d0 = chunks_provided ∧
  decodeComplete d0 = false ∧ tmp_chunk d0 = tmp0 ∧
  chunk_recvd_flags d0 = replicate (N.to_nat chunks_provided) false ∧
  (chunk_count d0 < 2 → state d0 = wh256_NULL) ∧
  (2 ≤ chunk_count d0 →
     state d0 = wh256_decoder_init wh256_NULL data_size FEC_CHUNK_SIZE ∧
     wh256_is_null (state d0) = false).
Proof.
  unfold FECDecoder. intros H.
  destruct (N.ltb_spec (DIV_CEIL data_size FEC_CHUNK_SIZE) 2) as [Hlt|Hge].
  - injection H as <-. simpl. repeat split; try done; lia.
  - destruct (wh256_is_null _) eqn:Hnull; [done|]. injection H as <-. simpl.
    repeat split; try done; lia.
Qed.

Lemma ProvideChunk_out_of_range d chunk chunk_id :
  chunks_sent d ≤ chunk_id → ProvideChunk d chunk chunk_id = None.
Proof.
  intros H. unfold ProvideChunk.
  by destruct (N.ltb_spec chunk_id (chunks_sent d)); [lia|].
Qed.

Lemma HasChunk_returns d chunk_id :
  wf d → chunk_id < chunks_sent d → is_Some (HasChunk d chunk_id).
Proof.
  intros Hwf Hlt. unfold HasChunk.
  destruct (N.ltb_spec chunk_id (chunks_sent d)); [|lia]. simpl.
  destruct (decodeComplete d); [done|]. apply vget_is_Some. by rewrite Hwf.
Qed.

(** X2. On a session reached from the constructor by any calls, the chunk
    count and the id range are the ones of the construction, and
    [ProvideChunk] and [HasChunk] abort exactly for an id out of range:
    no call ever reaches outside the flag vector. *)
Theorem calls_abort_only_out_of_range
    tmp0 data_size chunks_provided prng_seed d0 cs d chunk chunk_id :
  FECDecoder tmp0 data_size chunks_provided prng_seed = Some d0 →
  run d0 cs = Some d →
  chunks_sent d = chunks_provided ∧
  chunk_count d = DIV_CEIL data_size FEC_CHUNK_SIZE ∧
  (ProvideChunk d chunk chunk_id = None ↔ chunks_provided ≤ chunk_id) ∧
  (HasChunk d chunk_id = None ↔ chunks_provided ≤ chunk_id).
Proof.
  intros Hctor Hrun.
  destruct (FECDecoder_fresh _ _ _ _ _ Hctor) as (Hk & _ & Hs & _).
  pose proof (run_wf _ _ _ Hrun (FECDecoder_wf _ _ _ _ _ Hctor)) as Hwf.
  destruct (run_preserves _ _ _ Hrun) as (Hs' & Hk' & _).
  split; [congruence|]. split; [congruence|].
  rewrite <- Hs, <- Hs'. split; split.
  - intros Hnone. destruct (N.le_gt_cases (chunks_sent d) chunk_id) as [|Hlt]; [done|].
    destruct (ProvideChunk_returns d chunk chunk_id Hwf Hlt) as [d' Hd']. congruence.
  - apply ProvideChunk_out_of_range.
  - intros Hnone. destruct (N.le_gt_cases (chunks_sent d) chunk_id) as [|Hlt]; [done|].
    destruct (HasChunk_returns d chunk_id Hwf Hlt) as [b Hb]. congruence.
  - intros Hge. unfold HasChunk.
    by destruct (N.ltb_spec chunk_id (chunks_sent d)); [lia|].
Qed.

End DecoderMore.

Lemma calls_abort_only_out_of_range_witness :
  FECDecoder.ProvideChunk Samples.d_pair_done Samples.chunkA 7 = None ↔ 5 ≤ 7.
Proof.
  apply (calls_abort_only_out_of_range (codec := RefCodec.codec) [] 2304 5 0
           Samples.d_pair
           [FECDecoder.CallProvideChunk Samples.chunkA 4;
            FECDecoder.CallProvideChunk Samples.chunkB 1]
           Samples.d_pair_done Samples.chunkA 7); reflexivity.
Defined.

(** ** The received counter and the recorded ids *)
Section Counter.
Context {codec : wh256}.
Import FECDecoder.

Implicit Types (d : FECDecoder.t) (chunk : FECChunkType) (chunk_id : N).

Lemma flags_set_le (flags : list bool) : (flags_set flags ≤ length flags)%nat.
Proof. unfold flags_set. apply length_filter. Qed.

Lemma flags_set_replicate n : flags_set (replicate n false) = 0%nat.
Proof.
  unfold flags_set. induction n as [|n IH]; [done|]. simpl.
  rewrite filter_cons_False by done. exact IH.
Qed.

(** Setting a clear flag adds one to the number of set flags. *)
Lemma flags_set_insert (flags : list bool) (i : nat) :
  flags !! i = Some false → flags_set (<[i:=true]> flags) = S (flags_set flags).
Proof.
  unfold flags_set. revert i. induction flags as [|b flags IH]; intros i Hi; [done|].
  destruct i as [|i]; simpl in *.
  - injection Hi as ->. by rewrite filter_cons_False by done.
  - destruct b.
    + rewrite !filter_cons_True by done. simpl. by rewrite IH.
    + rewrite !filter_cons_False by done. by apply IH.
Qed.

Lemma counter_inv_init tmp0 data_size chunks_provided prng_seed d0 :
  chunks_provided < SIZE_MOD →
  FECDecoder tmp0 data_size chunks_provided prng_seed = Some d0 →
  counter_inv d0 ∅.
Proof.
  intros Hn Hctor. pose proof (FECDecoder_wf _ _ _ _ _ Hctor) as Hwf.
  destruct (FECDecoder_fresh _ _ _ _ _ Hctor) as (_ & Hr & Hs & Hc & _ & Hf & _).
  split; [done|]. split; [by rewrite Hs|]. split.
  { by rewrite Hr, Hf, flags_set_replicate. }
  split; [|congruence]. intros _. split; [|by rewrite Hr].
  intros i. rewrite Hf. unfold vget. split; [|set_solver].
  intros Hi. by apply lookup_replicate in Hi as [? _].
Qed.

Local Arguments flags_set : simpl never.
Local Arguments size_add : simpl never.

Lemma counter_inv_step d S chunk chunk_id :
  counter_inv d S → chunk_id < chunks_sent d →
  ∃ d', ProvideChunk d chunk chunk_id = Some (true, d') ∧
        chunks_sent d' = chunks_sent d ∧ counter_inv d' ({[chunk_id]} ∪ S).
Proof.
  intros (Hwf & Hmax & Hcount & Hopen & Hdone) Hlt.
  destruct (ProvideChunk_returns d chunk chunk_id Hwf Hlt) as [d' Hp].
  exists d'. split; [done|].
  pose proof (ProvideChunk_wf _ _ _ _ _ Hp Hwf) as Hwf'.
  destruct (ProvideChunk_marks _ _ _ _ _ Hp) as [Hs _]. split; [done|].
  assert (Hgrow : (size S ≤ size ({[chunk_id]} ∪ S))%nat)
    by (apply subseteq_size; set_solver).
  destruct (ProvideChunk_cases _ _ _ _ Hp) as [_ Hpath].
  inversion Hpath as [Hc Heq|Hc Hf Heq|Hc Hf Hn Heq|st r Hc Hf Hn Hr Heq].
  - subst d'. split; [done|]. split; [done|]. split; [done|].
    split; [congruence|]. intros _. specialize (Hdone Hc). lia.
  - subst d'. destruct (Hopen Hc) as [Hflags Hsize].
    assert (Hin : chunk_id ∈ S) by by apply Hflags.
    replace ({[chunk_id]} ∪ S) with S by set_solver.
    split; [done|]. split; [done|]. split; [done|]. split; [done|]. congruence.
  - (* a new id, fewer than two chunks *)
    destruct (Hopen Hc) as [Hflags Hsize].
    assert (Hnotin : chunk_id ∉ S) by (intros Hin; apply Hflags in Hin; congruence).
    assert (Hnew : flags_set (vset (chunk_recvd_flags d) chunk_id true)
                   = Datatypes.S (flags_set (chunk_recvd_flags d)))
      by by apply flags_set_insert.
    assert (Hbound : (flags_set (vset (chunk_recvd_flags d) chunk_id true)
                      ≤ length (chunk_recvd_flags d))%nat).
    { etrans; [apply flags_set_le|]. unfold vset. by rewrite length_insert. }
    assert (Hadd : size_add (chunks_recvd d) 1 = chunks_recvd d + 1).
    { apply size_add_small. unfold wf, vsize in Hwf. lia. }
    assert (Hsz : size ({[chunk_id]} ∪ S) = Datatypes.S (size S)).
    { rewrite size_union by set_solver. by rewrite size_singleton. }
    subst d'. unfold counter_inv. simpl. split; [done|]. split; [done|].
    split; [rewrite Hadd, Hnew; lia|]. split; [done|].
    intros _. rewrite Hadd, Hsz. lia.
  - destruct (Hopen Hc) as [Hflags Hsize].
    assert (Hnotin : chunk_id ∉ S) by (intros Hin; apply Hflags in Hin; congruence).
    assert (Hnew : flags_set (vset (chunk_recvd_flags d) chunk_id true)
                   = Datatypes.S (flags_set (chunk_recvd_flags d)))
      by by apply flags_set_insert.
    assert (Hbound : (flags_set (vset (chunk_recvd_flags d) chunk_id true)
                      ≤ length (chunk_recvd_flags d))%nat).
    { etrans; [apply flags_set_le|]. unfold vset. by rewrite length_insert. }
    assert (Hadd : size_add (chunks_recvd d) 1 = chunks_recvd d + 1).
    { apply size_add_small. unfold wf, vsize in Hwf. lia. }
    assert (Hsz : size ({[chunk_id]} ∪ S) = Datatypes.S (size S)).
    { rewrite size_union by set_solver. by rewrite size_singleton. }
    subst d'. unfold counter_inv. simpl. split; [done|]. split; [done|].
    split; [rewrite Hadd, Hnew; lia|]. split.
    + intros Hopen'. split; [|rewrite Hadd, Hsz; lia].
      intros i. destruct (decide (chunk_id = i)) as [->|Hne].
      * rewrite (vget_vset_eq _ _ _ _ Hf). set_solver.
      * rewrite vget_vset_ne by done. rewrite Hflags. set_solver.
    + intros _. rewrite Hadd, Hsz. lia.
Qed.

Lemma counter_inv_run cs : ∀ d S,
  counter_inv d S → Forall (λ c, c.2 < chunks_sent d) cs →
  ∃ d', ProvideChunks d cs = Some d' ∧ chunks_sent d' = chunks_sent d ∧
        counter_inv d' (list_to_set cs.*2 ∪ S).
Proof.
  induction cs as [|[chunk chunk_id] cs IH]; intros d S Hinv Hall; simpl.
  - exists d. split; [done|]. split; [done|]. by rewrite (left_id_L ∅ (∪)).
  - apply Forall_cons in Hall as [Hlt Hall]. simpl in Hlt.
    destruct (counter_inv_step d S chunk chunk_id Hinv Hlt) as (d1 & Hp & Hs & Hinv1).
    rewrite Hp. rewrite <- Hs in Hall.
    destruct (IH d1 _ Hinv1 Hall) as (d' & Hrun & Hs' & Hinv').
    exists d'. split; [done|]. split; [congruence|].
    eapply (eq_rect _ (counter_inv d') Hinv'). set_solver.
Qed.

(** X3. On a session fed any sequence of chunks with ids within range, every
    [ProvideChunk] returns, and [GetChunksRcvd] is the number of set flags,
    never more than the number of chunk ids and never more than the number
    of distinct ids provided; until completion it is exactly the number of
    distinct ids provided, and a complete session has received at least one
    chunk.  The counter never wraps. *)
Theorem chunks_recvd_counts_distinct tmp0 data_size chunks_provided prng_seed d0 cs :
  chunks_provided < SIZE_MOD →
  FECDecoder tmp0 data_size chunks_provided prng_seed = Some d0 →
  Forall (λ c, c.2 < chunks_provided) cs →
  ∃ d, ProvideChunks d0 cs = Some d ∧
       GetChunksRcvd d = N.of_nat (flags_set (chunk_recvd_flags d)) ∧
       GetChunksRcvd d ≤ chunks_provided ∧
       GetChunksRcvd d ≤ N.of_nat (size (list_to_set cs.*2 : gset N)) ∧
       (DecodeReady d = false →
          GetChunksRcvd d = N.of_nat (size (list_to_set cs.*2 : gset N))) ∧
       (DecodeReady d = true → 1 ≤ GetChunksRcvd d).
Proof.
  intros Hn Hctor Hall.
  pose proof (counter_inv_init _ _ _ _ _ Hn Hctor) as Hinv.
  destruct (FECDecoder_fresh _ _ _ _ _ Hctor) as (_ & _ & Hs & _).
  rewrite <- Hs in Hall.
  destruct (counter_inv_run cs d0 ∅ Hinv Hall) as (d & Hrun & Hs' & Hinv').
  exists d. split; [done|].
  rewrite (right_id_L ∅ (∪)) in Hinv'.
  destruct Hinv' as (Hwf & _ & Hcount & Hopen & Hdone).
  unfold GetChunksRcvd, DecodeReady. split; [done|]. split.
  { rewrite Hcount. pose proof (flags_set_le (chunk_recvd_flags d)).
    unfold wf, vsize in Hwf. lia. }
  destruct (decodeComplete d).
  - destruct (Hdone eq_refl). repeat split; try done.
  - destruct (Hopen eq_refl) as [_ Heq]. rewrite Heq. repeat split; try done.
Qed.

(** X4. Until completion, on a session fed any sequence of chunks with ids
    within range, [HasChunk] tells for every id within range exactly whether
    the id was among those provided. *)
Theorem HasChunk_open_exact tmp0 data_size chunks_provided prng_seed d0 cs chunk_id :
  chunks_provided < SIZE_MOD →
  FECDecoder tmp0 data_size chunks_provided prng_seed = Some d0 →
  Forall (λ c, c.2 < chunks_provided) cs →
  chunk_id < chunks_provided →
  ∃ d, ProvideChunks d0 cs = Some d ∧
       (DecodeReady d = false →
          HasChunk d chunk_id = Some (bool_decide (chunk_id ∈ cs.*2))).
Proof.
  intros Hn Hctor Hall Hid.
  pose proof (counter_inv_init _ _ _ _ _ Hn Hctor) as Hinv.
  destruct (FECDecoder_fresh _ _ _ _ _ Hctor) as (_ & _ & Hs & _).
  rewrite <- Hs in Hall.
  destruct (counter_inv_run cs d0 ∅ Hinv Hall) as (d & Hrun & Hs' & Hinv').
  exists d. split; [done|].
  rewrite (right_id_L ∅ (∪)) in Hinv'.
  destruct Hinv' as (Hwf & _ & _ & Hopen & _).
  unfold DecodeReady. intros Hc. destruct (Hopen Hc) as [Hflags _].
  unfold HasChunk. destruct (N.ltb_spec chunk_id (chunks_sent d)); [|lia].
  simpl. rewrite Hc.
  destruct (vget_is_Some (chunk_recvd_flags d) chunk_id) as [b Hb]; [by rewrite Hwf|].
  rewrite Hb. f_equal. specialize (Hflags chunk_id).
  rewrite elem_of_list_to_set in Hflags.
  destruct b.
  - symmetry. apply bool_decide_eq_true_2. by apply Hflags.
  - symmetry. apply bool_decide_eq_false_2. intros Hin. apply Hflags in Hin. congruence.
Qed.

End Counter.

Lemma chunks_recvd_counts_distinct_witness :
  let cs := [(Samples.chunkA, 4); (Samples.chunkA, 4)] in
  ∃ d, FECDecoder.ProvideChunks Samples.d_pair cs = Some d ∧
       (FECDecoder.DecodeReady d = false →
          FECDecoder.GetChunksRcvd d = N.of_nat (size (list_to_set cs.*2 : gset N))).
Proof.
  intros cs.
  destruct (chunks_recvd_counts_distinct (codec := RefCodec.codec) [] 2304 5 0
              Samples.d_pair cs) as (d & Hrun & _ & _ & _ & Hopen & _).
  - by vm_compute.
  - reflexivity.
  - repeat constructor.
  - by exists d.
Defined.

Lemma HasChunk_open_exact_witness :
  let cs := [(Samples.chunkA, 4); (Samples.chunkA, 4)] in
  ∃ d, FECDecoder.ProvideChunks Samples.d_pair cs = Some d ∧
       (FECDecoder.DecodeReady d = false →
          FECDecoder.HasChunk d 3 = Some (bool_decide (3 ∈ cs.*2))).
Proof.
  intros cs.
  apply (HasChunk_open_exact (codec := RefCodec.codec) [] 2304 5 0 Samples.d_pair cs 3).
  - by vm_compute.
  - reflexivity.
  - repeat constructor.
  - reflexivity.
Defined.

(** ** The calls of the primitive's decoder *)
Section DecoderReads.
Context {codec : wh256}.
Import FECDecoder.

Implicit Types (d : FECDecoder.t) (chunk : FECChunkType) (chunk_id : N).

(** [ProvideChunk_read] is the call [ProvideChunk] makes: where it gives an
    id, the handle and the completion flag are those the primitive returned
    for that id; where it gives none, the handle is untouched. *)
Lemma ProvideChunk_read_spec d chunk chunk_id r d' :
  ProvideChunk d chunk chunk_id = Some (r, d') →
  match ProvideChunk_read d chunk chunk_id with
  | Some i =>
    i = chunk_id ∧ decodeComplete d = false ∧ 2 ≤ chunk_count d ∧
    vget (chunk_recvd_flags d) chunk_id = Some false ∧
    state d' = (wh256_decoder_read (state d) chunk_id chunk).1 ∧
    decodeComplete d' = bool_decide ((wh256_decoder_read (state d) chunk_id chunk).2 = 0%Z)
  | None => state d' = state d
  end.
Proof.
  intros H. destruct (ProvideChunk_cases _ _ _ _ H) as [Hlt Hp].
  unfold ProvideChunk_read.
  destruct (N.ltb_spec chunk_id (chunks_sent d)); [|lia]. simpl.
  inversion Hp as [Hc Heq|Hc Hf Heq|Hc Hf Hn Heq|st r0 Hc Hf Hn Hr Heq]; subst.
  - by rewrite Hc.
  - by rewrite Hc, Hf.
  - rewrite Hc, Hf. by destruct (N.ltb_spec (chunk_count d) 2); [|lia].
  - rewrite Hc, Hf. destruct (N.ltb_spec (chunk_count d) 2); [lia|].
    simpl. by rewrite Hr.
Qed.

(** An id whose flag is set is not passed to the primitive again. *)
Lemma decoder_reads_skip_recorded cs : ∀ d i,
  vget (chunk_recvd_flags d) i = Some true → i ∉ decoder_reads d cs.
Proof.
  induction cs as [|[chunk chunk_id] cs IH]; intros d i Hi; simpl; [set_solver|].
  destruct (ProvideChunk d chunk chunk_id) as [[r d']|] eqn:Hp; [|set_solver].
  assert (Hi' : vget (chunk_recvd_flags d') i = Some true).
  { assert (Hex : exec d (CallProvideChunk chunk chunk_id) = Some d')
      by (simpl; by rewrite Hp).
    by apply (exec_preserves _ _ _ Hex). }
  pose proof (ProvideChunk_read_spec _ _ _ _ _ Hp) as Hspec.
  destruct (ProvideChunk_read d chunk chunk_id) as [j|].
  - destruct Hspec as (-> & _ & _ & Hf & _).
    apply not_elem_of_cons. split; [congruence|by apply IH].
  - by apply IH.
Qed.

Lemma decoder_reads_complete cs : ∀ d,
  decodeComplete d = true → decoder_reads d cs = [].
Proof.
  induction cs as [|[chunk chunk_id] cs IH]; intros d Hc; simpl; [done|].
  destruct (ProvideChunk d chunk chunk_id) as [[r d']|] eqn:Hp; [|done].
  destruct (ProvideChunk_cases _ _ _ _ Hp) as [Hlt _].
  rewrite ProvideChunk_complete in Hp by done. injection Hp as <- <-.
  unfold ProvideChunk_read. destruct (negb _); [by apply IH|].
  rewrite Hc. by apply IH.
Qed.

(** Below two chunks nothing is passed to the primitive. *)
Lemma decoder_reads_single cs : ∀ d,
  chunk_count d < 2 → decoder_reads d cs = [].
Proof.
  induction cs as [|[chunk chunk_id] cs IH]; intros d Hk; simpl; [done|].
  destruct (ProvideChunk d chunk chunk_id) as [[r d']|] eqn:Hp; [|done].
  assert (Hk' : chunk_count d' = chunk_count d).
  { assert (Hex : exec d (CallProvideChunk chunk chunk_id) = Some d')
      by (simpl; by rewrite Hp).
    by apply (exec_preserves _ _ _ Hex). }
  pose proof (ProvideChunk_read_spec _ _ _ _ _ Hp) as Hspec.
  destruct (ProvideChunk_read d chunk chunk_id) as [j|].
  - destruct Hspec as (_ & _ & Hge & _). lia.
  - apply IH. by rewrite Hk'.
Qed.

(** X5. While any sequence of chunks is fed to a session, [ProvideChunk]
    passes no chunk id to [wh256_decoder_read] twice, passes only ids whose
    chunk was provided, and passes none once the session is complete or when
    the object has fewer than two chunks. *)
Theorem decoder_reads_once d cs :
  NoDup (decoder_reads d cs) ∧
  (∀ i, i ∈ decoder_reads d cs → i ∈ cs.*2 ∧ i < chunks_sent d) ∧
  (decodeComplete d = true → decoder_reads d cs = []) ∧
  (chunk_count d < 2 → decoder_reads d cs = []).
Proof.
  split; [|split; [|split]].
  - revert d. induction cs as [|[chunk chunk_id] cs IH]; intros d; simpl.
    { constructor. }
    destruct (ProvideChunk d chunk chunk_id) as [[r d']|] eqn:Hp; [|constructor].
    pose proof (ProvideChunk_read_spec _ _ _ _ _ Hp) as Hspec.
    destruct (ProvideChunk_read d chunk chunk_id) as [j|]; [|apply IH].
    destruct Hspec as (-> & _).
    constructor; [|apply IH].
    destruct (ProvideChunk_marks _ _ _ _ _ Hp) as [_ [Hc|Hf]].
    + rewrite (decoder_reads_complete cs d' Hc). apply not_elem_of_nil.
    + by apply decoder_reads_skip_recorded.
  - revert d. induction cs as [|[chunk chunk_id] cs IH]; intros d i; simpl.
    { set_solver. }
    destruct (ProvideChunk d chunk chunk_id) as [[r d']|] eqn:Hp; [|set_solver].
    destruct (ProvideChunk_cases _ _ _ _ Hp) as [Hlt _].
    destruct (ProvideChunk_marks _ _ _ _ _ Hp) as [Hs _].
    pose proof (ProvideChunk_read_spec _ _ _ _ _ Hp) as Hspec.
    destruct (ProvideChunk_read d chunk chunk_id) as [j|].
    + destruct Hspec as (-> & _). rewrite elem_of_cons. intros [->|Hin].
      * split; [set_solver|done].
      * destruct (IH d' i Hin) as [? ?]. split; [set_solver|congruence].
    + intros Hin. destruct (IH d' i Hin) as [? ?]. split; [set_solver|congruence].
  - apply decoder_reads_complete.
  - apply decoder_reads_single.
Qed.

(** X6. For an object of fewer than two chunks the first chunk provided
    decides: whatever chunks follow, the session stays complete with one
    chunk received, its scratch chunk holds the first [FEC_CHUNK_SIZE] bytes
    of the first chunk, which [GetDataPtr(0)] returns for a one-chunk object
    without changing the session, and its handle is null. *)
Theorem single_chunk_first_wins
    tmp0 data_size chunks_provided prng_seed d0 chunk chunk_id cs :
  FECDecoder tmp0 data_size chunks_provided prng_seed = Some d0 →
  chunk_count d0 < 2 → chunk_id < chunks_provided →
  Forall (λ c, c.2 < chunks_provided) cs →
  ∃ d, ProvideChunks d0 ((chunk, chunk_id) :: cs) = Some d ∧
       DecodeReady d = true ∧ GetChunksRcvd d = 1 ∧
       tmp_chunk d = take (N.to_nat FEC_CHUNK_SIZE) chunk ∧
       state d = wh256_NULL ∧
       (chunk_count d0 = 1 →
          GetDataPtr d 0 = Some (take (N.to_nat FEC_CHUNK_SIZE) chunk, d)).
Proof.
  intros Hctor Hk Hid Hall.
  destruct (FECDecoder_fresh _ _ _ _ _ Hctor) as (_ & Hr & Hs & Hc & _ & Hf & Hnull & _).
  assert (Hget : vget (chunk_recvd_flags d0) chunk_id = Some false).
  { rewrite Hf. unfold vget. apply lookup_replicate_2. lia. }
  set (d1 := mk (take (N.to_nat FEC_CHUNK_SIZE) chunk) (chunk_count d0)
               (size_add (chunks_recvd d0) 1) (chunks_sent d0) true
               (vset (chunk_recvd_flags d0) chunk_id true) (state d0)).
  assert (Hp : ProvideChunk d0 chunk chunk_id = Some (true, d1)).
  { unfold ProvideChunk. destruct (N.ltb_spec chunk_id (chunks_sent d0)); [|lia].
    simpl. rewrite Hc, Hget. by destruct (N.ltb_spec (chunk_count d0) 2); [|lia]. }
  assert (Hrest : ∀ l, Forall (λ c, c.2 < chunks_provided) l → ProvideChunks d1 l = Some d1).
  { induction l as [|[c i] l IH]; intros Hl; [done|].
    apply Forall_cons in Hl as [Hi Hl]. simpl in *.
    rewrite ProvideChunk_complete by (done || (simpl; lia)). by apply IH. }
  exists d1. simpl. rewrite Hp, (Hrest cs Hall).
  split; [done|]. split; [done|]. split; [subst d1; simpl; by rewrite Hr|].
  split; [done|]. split; [by apply Hnull|].
  intros H1. unfold GetDataPtr, DecodeReady. simpl. by rewrite H1.
Qed.

(** X7. A session for an object of fewer than two chunks never uses the
    primitive: through any calls its handle stays null, feeding it chunks
    passes nothing to [wh256_decoder_read], and its destructor frees
    nothing. *)
Theorem single_chunk_never_uses_codec tmp0 data_size chunks_provided prng_seed d0 calls d :
  null_is_null →
  FECDecoder tmp0 data_size chunks_provided prng_seed = Some d0 →
  chunk_count d0 < 2 → run d0 calls = Some d →
  state d = wh256_NULL ∧ destructor d = None ∧ ∀ cs, decoder_reads d cs = [].
Proof.
  intros Hnull Hctor Hk Hrun.
  destruct (FECDecoder_fresh _ _ _ _ _ Hctor) as (_ & _ & _ & _ & _ & _ & Hst & _).
  specialize (Hst Hk).
  assert (Hkeep : ∀ cs d1 d2, chunk_count d1 < 2 → run d1 cs = Some d2 →
                    state d2 = state d1 ∧ chunk_count d2 = chunk_count d1).
  { induction cs as [|c cs IH]; intros d1 d2 Hk1; simpl; [by intros [= ->]|].
    destruct (exec d1 c) as [d3|] eqn:Hex; [|done]. intros Hr.
    assert (H3 : state d3 = state d1 ∧ chunk_count d3 = chunk_count d1).
    { destruct (exec_preserves _ _ _ Hex) as (_ & Hk3 & _). split; [|done].
      destruct c as [chunk chunk_id|chunk_id| |chunk_id]; simpl in Hex.
      - destruct (ProvideChunk d1 chunk chunk_id) as [[r d4]|] eqn:Hp; [|done].
        injection Hex as ->. pose proof (ProvideChunk_read_spec _ _ _ _ _ Hp) as Hs.
        destruct (ProvideChunk_read d1 chunk chunk_id); [|done].
        destruct Hs as (_ & _ & ? & _). lia.
      - destruct (HasChunk d1 chunk_id); [|done]. by injection Hex as ->.
      - by injection Hex as ->.
      - unfold GetDataPtr in Hex.
        destruct (negb (DecodeReady d1)); [done|].
        destruct (negb (chunk_id <? chunk_count d1)); [done|].
        destruct (N.leb_spec 2 (chunk_count d1)); [lia|].
        simpl in Hex. by injection Hex as ->. }
    destruct H3 as [Hs3 Hk3].
    destruct (IH d3 d2 ltac:(lia) Hr) as [? ?]. split; congruence. }
  destruct (Hkeep calls d0 d Hk Hrun) as [Hs Hk'].
  split; [congruence|]. split.
  - unfold destructor. rewrite Hs, Hst. by rewrite Hnull.
  - intros cs. apply decoder_reads_single. lia.
Qed.

End DecoderReads.

Lemma decoder_reads_once_witness :
  NoDup (FECDecoder.decoder_reads Samples.d_pair
           [(Samples.chunkA, 4); (Samples.chunkA, 4); (Samples.chunkB, 1);
            (Samples.chunkA, 0)]) ∧
  FECDecoder.decoder_reads Samples.d_pair_done [(Samples.chunkA, 0)] = [].
Proof.
  split.
  - apply (decoder_reads_once Samples.d_pair).
  - destruct (decoder_reads_once Samples.d_pair_done [(Samples.chunkA, 0)])
      as (_ & _ & Hdone & _).
    apply Hdone. reflexivity.
Defined.

Lemma single_chunk_first_wins_witness :
  ∃ d, FECDecoder.ProvideChunks Samples.d_single
         [(Samples.chunkA, 2); (Samples.chunkB, 0); (Samples.chunkB, 2)] = Some d ∧
       FECDecoder.GetDataPtr d 0 = Some (Samples.chunkA, d).
Proof.
  destruct (single_chunk_first_wins (codec := RefCodec.codec) [] 100 3 0
              Samples.d_single Samples.chunkA 2
              [(Samples.chunkB, 0); (Samples.chunkB, 2)])
    as (d & Hrun & _ & _ & _ & _ & Hget); try reflexivity.
  - repeat constructor.
  - exists d. split; [exact Hrun|]. exact (Hget eq_refl).
Defined.

Lemma single_chunk_never_uses_codec_witness :
  ∃ d, FECDecoder.run Samples.d_single
         [FECDecoder.CallProvideChunk Samples.chunkA 1; FECDecoder.CallGetDataPtr 0]
       = Some d ∧
       FECDecoder.destructor d = None.
Proof.
  eexists. split; [reflexivity|].
  eapply (single_chunk_never_uses_codec (codec := RefCodec.codec) [] 100 3 0
            Samples.d_single
            [FECDecoder.CallProvideChunk Samples.chunkA 1; FECDecoder.CallGetDataPtr 0]);
    reflexivity.
Defined.

(** ** Move assignment, destruction, and sizes that wrap *)
Section DecoderOwnership.
Context {codec : wh256}.
Import FECDecoder.

Implicit Types (d this decoder : FECDecoder.t).

(** X8. After [this = std::move(decoder)] the target is the source as it
    was, so every later call answers as it would have on the source; the
    source's handle is owned by the target alone: destroying both frees it
    once, the source's destructor frees nothing, and the handle the target
    held before is freed by neither.  A source whose move left its flag
    vector empty and whose decoding was not complete aborts every
    [ProvideChunk]. *)
Theorem operator_assign_transfers this decoder moved_from :
  null_is_null →
  let this' := (operator_assign this decoder moved_from).1 in
  let decoder' := (operator_assign this decoder moved_from).2 in
  this' = decoder ∧
  (∀ cs, run this' cs = run decoder cs) ∧
  destructor this' = destructor decoder ∧
  destructor decoder' = None ∧
  (∀ h, destructor this = Some h → h ≠ state decoder →
        destructor this' ≠ Some h ∧ destructor decoder' ≠ Some h) ∧
  (moved_from = [] → decodeComplete decoder = false →
     ∀ chunk chunk_id, ProvideChunk decoder' chunk chunk_id = None).
Proof.
  intros Hnull this' decoder'.
  assert (Heq : this' = decoder) by (subst this'; by destruct decoder).
  assert (Hfree : destructor decoder' = None).
  { subst decoder'. unfold destructor. simpl. by rewrite Hnull. }
  split; [done|]. split; [by rewrite Heq|]. split; [by rewrite Heq|].
  split; [done|]. split.
  - intros h Hh Hne. split; [|by rewrite Hfree].
    rewrite Heq. unfold destructor. destruct (wh256_is_null (state decoder)); [done|].
    intros [= ?]. congruence.
  - intros -> Hc chunk chunk_id. subst decoder'. unfold ProvideChunk. simpl.
    destruct (negb _); [done|]. by rewrite Hc.
Qed.

(** X9. A declared size within [FEC_CHUNK_SIZE] of the top of [size_t]
    wraps in [DIV_CEIL]: the constructor builds a session of no chunks
    with a null handle, the first chunk with an id within range completes
    it, and [GetDataPtr] fails for every index. *)
Theorem huge_size_wraps tmp0 data_size chunks_provided prng_seed chunk chunk_id :
  SIZE_MOD - FEC_CHUNK_SIZE < data_size → data_size < SIZE_MOD →
  chunk_id < chunks_provided →
  ∃ d0 d1,
    FECDecoder tmp0 data_size chunks_provided prng_seed = Some d0 ∧
    chunk_count d0 = 0 ∧ state d0 = wh256_NULL ∧
    ProvideChunk d0 chunk chunk_id = Some (true, d1) ∧
    DecodeReady d1 = true ∧ ∀ i, GetDataPtr d1 i = None.
Proof.
  intros Hlo Hhi Hid.
  assert (Hk : DIV_CEIL data_size FEC_CHUNK_SIZE = 0).
  { apply DIV_CEIL_wrap; [done|]. pose proof SIZE_MOD_eq.
    unfold FEC_CHUNK_SIZE in *. lia. }
  unfold FECDecoder. rewrite Hk. simpl.
  eexists. eexists. split; [done|]. split; [done|]. split; [done|].
  unfold ProvideChunk. simpl.
  destruct (N.ltb_spec chunk_id chunks_provided); [|lia]. simpl.
  unfold vget. rewrite lookup_replicate_2 by lia.
  split; [done|]. split; [done|]. intros i.
  unfold GetDataPtr, DecodeReady. simpl.
  by destruct (N.ltb_spec i 0); [lia|].
Qed.

End DecoderOwnership.

Lemma RefCodec_null_is_null : null_is_null (codec := RefCodec.codec).
Proof. reflexivity. Qed.

Lemma operator_assign_transfers_witness :
  (FECDecoder.operator_assign Samples.d_single Samples.d_pair_done []).1
  = Samples.d_pair_done ∧
  FECDecoder.destructor
    (FECDecoder.operator_assign Samples.d_single Samples.d_pair_done []).2 = None.
Proof.
  destruct (operator_assign_transfers (codec := RefCodec.codec)
              Samples.d_single Samples.d_pair_done [] RefCodec_null_is_null)
    as (H1 & _ & _ & H2 & _).
  by split.
Defined.

Lemma huge_size_wraps_witness :
  ∃ d0 d1,
    FECDecoder.FECDecoder (codec := RefCodec.codec) [] (SIZE_MOD - 1) 4 0 = Some d0 ∧
    FECDecoder.chunk_count d0 = 0 ∧
    FECDecoder.ProvideChunk d0 Samples.chunkA 3 = Some (true, d1) ∧
    FECDecoder.DecodeReady d1 = true.
Proof.
  destruct (huge_size_wraps (codec := RefCodec.codec) [] (SIZE_MOD - 1) 4 0
              Samples.chunkA 3) as (d0 & d1 & H0 & Hk & _ & Hp & Hr & _);
    try (by vm_compute).
  by exists d0, d1.
Defined.

(** ** The tracker as a set *)
Section TrackerSet.
Context {ohs : open_hash_set.ops}.
Import BlockChunkRecvdTracker.

Hypothesis set_ok : set_contract.

Implicit Types (tr : BlockChunkRecvdTracker.t) (chunk_id : N).

(** X10. After any sequence of marks of ids of the dense range or non-null
    ids of the sparse range, [CheckPresent] answers for such an id exactly
    whether it was recorded before or is among the ids marked: marks neither
    lose an id nor invent one, in either range. *)
Theorem tracker_is_a_set ids : ∀ tr chunk_id,
  Forall (valid_id tr) ids → valid_id tr chunk_id →
  CheckPresent (mark_all tr ids) chunk_id
  = CheckPresent tr chunk_id || bool_decide (chunk_id ∈ ids).
Proof.
  induction ids as [|i ids IH]; intros tr chunk_id Hall Hv.
  - rewrite (bool_decide_eq_false_2 (chunk_id ∈ [])) by apply not_elem_of_nil.
    by rewrite orb_false_r.
  - apply Forall_cons in Hall as [Hi Hall].
    change (mark_all tr (i :: ids)) with (mark_all (CheckPresentAndMarkRecvd tr i).2 ids).
    rewrite IH.
    + destruct (decide (i = chunk_id)) as [->|Hne].
      * rewrite (mark_present set_ok) by done.
        rewrite (bool_decide_eq_true_2 (chunk_id ∈ chunk_id :: ids)) by set_solver.
        by rewrite orb_true_r.
      * rewrite (mark_other set_ok) by done. f_equal.
        apply bool_decide_ext. set_solver.
    + eapply Forall_impl; [exact Hall|]. intros j. apply valid_id_mark.
    + by apply valid_id_mark.
Qed.

Lemma mark_answers_count ids : ∀ tr (R : gset N),
  Forall (valid_id tr) ids →
  (∀ i, i ∈ ids → (CheckPresent tr i = true ↔ i ∈ R)) →
  length (filter (λ b, b = false) (mark_answers tr ids))
  = size (list_to_set ids ∖ R).
Proof.
  induction ids as [|i ids IH]; intros tr R Hall Hrec.
  - simpl. replace (∅ ∖ R) with (∅ : gset N) by set_solver. by rewrite size_empty.
  - apply Forall_cons in Hall as [Hi Hall]. cbn [mark_answers].
    rewrite (mark_returns set_ok) by done.
    assert (Hrec' : ∀ j, j ∈ ids →
              (CheckPresent (CheckPresentAndMarkRecvd tr i).2 j = true ↔ j ∈ {[i]} ∪ R)).
    { intros j Hj. destruct (decide (i = j)) as [->|Hne].
      - rewrite (mark_present set_ok) by done. set_solver.
      - rewrite (mark_other set_ok); [| done | | done].
        + rewrite Hrec by set_solver. set_solver.
        + rewrite Forall_forall in Hall. by apply Hall. }
    assert (Hall' : Forall (valid_id (CheckPresentAndMarkRecvd tr i).2) ids).
    { eapply Forall_impl; [exact Hall|]. intros j. apply valid_id_mark. }
    specialize (IH _ _ Hall' Hrec').
    destruct (CheckPresent tr i) eqn:Hp.
    + rewrite filter_cons_False by done. rewrite IH.
      assert (Hin : i ∈ R) by (apply Hrec; [set_solver|done]).
      f_equal. set_solver.
    + rewrite filter_cons_True by done. simpl. rewrite IH.
      assert (Hnotin : i ∉ R).
      { intros Hin. apply Hrec in Hin; [congruence|set_solver]. }
      assert (Heq : (({[i]} ∪ list_to_set ids) ∖ R : gset N)
                    = {[i]} ∪ (list_to_set ids ∖ ({[i]} ∪ R))).
      { apply set_eq. intros x. destruct (decide (x = i)); set_solver. }
      rewrite Heq.
      rewrite (size_union (C := gset N) {[i]} (list_to_set ids ∖ ({[i]} ∪ R)))
        by set_solver.
      by rewrite size_singleton.
Qed.

(** X11. Over any sequence of such ids, none of them recorded before,
    [CheckPresentAndMarkRecvd] answers [false] exactly as many times as the
    sequence has distinct ids: repetitions, at any distance, are answered
    [true]. *)
Theorem mark_answers_count_distinct tr ids :
  Forall (λ i, valid_id tr i ∧ CheckPresent tr i = false) ids →
  length (filter (λ b, b = false) (mark_answers tr ids))
  = size (list_to_set ids : gset N).
Proof.
  intros Hall. rewrite (mark_answers_count ids tr ∅).
  - f_equal. set_solver.
  - eapply Forall_impl; [exact Hall|]. by intros i [? _].
  - intros i Hi. rewrite Forall_forall in Hall. destruct (Hall i Hi) as [_ ->].
    set_solver.
Qed.

End TrackerSet.

Lemma tracker_is_a_set_witness :
  BlockChunkRecvdTracker.CheckPresent
    (BlockChunkRecvdTracker.mark_all Samples.tracker3 [2; 900; 2]) 900
  = BlockChunkRecvdTracker.CheckPresent Samples.tracker3 900
    || bool_decide (900 ∈ [2; 900; 2]).
Proof.
  apply (tracker_is_a_set (ohs := RefSet.ohs) RefSet_contract [2; 900; 2]).
  - constructor; [by left|]. constructor; [by right|]. constructor; [by left|].
    constructor.
  - by right.
Defined.

Lemma mark_answers_count_distinct_witness :
  length (filter (λ b, b = false)
            (BlockChunkRecvdTracker.mark_answers Samples.tracker3 [2; 900; 2; 900; 1]))
  = size (list_to_set [2; 900; 2; 900; 1] : gset N).
Proof.
  apply (mark_answers_count_distinct (ohs := RefSet.ohs) RefSet_contract).
  repeat (constructor; [split; [first [by left | by right] | reflexivity]|]).
  constructor.
Defined.

(** ** More on the encode session *)
Section EncoderMore.
Context {codec : wh256}.
Import FECEncoder.

Implicit Types (e : FECEncoder.t) (i j : N).

(** Every other slot is as before after a write of at most one chunk. *)
Lemma slot_bytes_write_at_other_le buf (i j : N) bytes :
  (length bytes ≤ N.to_nat FEC_CHUNK_SIZE)%nat →
  (i + 1) * FEC_CHUNK_SIZE ≤ vsize buf → j ≠ i →
  slot_bytes (write_at buf (N.to_nat (i * FEC_CHUNK_SIZE)) bytes) j = slot_bytes buf j.
Proof.
  intros Hlen Hin Hne. unfold slot_bytes. apply list_eq. intros k.
  unfold vsize in Hin.
  destruct (decide (k < N.to_nat FEC_CHUNK_SIZE)%nat) as [Hk|Hk].
  - rewrite !lookup_take_lt, !lookup_drop by done.
    apply write_at_lookup_outside; [unfold FEC_CHUNK_SIZE in *; lia|].
    unfold FEC_CHUNK_SIZE in *. nia.
  - by rewrite !lookup_take_ge by lia.
Qed.

Lemma single_chunk_count (data : list Byte.byte) :
  data ≠ [] → vsize data ≤ FEC_CHUNK_SIZE →
  DIV_CEIL (vsize data) FEC_CHUNK_SIZE = 1.
Proof.
  intros Hne Hsz. pose proof SIZE_MOD_eq.
  assert (Hpos : 1 ≤ vsize data) by (destruct data; [done|unfold vsize; simpl; lia]).
  rewrite DIV_CEIL_small by (unfold FEC_CHUNK_SIZE in *; lia).
  unfold FEC_CHUNK_SIZE in *.
  pose proof (N.Div0.mul_div_le (vsize data + 1151) 1152) as Hle.
  pose proof (N.mul_succ_div_gt (vsize data + 1151) 1152 ltac:(lia)) as Hgt.
  nia.
Qed.

(** Below two chunks the loop fills every slot from [i] on with the
    zero-padded object and leaves the slots before [i]. *)
Lemma BuildFECChunks_loop_single fuel : ∀ e i,
  wf e → DIV_CEIL (vsize (data e)) FEC_CHUNK_SIZE < 2 → data e ≠ [] →
  i ≤ slots e → (N.to_nat (slots e - i) ≤ fuel)%nat →
  ∃ e', BuildFECChunks_loop fuel e i = Some (true, e') ∧
        data e' = data e ∧ vsize (fec_chunks e') = vsize (fec_chunks e) ∧
        (∀ j, i ≤ j < slots e → slot_bytes (fec_chunks e') j = zero_padded (data e)) ∧
        (∀ j, j < i → slot_bytes (fec_chunks e') j = slot_bytes (fec_chunks e) j).
Proof.
  induction fuel as [|fuel IH]; intros e i Hwf Hk Hne Hi Hfuel.
  - assert (i = slots e) as -> by lia. exists e. simpl. fold (slots e).
    destruct (N.ltb_spec (slots e) (slots e)); [lia|].
    repeat split; try done. intros j Hj. lia.
  - simpl. fold (slots e). destruct (N.ltb_spec i (slots e)) as [Hlt|Hge].
    + rewrite BuildChunk_single by done.
      set (zp := zero_padded (data e)).
      set (e1 := mk (data e)
                    (write_at (fec_chunks e) (N.to_nat (i * FEC_CHUNK_SIZE)) zp) (state e)).
      destruct (slot_in_range e i Hwf Hlt) as [Hle _].
      assert (Hzp : length zp = N.to_nat FEC_CHUNK_SIZE).
      { apply length_zero_padded. pose proof (single_chunk_size e Hwf Hk).
        unfold vsize in *. lia. }
      assert (Hsz1 : vsize (fec_chunks e1) = vsize (fec_chunks e)).
      { apply vsize_write_at. unfold vsize in Hle. lia. }
      assert (Hwf1 : wf e1) by by eapply wf_same_sizes.
      assert (Hs1 : slots e1 = slots e) by (unfold slots; by rewrite Hsz1).
      assert (Hnext : size_add i 1 = i + 1).
      { apply size_add_small. destruct Hwf as [_ Hbuf]. unfold vector_ok in Hbuf.
        pose proof PTRDIFF_MAX_eq. pose proof SIZE_MOD_eq.
        unfold FEC_CHUNK_SIZE in *. lia. }
      rewrite Hnext.
      destruct (IH e1 (i + 1) Hwf1 Hk Hne ltac:(lia) ltac:(lia))
        as (e' & Hloop & Hd & Hsz & Hfrom & Hbefore).
      exists e'. split; [done|]. split; [done|]. split; [congruence|]. split.
      * intros j Hj. destruct (decide (j = i)) as [->|Hji].
        -- rewrite Hbefore by lia. by apply slot_bytes_write_at_same.
        -- apply Hfrom. lia.
      * intros j Hj. rewrite Hbefore by lia.
        apply slot_bytes_write_at_other; [done|done|lia].
    + assert (i = slots e) as -> by lia. exists e.
      repeat split; try done. intros j Hj. lia.
Qed.

Lemma BuildFECChunks_single_filled data prng_seed fec_chunks :
  data ≠ [] → vsize data ≤ FEC_CHUNK_SIZE →
  fec_chunks ≠ [] → vsize fec_chunks mod FEC_CHUNK_SIZE = 0 → vector_ok fec_chunks →
  ∃ out, BuildFECChunks data prng_seed fec_chunks = Some (true, out) ∧
         vsize out = vsize fec_chunks ∧
         ∀ i, i < vsize fec_chunks / FEC_CHUNK_SIZE →
              slot_bytes out i = zero_padded data.
Proof.
  intros Hne Hsz Hbne Hmod Hbuf.
  pose proof (single_chunk_count data Hne Hsz) as Hk.
  set (e0 := mk data fec_chunks wh256_NULL).
  assert (Hctor : FECEncoder data prng_seed fec_chunks = Some e0).
  { unfold FECEncoder. rewrite Hmod. simpl.
    destruct (N.eqb_spec (vsize fec_chunks) 0) as [Hz|_].
    { destruct fec_chunks; [done|]. unfold vsize in Hz. simpl in Hz. lia. }
    destruct (N.eqb_spec (vsize data) 0) as [Hz|_].
    { destruct data; [done|]. unfold vsize in Hz. simpl in Hz. lia. }
    by rewrite Hk. }
  assert (Hwf : wf e0).
  { split; [|done]. unfold vector_ok. simpl. pose proof PTRDIFF_MAX_eq.
    unfold FEC_CHUNK_SIZE in *. lia. }
  destruct (BuildFECChunks_loop_single (N.to_nat (slots e0)) e0 0 Hwf)
    as (e' & Hloop & _ & Hsz' & Hfrom & _); simpl; try done; try lia.
  exists (FECEncoder.fec_chunks e'). unfold BuildFECChunks. rewrite Hctor.
  change (vsize fec_chunks / FEC_CHUNK_SIZE) with (slots e0). rewrite Hloop.
  split; [done|]. split; [done|]. intros i Hi. apply Hfrom. lia.
Qed.

(** X12. For an object of at most one chunk, [BuildFECChunks] aborts on an
    empty object, an empty buffer or a buffer that is not a whole number of
    chunks; otherwise it returns [true] whatever the primitive would do,
    keeps the size of the buffer, and every slot holds the object followed
    by zeros. *)
Theorem BuildFECChunks_single data prng_seed fec_chunks :
  (data = [] ∨ fec_chunks = [] ∨ vsize fec_chunks mod FEC_CHUNK_SIZE ≠ 0 →
     BuildFECChunks data prng_seed fec_chunks = None) ∧
  (data ≠ [] → vsize data ≤ FEC_CHUNK_SIZE →
   fec_chunks ≠ [] → vsize fec_chunks mod FEC_CHUNK_SIZE = 0 → vector_ok fec_chunks →
     ∃ out, BuildFECChunks data prng_seed fec_chunks = Some (true, out) ∧
            vsize out = vsize fec_chunks ∧
            ∀ i, i < vsize fec_chunks / FEC_CHUNK_SIZE →
                 slot_bytes out i = zero_padded data).
Proof.
  split; [|apply BuildFECChunks_single_filled].
  unfold BuildFECChunks, FECEncoder. intros [->|[->|Hmod]].
  - destruct (vsize fec_chunks mod FEC_CHUNK_SIZE =? 0); [simpl|done].
    by destruct (vsize fec_chunks =? 0).
  - reflexivity.
  - by destruct (N.eqb_spec (vsize fec_chunks mod FEC_CHUNK_SIZE) 0).
Qed.

(** X13. Round trip for an object of at most one chunk: any slot
    [BuildFECChunks] filled, provided under any id within range to a session
    constructed for the object's size, completes the session, and
    [GetDataPtr(0)] returns the object followed by zeros, whose first
    [data.size()] bytes are the object. *)
Theorem single_chunk_encode_decode
    data prng_seed fec_chunks i tmp0 chunks_provided prng_seed' chunk_id :
  data ≠ [] → vsize data ≤ FEC_CHUNK_SIZE →
  fec_chunks ≠ [] → vsize fec_chunks mod FEC_CHUNK_SIZE = 0 → vector_ok fec_chunks →
  i < vsize fec_chunks / FEC_CHUNK_SIZE → chunk_id < chunks_provided →
  ∃ out d0 d1,
    BuildFECChunks data prng_seed fec_chunks = Some (true, out) ∧
    FECDecoder.FECDecoder tmp0 (vsize data) chunks_provided prng_seed' = Some d0 ∧
    FECDecoder.ProvideChunk d0 (slot_bytes out i) chunk_id = Some (true, d1) ∧
    FECDecoder.DecodeReady d1 = true ∧
    FECDecoder.GetDataPtr d1 0 = Some (zero_padded data, d1) ∧
    take (length data) (zero_padded data) = data.
Proof.
  intros Hne Hsz Hbne Hmod Hbuf Hi Hid.
  destruct (BuildFECChunks_single_filled data prng_seed fec_chunks)
    as (out & Hbuild & _ & Hslots); try done.
  pose proof (single_chunk_count data Hne Hsz) as Hk.
  assert (Hzp : length (zero_padded data) = N.to_nat FEC_CHUNK_SIZE).
  { apply length_zero_padded. unfold vsize in Hsz. lia. }
  exists out. unfold FECDecoder.FECDecoder. rewrite Hk. simpl.
  eexists. eexists. split; [done|]. split; [done|].
  unfold FECDecoder.ProvideChunk. simpl.
  destruct (N.ltb_spec chunk_id chunks_provided); [|lia]. simpl.
  unfold vget. rewrite lookup_replicate_2 by lia.
  split; [done|]. split; [done|].
  unfold FECDecoder.GetDataPtr, FECDecoder.DecodeReady. simpl.
  rewrite Hslots by done. rewrite take_ge by lia.
  split; [done|]. unfold zero_padded. by rewrite take_app_length.
Qed.

End EncoderMore.

Lemma BuildFECChunks_single_witness :
  ∃ out, BuildFECChunks (codec := RefCodec.codec) Samples.dataA 7
           (replicate 2304 Byte.x00) = Some (true, out) ∧
         slot_bytes out 1 = zero_padded Samples.dataA.
Proof.
  destruct (BuildFECChunks_single (codec := RefCodec.codec) Samples.dataA 7
              (replicate 2304 Byte.x00)) as [_ H].
  destruct H as (out & Hb & _ & Hs); try (by vm_compute).
  exists out. split; [exact Hb|]. apply Hs. by vm_compute.
Defined.

Lemma single_chunk_encode_decode_witness :
  ∃ out d0 d1,
    BuildFECChunks (codec := RefCodec.codec) Samples.dataA 7 (replicate 2304 Byte.x00)
    = Some (true, out) ∧
    FECDecoder.FECDecoder (codec := RefCodec.codec) [] (vsize Samples.dataA) 3 0
    = Some d0 ∧
    FECDecoder.ProvideChunk d0 (slot_bytes out 1) 2 = Some (true, d1) ∧
    FECDecoder.GetDataPtr d1 0 = Some (zero_padded Samples.dataA, d1).
Proof.
  destruct (single_chunk_encode_decode (codec := RefCodec.codec) Samples.dataA 7
              (replicate 2304 Byte.x00) 1 [] 3 0 2)
    as (out & d0 & d1 & H1 & H2 & H3 & _ & H4 & _); try (by vm_compute).
  by exists out, d0, d1.
Defined.

(** ** Sessions that use the primitive *)
Section EncoderCodec.
Context {codec : wh256}.
Import FECEncoder.

Implicit Types (e : FECEncoder.t) (i j : N).

Lemma BuildChunk_codec e i :
  wf e → i < slots e → 2 ≤ DIV_CEIL (vsize (data e)) FEC_CHUNK_SIZE →
  BuildChunk e i
  = store_chunk e (i * FEC_CHUNK_SIZE)
      (wh256_encoder_write (state e) (i + DIV_CEIL (vsize (data e)) FEC_CHUNK_SIZE)).
Proof.
  intros Hwf Hi Hk. destruct (slot_in_range e i Hwf Hi) as [_ Hoff].
  unfold BuildChunk. fold (slots e).
  destruct (N.ltb_spec i (slots e)); [|lia]. simpl.
  destruct (N.ltb_spec (DIV_CEIL (vsize (data e)) FEC_CHUNK_SIZE) 2); [lia|].
  by rewrite chunk_id_of_small, Hoff.
Qed.

(** A successful call of a session that uses the primitive: the write
    returned [0], its block fits a chunk, and the slot receives the block
    followed by zeros. *)
Lemma BuildChunk_codec_success e i e' :
  wf e → 2 ≤ DIV_CEIL (vsize (data e)) FEC_CHUNK_SIZE →
  BuildChunk e i = Some (true, e') →
  ∃ block,
    wh256_encoder_write (state e) (i + DIV_CEIL (vsize (data e)) FEC_CHUNK_SIZE)
    = (state e', block, 0%Z) ∧
    vsize block ≤ FEC_CHUNK_SIZE ∧ i < slots e ∧ data e' = data e ∧
    fec_chunks e'
    = write_at (fec_chunks e) (N.to_nat (i * FEC_CHUNK_SIZE)) (zero_padded block).
Proof.
  intros Hwf Hk Hb.
  assert (Hi : i < slots e).
  { unfold BuildChunk in Hb. fold (slots e) in Hb.
    by destruct (N.ltb_spec i (slots e)). }
  rewrite BuildChunk_codec in Hb by done.
  destruct (wh256_encoder_write _ _) as [[st block] r].
  pose proof (store_chunk_overrun _ _ _ _ _ _ Hwf Hi Hb) as Hblock.
  rewrite store_chunk_in_bounds in Hb by done.
  destruct (decide (r = 0%Z)) as [->|Hr]; [|done].
  injection Hb as <-. by exists block.
Qed.

(** X14. [PrefillChunks] on a constructed session is [BuildChunk] on the
    last slot: the session has at least one slot, a successful call changes
    only that slot, and for an object of fewer than two chunks it succeeds
    and leaves the zero-padded object there.  On a session with an empty
    buffer the index wraps and the call aborts. *)
Theorem PrefillChunks_last_slot dataIn prng_seed fec_chunksIn e :
  FECEncoder dataIn prng_seed fec_chunksIn = Some e →
  vector_ok dataIn → vector_ok fec_chunksIn →
  1 ≤ slots e ∧
  PrefillChunks e = BuildChunk e (slots e - 1) ∧
  (∀ e', PrefillChunks e = Some (true, e') →
     data e' = data e ∧ vsize (fec_chunks e') = vsize (fec_chunks e) ∧
     ∀ j, j ≠ slots e - 1 →
       slot_bytes (fec_chunks e') j = slot_bytes (fec_chunks e) j) ∧
  (DIV_CEIL (vsize dataIn) FEC_CHUNK_SIZE < 2 →
     ∃ e', PrefillChunks e = Some (true, e') ∧
           slot_bytes (fec_chunks e') (slots e - 1) = zero_padded dataIn) ∧
  (∀ d st, PrefillChunks (mk d [] st) = None).
Proof.
  intros Hctor Hdata Hbuf.
  assert (Hshape : data e = dataIn ∧ fec_chunks e = fec_chunksIn ∧
                   vsize fec_chunksIn mod FEC_CHUNK_SIZE = 0 ∧
                   vsize fec_chunksIn ≠ 0 ∧ dataIn ≠ []).
  { unfold FECEncoder in Hctor.
    destruct (N.eqb_spec (vsize fec_chunksIn mod FEC_CHUNK_SIZE) 0) as [Hmod|]; [|done].
    simpl in Hctor.
    destruct (N.eqb_spec (vsize fec_chunksIn) 0) as [|Hnz]; [done|].
    destruct (N.eqb_spec (vsize dataIn) 0) as [|Hdz]; [done|].
    assert (dataIn ≠ []) by (by intros ->).
    destruct (_ <? 2); [by injection Hctor as <-|].
    destruct (wh256_is_null _); [done|]. by injection Hctor as <-. }
  destruct Hshape as (Hd & Hf & Hmod & Hnz & Hne).
  assert (Hwf : wf e) by (unfold wf; by rewrite Hd, Hf).
  assert (Hslots : 1 ≤ slots e).
  { unfold slots. rewrite Hf.
    pose proof (N.div_mod (vsize fec_chunksIn) FEC_CHUNK_SIZE ltac:(done)) as Hdm.
    rewrite Hmod in Hdm. unfold FEC_CHUNK_SIZE in *. lia. }
  assert (Hlast : size_sub (slots e) 1 = slots e - 1).
  { apply size_sub_small; [lia|].
    pose proof (N.Div0.mul_div_le (vsize (fec_chunks e)) FEC_CHUNK_SIZE).
    destruct Hwf as [_ Hb]. unfold vector_ok in Hb.
    pose proof PTRDIFF_MAX_eq. pose proof SIZE_MOD_eq.
    unfold slots, FEC_CHUNK_SIZE in *. lia. }
  assert (Hpre : PrefillChunks e = BuildChunk e (slots e - 1)).
  { unfold PrefillChunks. fold (slots e). by rewrite Hlast. }
  split; [done|]. split; [done|]. split; [|split].
  - intros e' Hb. rewrite Hpre in Hb.
    destruct (BuildChunk_success_state e _ e' Hwf Hb) as (bytes & Hlen & Hd' & Hbuf').
    destruct (slot_in_range e (slots e - 1) Hwf ltac:(lia)) as [Hle _].
    split; [done|]. rewrite Hbuf'. split.
    + apply vsize_write_at. unfold vsize in Hle. lia.
    + intros j Hj. by apply slot_bytes_write_at_other.
  - intros Hk. rewrite Hpre, BuildChunk_single; try done; try lia;
      [|by rewrite Hd|by rewrite Hd].
    eexists. split; [done|]. simpl. rewrite Hd.
    destruct (slot_in_range e (slots e - 1) Hwf ltac:(lia)) as [Hle _].
    apply slot_bytes_write_at_same; [|done].
    apply length_zero_padded.
    rewrite <- Hd in Hk. pose proof (single_chunk_size e Hwf Hk) as Hsz.
    rewrite Hd in Hsz. unfold vsize in Hsz. lia.
  - intros d st. reflexivity.
Qed.

(** X15. [BuildChunk] of a session that uses the primitive, when the
    primitive writes at most one chunk: the call returns, its result is
    [true] exactly when [wh256_encoder_write] for the identifier
    [fec_chunk_id + data chunks] returned [0], and the session keeps the
    handle the primitive returned.  Whatever the result, the object, the size
    of the buffer and every other slot are as before; on success the slot
    holds the block followed by zeros, on failure the slot begins with what
    the primitive wrote. *)
Theorem BuildChunk_codec_result e i :
  encoder_in_bounds → wf e → i < slots e →
  2 ≤ DIV_CEIL (vsize (data e)) FEC_CHUNK_SIZE →
  let w := wh256_encoder_write (state e)
             (i + DIV_CEIL (vsize (data e)) FEC_CHUNK_SIZE) in
  ∃ e', BuildChunk e i = Some (bool_decide (w.2 = 0%Z), e') ∧
        state e' = w.1.1 ∧ data e' = data e ∧
        vsize (fec_chunks e') = vsize (fec_chunks e) ∧
        (∀ j, j ≠ i → slot_bytes (fec_chunks e') j = slot_bytes (fec_chunks e) j) ∧
        (w.2 = 0%Z → slot_bytes (fec_chunks e') i = zero_padded w.1.2) ∧
        (w.2 ≠ 0%Z → take (length w.1.2) (slot_bytes (fec_chunks e') i) = w.1.2).
Proof.
  intros Hin Hwf Hi Hk w.
  pose proof (Hin (state e) (i + DIV_CEIL (vsize (data e)) FEC_CHUNK_SIZE)) as Hblock.
  subst w. rewrite BuildChunk_codec by done.
  destruct (wh256_encoder_write _ _) as [[st block] r].
  cbn [fst snd] in Hblock. cbn [fst snd].
  rewrite store_chunk_in_bounds by done.
  destruct (slot_in_range e i Hwf Hi) as [Hle _].
  assert (Hzp : length (zero_padded block) = N.to_nat FEC_CHUNK_SIZE).
  { apply length_zero_padded. unfold vsize in Hblock. lia. }
  assert (Hfit : (N.to_nat (i * FEC_CHUNK_SIZE) + length block
                  ≤ length (fec_chunks e))%nat).
  { unfold vsize in *. unfold FEC_CHUNK_SIZE in *. lia. }
  destruct (decide (r = 0%Z)) as [->|Hr].
  - rewrite bool_decide_eq_true_2 by done. eexists. split; [done|]. simpl.
    split; [done|]. split; [done|].
    split; [apply vsize_write_at; unfold vsize in Hle; lia|].
    split; [intros j Hj; by apply slot_bytes_write_at_other|].
    split; [intros _; by apply slot_bytes_write_at_same|done].
  - rewrite bool_decide_eq_false_2 by done. eexists. split; [done|]. simpl.
    split; [done|]. split; [done|].
    split; [by apply vsize_write_at|].
    split.
    + intros j Hj. apply slot_bytes_write_at_other_le; [|done|done].
      unfold vsize in Hblock. lia.
    + split; [done|]. intros _. unfold slot_bytes, write_at.
      rewrite drop_app_length' by (rewrite length_take; lia).
      rewrite take_take.
      replace (length block `min` N.to_nat FEC_CHUNK_SIZE)%nat with (length block)
        by (unfold vsize in Hblock; lia).
      by rewrite take_app_length.
Qed.

(** What [built_upto] has built is what the primitive wrote: the handle is
    threaded through the writes for the identifiers in order, and each slot
    holds its block followed by zeros. *)
Lemma built_upto_writes e0 : ∀ k e,
  wf e0 → 2 ≤ DIV_CEIL (vsize (data e0)) FEC_CHUNK_SIZE →
  built_upto e0 k = Some e →
  ∃ blocks,
    writes_upto (state e0) (DIV_CEIL (vsize (data e0)) FEC_CHUNK_SIZE) k
    = Some (state e, blocks) ∧
    length blocks = k ∧ (N.of_nat k ≤ slots e0) ∧
    Forall (λ block, vsize block ≤ FEC_CHUNK_SIZE) blocks ∧
    ∀ (n : nat) block, blocks !! n = Some block →
      slot_bytes (fec_chunks e) (N.of_nat n) = zero_padded block.
Proof.
  induction k as [|k IH]; intros e Hwf0 Hk Hbuilt.
  - simpl in Hbuilt. injection Hbuilt as <-. exists []. simpl.
    split; [done|]. split; [done|]. split; [lia|]. split; [done|]. done.
  - simpl in Hbuilt. destruct (built_upto e0 k) as [e1|] eqn:H1; [|done].
    destruct (BuildChunk e1 (N.of_nat k)) as [[[|] e2]|] eqn:Hb; [|done|done].
    injection Hbuilt as <-.
    destruct (IH e1 Hwf0 Hk eq_refl) as (blocks & Hw & Hlen & _ & Hall & Hslots).
    destruct (built_upto_shape e0 k e1 Hwf0 H1) as (Hwf1 & Hd1 & Hs1).
    rewrite <- Hd1 in Hk.
    destruct (BuildChunk_codec_success e1 _ e2 Hwf1 Hk Hb)
      as (block & Hwrite & Hblock & Hi & Hd2 & Hbuf2).
    rewrite Hd1 in Hwrite.
    exists (blocks ++ [block]). simpl. rewrite Hw, Hwrite. simpl.
    split; [done|]. split; [rewrite length_app; simpl; lia|].
    split; [lia|]. split; [apply Forall_app; by split; [|constructor]|].
    destruct (slot_in_range e1 _ Hwf1 Hi) as [Hle _].
    assert (Hzp : length (zero_padded block) = N.to_nat FEC_CHUNK_SIZE).
    { apply length_zero_padded. unfold vsize in Hblock. lia. }
    intros n b Hn. rewrite Hbuf2.
    destruct (decide (n = k)) as [->|Hnk].
    + rewrite lookup_app_r, Hlen, Nat.sub_diag in Hn by lia.
      injection Hn as <-. by apply slot_bytes_write_at_same.
    + assert (n < k)%nat.
      { apply lookup_lt_Some in Hn. rewrite length_app in Hn. simpl in Hn. lia. }
      rewrite lookup_app_l in Hn by lia.
      rewrite slot_bytes_write_at_other by (done || lia). by apply Hslots.
Qed.

(** A loop that ends in [true] has built every slot in order. *)
Lemma BuildFECChunks_loop_true e0 fuel : ∀ e i e',
  wf e0 → built_upto e0 (N.to_nat i) = Some e → i ≤ slots e0 →
  BuildFECChunks_loop fuel e i = Some (true, e') →
  built_upto e0 (N.to_nat (slots e0)) = Some e'.
Proof.
  induction fuel as [|fuel IH]; intros e i e' Hwf0 Hbuilt Hi Hloop;
    destruct (built_upto_shape e0 _ e Hwf0 Hbuilt) as (Hwf & Hd & Hs);
    simpl in Hloop; fold (slots e) in Hloop; rewrite Hs in Hloop;
    destruct (N.ltb_spec i (slots e0)) as [Hlt|Hge]; try done.
  - injection Hloop as <-. by assert (slots e0 = i) as -> by lia.
  - destruct (BuildChunk e i) as [[[|] e1]|] eqn:Hb; [|done|done].
    assert (Hnext : size_add i 1 = i + 1).
    { apply size_add_small. destruct Hwf0 as [_ Hbuf]. unfold vector_ok in Hbuf.
      pose proof (N.Div0.mul_div_le (vsize (fec_chunks e0)) FEC_CHUNK_SIZE).
      pose proof PTRDIFF_MAX_eq. pose proof SIZE_MOD_eq.
      unfold slots, FEC_CHUNK_SIZE in *. lia. }
    rewrite Hnext in Hloop. apply (IH e1 (i + 1)); try done; [|lia].
    replace (N.to_nat (i + 1)) with (S (N.to_nat i)) by lia. simpl.
    by rewrite Hbuilt, N2Nat.id, Hb.
  - injection Hloop as <-. by assert (slots e0 = i) as -> by lia.
Qed.

(** X16. What a successful [BuildFECChunks] leaves in the buffer for an
    object of two chunks or more: the handle from [wh256_encoder_init] is
    threaded through one [wh256_encoder_write] per slot, for the identifiers
    [data chunks + 0, data chunks + 1, ...] in this order, every write
    returned [0] with a block of at most one chunk, and slot [n] holds the
    block written for identifier [data chunks + n], followed by zeros. *)
Theorem BuildFECChunks_payloads data prng_seed fec_chunks out :
  vector_ok data → vector_ok fec_chunks →
  2 ≤ DIV_CEIL (vsize data) FEC_CHUNK_SIZE →
  BuildFECChunks data prng_seed fec_chunks = Some (true, out) →
  ∃ st blocks,
    writes_upto (wh256_encoder_init wh256_NULL data (vsize data) FEC_CHUNK_SIZE)
      (DIV_CEIL (vsize data) FEC_CHUNK_SIZE)
      (N.to_nat (vsize fec_chunks / FEC_CHUNK_SIZE))
    = Some (st, blocks) ∧
    length blocks = N.to_nat (vsize fec_chunks / FEC_CHUNK_SIZE) ∧
    Forall (λ block, vsize block ≤ FEC_CHUNK_SIZE) blocks ∧
    vsize out = vsize fec_chunks ∧
    ∀ (n : nat) block, blocks !! n = Some block →
      slot_bytes out (N.of_nat n) = zero_padded block.
Proof.
  intros Hdata Hbuf Hk Hbuild. unfold BuildFECChunks in Hbuild.
  destruct (FECEncoder data prng_seed fec_chunks) as [e0|] eqn:Hctor; [|done].
  destruct (BuildFECChunks_loop _ e0 0) as [[b e']|] eqn:Hloop; [|done].
  injection Hbuild as -> <-.
  assert (He0 : e0 = mk data fec_chunks
                       (wh256_encoder_init wh256_NULL data (vsize data) FEC_CHUNK_SIZE)).
  { unfold FECEncoder in Hctor. destruct (negb _); [done|].
    destruct (vsize fec_chunks =? 0); [done|]. destruct (vsize data =? 0); [done|].
    destruct (N.ltb_spec (DIV_CEIL (vsize data) FEC_CHUNK_SIZE) 2); [lia|].
    destruct (wh256_is_null _); [done|]. by injection Hctor. }
  assert (Hwf : wf e0) by (by subst e0).
  pose proof (BuildFECChunks_loop_true e0 _ e0 0 e' Hwf eq_refl ltac:(lia) Hloop)
    as Hbuilt.
  destruct (built_upto_shape e0 _ e' Hwf Hbuilt) as (_ & _ & Hs).
  destruct (built_upto_writes e0 _ e' Hwf ltac:(by subst e0) Hbuilt)
    as (blocks & Hw & Hlen & _ & Hall & Hslots).
  subst e0. simpl in *. unfold slots in Hw, Hlen, Hs. simpl in *.
  exists (state e'), blocks. split; [done|]. split; [done|]. split; [done|].
  split; [|done].
  unfold slots in Hs. simpl in Hs.
  clear -Hbuilt Hbuf Hdata.
  set (e0 := mk data fec_chunks _) in Hbuilt.
  revert Hbuilt. generalize (N.to_nat (slots e0)). intros k. revert e'.
  induction k as [|k IH]; intros e' Hbuilt; simpl in Hbuilt.
  - by injection Hbuilt as <-.
  - destruct (built_upto e0 k) as [e1|] eqn:H1; [|done].
    destruct (BuildChunk e1 (N.of_nat k)) as [[[|] e2]|] eqn:Hb; [|done|done].
    injection Hbuilt as <-.
    assert (Hwf0 : wf e0) by done.
    destruct (built_upto_shape e0 k e1 Hwf0 H1) as (Hwf1 & _ & _).
    destruct (BuildChunk_success_state e1 _ e2 Hwf1 Hb) as (bytes & Hlen & _ & ->).
    destruct (BuildChunk_success e1 _ e2 Hwf1 Hb) as [Hi _].
    destruct (slot_in_range e1 _ Hwf1 Hi) as [Hle _].
    rewrite vsize_write_at by (unfold vsize in Hle; lia). by apply IH.
Qed.

End EncoderCodec.

Lemma PrefillChunks_last_slot_witness :
  ∃ e e', FECEncoder.FECEncoder (codec := RefCodec.codec) Samples.dataA 0
            (replicate 2304 Byte.x00) = Some e ∧
          FECEncoder.PrefillChunks e = Some (true, e') ∧
          slot_bytes (FECEncoder.fec_chunks e') 1 = zero_padded Samples.dataA ∧
          slot_bytes (FECEncoder.fec_chunks e') 0
          = slot_bytes (FECEncoder.fec_chunks e) 0.
Proof.
  exists Samples.e_single.
  destruct (PrefillChunks_last_slot (codec := RefCodec.codec) Samples.dataA 0
              (replicate 2304 Byte.x00) Samples.e_single)
    as (_ & _ & Hframe & Hsingle & _); try (by vm_compute).
  destruct Hsingle as (e' & Hpre & Hslot); [by vm_compute|].
  exists e'. split; [reflexivity|]. split; [exact Hpre|]. split; [exact Hslot|].
  by apply (Hframe e' Hpre).
Defined.

Lemma BuildChunk_codec_result_witness :
  ∃ e', FECEncoder.BuildChunk Samples.e_pair 1 = Some (true, e') ∧
        slot_bytes (FECEncoder.fec_chunks e') 0
        = slot_bytes (FECEncoder.fec_chunks Samples.e_pair) 0 ∧
        slot_bytes (FECEncoder.fec_chunks e') 1 = zero_padded [Byte.x07].
Proof.
  assert (Hwf : FECEncoder.wf Samples.e_pair) by (split; by vm_compute).
  destruct (BuildChunk_codec_result (codec := RefCodec.codec) Samples.e_pair 1
              RefCodec_in_bounds Hwf)
    as (e' & Hb & _ & _ & _ & Hframe & Hslot & _); [by vm_compute|by vm_compute|].
  exists e'. split; [exact Hb|]. split; [by apply Hframe|]. by apply Hslot.
Defined.

Lemma BuildFECChunks_payloads_witness :
  ∃ out, BuildFECChunks (codec := RefCodec.codec) Samples.data2 0 Samples.out3
         = Some (true, out) ∧
         vsize out = vsize Samples.out3 ∧
         slot_bytes out 1 = zero_padded [Byte.x07].
Proof.
  eexists. split; [vm_compute; reflexivity|].
  lazymatch goal with
  | |- vsize ?out = _ ∧ _ =>
    destruct (BuildFECChunks_payloads (codec := RefCodec.codec)
                Samples.data2 0 Samples.out3 out)
      as (st & blocks & Hw & _ & _ & Hsz & Hslots);
      [by vm_compute|by vm_compute|by vm_compute|vm_compute; reflexivity|]
  end.
  split; [exact Hsz|].
  vm_compute in Hw. injection Hw as _ <-.
  apply (Hslots 1%nat). reflexivity.
Defined.

(** ** Building a slot again *)
Section RebuildSlot.
Context {codec : wh256}.
Import FECEncoder.

Implicit Types (e : FECEncoder.t) (i j k : N).

(** Storing in a slot the bytes it holds changes nothing. *)
Lemma write_at_slot_same (buf : list Byte.byte) i :
  (i + 1) * FEC_CHUNK_SIZE ≤ vsize buf →
  write_at buf (N.to_nat (i * FEC_CHUNK_SIZE)) (slot_bytes buf i) = buf.
Proof.
  intros Hin. unfold write_at, slot_bytes. unfold vsize in Hin.
  assert (Hlen : length (take (N.to_nat FEC_CHUNK_SIZE)
                           (drop (N.to_nat (i * FEC_CHUNK_SIZE)) buf))
                 = N.to_nat FEC_CHUNK_SIZE).
  { rewrite length_take, length_drop. unfold FEC_CHUNK_SIZE in *. lia. }
  rewrite Hlen, <- drop_drop, take_drop. apply take_drop.
Qed.

(** What a successful [BuildChunk] stores in a slot depends neither on the
    buffer nor, between handles that write alike, on the handle. *)
Lemma BuildChunk_reseat e i e1 (buf0 : list Byte.byte) (st0 : wh256_state) :
  wf e → BuildChunk e i = Some (true, e1) →
  vsize buf0 = vsize (fec_chunks e) →
  (2 ≤ DIV_CEIL (vsize (data e)) FEC_CHUNK_SIZE → same_writes (state e) st0) →
  ∃ st1,
    BuildChunk (mk (data e) buf0 st0) i
    = Some (true, mk (data e)
                     (write_at buf0 (N.to_nat (i * FEC_CHUNK_SIZE))
                        (slot_bytes (fec_chunks e1) i)) st1) ∧
    (DIV_CEIL (vsize (data e)) FEC_CHUNK_SIZE < 2 → st1 = st0).
Proof.
  intros Hwf Hb Hsz Hsame.
  destruct (BuildChunk_success e i e1 Hwf Hb) as (Hi & bytes & st' & Hlen & Hsingle & _).
  destruct (slot_in_range e i Hwf Hi) as [Hle _].
  set (e0 := mk (data e) buf0 st0).
  assert (Hwf0 : wf e0) by by eapply wf_same_sizes.
  assert (Hi0 : i < slots e0) by (unfold slots in *; simpl; by rewrite Hsz).
  destruct (N.lt_ge_cases (DIV_CEIL (vsize (data e)) FEC_CHUNK_SIZE) 2) as [Hlt|Hge].
  - destruct (Hsingle Hlt) as (_ & _ & Hne).
    rewrite BuildChunk_single in Hb by done. injection Hb as He1.
    rewrite <- He1. cbn [fec_chunks].
    exists st0. split; [|done].
    rewrite (BuildChunk_single e0) by done. simpl.
    rewrite slot_bytes_write_at_same; [done| |done].
    apply length_zero_padded. pose proof (single_chunk_size e Hwf Hlt) as Hs.
    unfold vsize in Hs. lia.
  - destruct (BuildChunk_codec_success e i e1 Hwf Hge Hb)
      as (block & Hw & Hblock & _ & _ & Hbuf).
    destruct (Hsame Hge (i + DIV_CEIL (vsize (data e)) FEC_CHUNK_SIZE)) as [Hb2 Hr2].
    rewrite Hw in Hb2, Hr2. cbn [fst snd] in Hb2, Hr2.
    rewrite (BuildChunk_codec e0) by done. subst e0. cbn [data state].
    destruct (wh256_encoder_write st0 _) as [[st1 block1] r1].
    cbn [fst snd] in Hb2, Hr2. subst block1 r1.
    exists st1. split; [|lia].
    rewrite store_chunk_in_bounds by done. rewrite decide_True by done.
    cbn [data fec_chunks]. rewrite Hbuf.
    rewrite slot_bytes_write_at_same; [done| |done].
    apply length_zero_padded. unfold vsize in Hblock. lia.
Qed.

(** A successful call keeps what building again does to the slots built so
    far, and adds its own slot to them. *)
Lemma rebuild_step e k e2 j :
  wf e → (2 ≤ DIV_CEIL (vsize (data e)) FEC_CHUNK_SIZE → write_repeatable) →
  BuildChunk e k = Some (true, e2) →
  (j = k ∨ ∃ e', BuildChunk e j = Some (true, e') ∧ fec_chunks e' = fec_chunks e) →
  ∃ e', BuildChunk e2 j = Some (true, e') ∧ fec_chunks e' = fec_chunks e2 ∧
        (DIV_CEIL (vsize (data e)) FEC_CHUNK_SIZE < 2 → e' = e2).
Proof.
  intros Hwf Hrep Hb Hj.
  destruct (BuildChunk_success e k e2 Hwf Hb) as [Hk _].
  destruct (BuildChunk_success_state e k e2 Hwf Hb) as (bytes & Hlen & Hd2 & Hbuf2).
  destruct (slot_in_range e k Hwf Hk) as [Hlek _].
  assert (Hsz2 : vsize (fec_chunks e2) = vsize (fec_chunks e)).
  { rewrite Hbuf2. apply vsize_write_at. unfold vsize in Hlek. lia. }
  assert (Hsame : 2 ≤ DIV_CEIL (vsize (data e)) FEC_CHUNK_SIZE →
                  same_writes (state e) (state e2)).
  { intros Hge. destruct (BuildChunk_codec_success e k e2 Hwf Hge Hb) as (block & Hw & _).
    pose proof (Hrep Hge (state e) (k + DIV_CEIL (vsize (data e)) FEC_CHUNK_SIZE)) as H.
    by rewrite Hw in H. }
  assert (He2 : mk (data e) (fec_chunks e2) (state e2) = e2)
    by (destruct e2; simpl in *; by subst).
  assert (Hgoal : ∀ e1, BuildChunk e j = Some (true, e1) →
            slot_bytes (fec_chunks e1) j = slot_bytes (fec_chunks e2) j →
            ∃ e', BuildChunk e2 j = Some (true, e') ∧ fec_chunks e' = fec_chunks e2 ∧
                  (DIV_CEIL (vsize (data e)) FEC_CHUNK_SIZE < 2 → e' = e2)).
  { intros e1 Hb1 Hslot.
    destruct (BuildChunk_success e j e1 Hwf Hb1) as [Hjs _].
    destruct (slot_in_range e j Hwf Hjs) as [Hlej _].
    destruct (BuildChunk_reseat e j e1 (fec_chunks e2) (state e2) Hwf Hb1 Hsz2 Hsame)
      as (st1 & Hre & Hst).
    rewrite He2, Hslot, write_at_slot_same in Hre by (by rewrite Hsz2).
    eexists. split; [exact Hre|]. split; [done|].
    intros Hlt. rewrite (Hst Hlt). exact He2. }
  destruct (decide (j = k)) as [->|Hne]; [by apply (Hgoal e2)|].
  destruct Hj as [->|(e' & Hb' & Hbuf')]; [done|].
  apply (Hgoal e' Hb'). rewrite Hbuf', Hbuf2.
  symmetry. by apply slot_bytes_write_at_other.
Qed.

(** Every slot a session has built is left as it is when it is built
    again. *)
Lemma build_slots_rebuild : ∀ built e done_ e',
  wf e → (2 ≤ DIV_CEIL (vsize (data e)) FEC_CHUNK_SIZE → write_repeatable) →
  (∀ j, j ∈ done_ →
        ∃ e1, BuildChunk e j = Some (true, e1) ∧ fec_chunks e1 = fec_chunks e ∧
              (DIV_CEIL (vsize (data e)) FEC_CHUNK_SIZE < 2 → e1 = e)) →
  build_slots e built = Some e' →
  data e' = data e ∧
  ∀ j, j ∈ done_ ++ built →
       ∃ e1, BuildChunk e' j = Some (true, e1) ∧ fec_chunks e1 = fec_chunks e' ∧
             (DIV_CEIL (vsize (data e)) FEC_CHUNK_SIZE < 2 → e1 = e').
Proof.
  induction built as [|k built IH]; intros e done_ e' Hwf Hrep Hdone Hrun.
  - simpl in Hrun. injection Hrun as <-. split; [done|].
    intros j Hj. rewrite app_nil_r in Hj. by apply Hdone.
  - simpl in Hrun. destruct (BuildChunk e k) as [[[|] e2]|] eqn:Hb; try done.
    destruct (BuildChunk_success_state e k e2 Hwf Hb) as (bytes & Hlen & Hd2 & Hbuf2).
    destruct (BuildChunk_success e k e2 Hwf Hb) as [Hk _].
    destruct (slot_in_range e k Hwf Hk) as [Hlek _].
    assert (Hwf2 : wf e2).
    { eapply wf_same_sizes; [exact Hwf|done|]. rewrite Hbuf2.
      apply vsize_write_at. unfold vsize in Hlek. lia. }
    destruct (IH e2 (done_ ++ [k]) e' Hwf2) as [Hd' Hall]; try done.
    + by rewrite Hd2.
    + intros j Hj. rewrite Hd2.
      apply (rebuild_step e k e2 j Hwf Hrep Hb).
      apply elem_of_app in Hj as [Hj|Hj].
      * right. destruct (Hdone j Hj) as (e1 & H1 & H2 & _). by exists e1.
      * left. set_solver.
    + split; [congruence|]. intros j Hj. rewrite <- Hd2. apply Hall.
      by rewrite <- app_assoc.
Qed.

(** C7. A slot has an assigned identifier once the session has built it.
    [BuildChunk] on such a slot, after any successful calls of the session,
    returns [true] and leaves the whole buffer, hence the slot's payload and
    every other slot, the object and every slot's identifier as they were;
    below two chunks the session is unchanged altogether.  The [BuildChunk]
    that [fec.cpp] defines has no [overwrite] parameter: it writes the same
    bytes again.  For two chunks or more this takes a primitive whose writes
    are repeatable. *)
Theorem BuildChunk_rebuild_noop dataIn prng_seed fec_chunksIn e0 built e i :
  vector_ok dataIn → vector_ok fec_chunksIn →
  (2 ≤ DIV_CEIL (vsize dataIn) FEC_CHUNK_SIZE → write_repeatable) →
  FECEncoder dataIn prng_seed fec_chunksIn = Some e0 →
  build_slots e0 built = Some e → i ∈ built →
  ∃ e', BuildChunk e i = Some (true, e') ∧
        fec_chunks e' = fec_chunks e ∧ data e' = data e ∧
        (∀ j, slot_bytes (fec_chunks e') j = slot_bytes (fec_chunks e) j) ∧
        (∀ j, assigned_id e' j = assigned_id e j) ∧
        (DIV_CEIL (vsize dataIn) FEC_CHUNK_SIZE < 2 → e' = e).
Proof.
  intros Hdata Hbuf Hrep Hctor Hrun Hi.
  assert (Hshape : data e0 = dataIn ∧ fec_chunks e0 = fec_chunksIn).
  { unfold FECEncoder in Hctor. destruct (negb _); [done|].
    destruct (vsize fec_chunksIn =? 0); [done|]. destruct (vsize dataIn =? 0); [done|].
    destruct (_ <? 2); [by injection Hctor as <-|].
    destruct (wh256_is_null _); [done|]. by injection Hctor as <-. }
  destruct Hshape as [Hd0 Hb0].
  assert (Hwf : wf e0) by (unfold wf; by rewrite Hd0, Hb0).
  destruct (build_slots_rebuild built e0 [] e Hwf) as [Hd Hall]; try done.
  { by rewrite Hd0. }
  { intros j Hj. by apply elem_of_nil in Hj. }
  destruct (Hall i Hi) as (e' & Hb & Hsame & Hnoop).
  assert (Hwfe : wf e).
  { clear -Hwf Hrun. revert e0 Hwf Hrun.
    induction built as [|k built IH]; intros e0 Hwf Hrun; simpl in Hrun.
    - by injection Hrun as <-.
    - destruct (BuildChunk e0 k) as [[[|] e2]|] eqn:Hb; try done.
      apply (IH e2); [|done].
      destruct (BuildChunk_success_state e0 k e2 Hwf Hb) as (bytes & Hlen & Hd2 & Hbuf2).
      destruct (BuildChunk_success e0 k e2 Hwf Hb) as [Hk _].
      destruct (slot_in_range e0 k Hwf Hk) as [Hlek _].
      eapply wf_same_sizes; [exact Hwf|done|]. rewrite Hbuf2.
      apply vsize_write_at. unfold vsize in Hlek. lia. }
  destruct (BuildChunk_success_state e i e' Hwfe Hb) as (_ & _ & Hd' & _).
  exists e'. split; [done|]. split; [done|]. split; [done|].
  split; [intros j; by rewrite Hsame|].
  split; [intros j; unfold assigned_id, chunk_id_of; by rewrite Hsame, Hd'|].
  rewrite <- Hd0. exact Hnoop.
Qed.

End RebuildSlot.

Lemma RefCodec_repeatable : FECEncoder.write_repeatable (codec := RefCodec.codec).
Proof.
  intros st chunk_id id. simpl.
  assert (Hst : (RefCodec.encoder_write st chunk_id).1.1 = st)
    by (unfold RefCodec.encoder_write; by destruct (RefCodec.null st)).
  by rewrite Hst.
Qed.

Lemma BuildChunk_rebuild_noop_witness :
  ∃ e e', FECEncoder.build_slots Samples.e_pair [1; 0] = Some e ∧
          FECEncoder.BuildChunk e 1 = Some (true, e') ∧
          FECEncoder.fec_chunks e' = FECEncoder.fec_chunks e ∧
          FECEncoder.assigned_id e' 1 = Some 3.
Proof.
  destruct (FECEncoder.build_slots Samples.e_pair [1; 0]) as [e|] eqn:Hrun;
    [|vm_compute in Hrun; discriminate Hrun].
  destruct (BuildChunk_rebuild_noop (codec := RefCodec.codec)
              Samples.data2 0 Samples.out3 Samples.e_pair [1; 0] e 1)
    as (e' & Hb & Hbuf & _ & _ & Hid & _);
    [by vm_compute|by vm_compute|intros _; exact RefCodec_repeatable
    |by vm_compute|exact Hrun|by constructor|].
  exists e, e'. split; [done|]. split; [exact Hb|]. split; [exact Hbuf|].
  rewrite Hid. vm_compute in Hrun. injection Hrun as <-. by vm_compute.
Defined.
